(** * The maze grid, its per-tile event sets, line of sight and perception

    A shallow embedding of [reverie/backend_server/maze.py] (class [Maze]) and
    of [reverie/backend_server/persona/cognitive_modules/perceive.py]
    (function [perceive]), with the scratch fields of
    [persona/memory_structures/scratch.py] that [perceive] reads and writes.

    Conventions.
    - Python integers are [Z].
    - A Python call that can raise returns an [option]; [None] stands for a
      raised exception ([IndexError], [ValueError], ...).
    - A Python [set] is a [gset]; [list(s)] is [elements s].  The order in
      which Python enumerates a set is unspecified, and no theorem about the
      code depends on which order [elements] picks (the evaluated scenarios
      at the end show the order it does pick).
    - [self.tiles] and [self.layout] are lists of rows, indexed [[y][x]], with
      Python's index rule (negative indices count from the end).
    - The scoring function that [perceive] calls is not part of the module.
      It is a parameter: a function of the event and of a state that a call
      may change, whose call may raise. *)

From Stdlib Require Import ZArith Lia List Sorted Permutation.
From stdpp Require Import base option list sorting gmap sets strings pretty.

Open Scope Z_scope.

(** ** Python primitives *)

(** [range(a, b)]. *)
Definition py_range (a b : Z) : list Z := seqZ a (b - a).

(** The position [l[i]] denotes in a list of length [length l]: Python counts
    a negative index from the end and raises [IndexError] outside
    [-len, len). *)
Definition py_norm_index {A} (l : list A) (i : Z) : option nat :=
  if decide (0 ≤ i) then
    if decide (i < Z.of_nat (length l)) then Some (Z.to_nat i) else None
  else
    if decide (- Z.of_nat (length l) ≤ i)
    then Some (Z.to_nat (Z.of_nat (length l) + i)) else None.

(** [l[i]]. *)
Definition py_index {A} (l : list A) (i : Z) : option A :=
  n ← py_norm_index l i; l !! n.

(** [l[i] = v]. *)
Definition py_setitem {A} (l : list A) (i : Z) (v : A) : option (list A) :=
  n ← py_norm_index l i; Some (<[n := v]> l).

(** [l[:k]]: the first [k] items, or all but the last [-k] when [k < 0]. *)
Definition py_slice_to {A} (l : list A) (k : Z) : list A :=
  if decide (0 ≤ k) then take (Z.to_nat k) l
  else take (Z.to_nat (Z.of_nat (length l) + k)) l.

(** A [for] loop over [xs] whose body updates a state and may raise. *)
Fixpoint for_each {S A} (xs : list A) (body : A → S → option S) (s : S)
  : option S :=
  match xs with
  | [] => Some s
  | x :: xs' => s' ← body x s; for_each xs' body s'
  end.

(** ** Events *)

(** What the code stores in a tile's event set: a tuple of components
    (typically subject, predicate, object, description, but any length is
    accepted), or any other hashable value. *)
Inductive Event :=
  | EvTuple (comps : list string)
  | EvOther (repr : string).

Global Instance Event_eq_dec : EqDecision Event.
Proof. solve_decision. Defined.

Global Instance Event_countable : Countable Event.
Proof.
  refine (inj_countable'
            (λ e, match e with EvTuple l => inl l | EvOther s => inr s end)
            (λ s, match s with inl l => EvTuple l | inr s => EvOther s end) _).
  by intros [].
Defined.

(** ** Tiles and the maze *)

(** The dictionary built for each tile by [_generate_tiles]. *)
Record Tile := mkTile {
  tile_x : Z;
  tile_y : Z;
  tile_type : string;
  tile_events : gset Event;
  tile_description : string;
  tile_objects : gset string;
}.

(** The fields of a [Maze] object that the grid operations use.  (The
    maze-level [self.events] dictionary is never read by them.) *)
Record Maze := mkMaze {
  width : Z;
  height : Z;
  layout : list (list Z);
  tiles : list (list Tile);
}.

Definition Coord : Type := Z * Z.

(** [0 <= x < self.width and 0 <= y < self.height]. *)
Definition in_bounds (m : Maze) (x y : Z) : bool :=
  (0 <=? x) && (x <? width m) && (0 <=? y) && (y <? height m).

(** [g[y][x]] for a list of rows [g]. *)
Definition grid_get {A} (g : list (list A)) (x y : Z) : option A :=
  row ← py_index g y; py_index row x.

(** [self.tiles[y][x]]. *)
Definition get_tile (m : Maze) (x y : Z) : option Tile :=
  grid_get (tiles m) x y.

(** [self.tiles[y][x] = t], as the in-place mutation of a tile dictionary
    reached through [self.tiles[y][x]] leaves the grid. *)
Definition set_tile (m : Maze) (x y : Z) (t : Tile) : option Maze :=
  row ← py_index (tiles m) y;
  row' ← py_setitem row x t;
  tiles' ← py_setitem (tiles m) y row';
  Some (mkMaze (width m) (height m) (layout m) tiles').

Definition set_events (t : Tile) (evs : gset Event) : Tile :=
  mkTile (tile_x t) (tile_y t) (tile_type t) evs
         (tile_description t) (tile_objects t).

(** *** Construction *)

(** [_generate_default_layout]. *)
Definition _generate_default_layout (w h : Z) : list (list Z) :=
  (λ _, (λ _, 0) <$> py_range 0 w) <$> py_range 0 h.

Definition new_tile (x y : Z) (type : string) : Tile :=
  mkTile x y type ∅ "" ∅.

(** [_generate_tiles]; reading [self.layout[y][x]] may raise. *)
Definition _generate_tiles (w h : Z) (lay : list (list Z))
  : option (list (list Tile)) :=
  for_each (py_range 0 h) (λ y tiles,
    row ← for_each (py_range 0 w) (λ x row,
             lrow ← py_index lay y;
             v ← py_index lrow x;
             Some (row ++ [new_tile x y
                             (if decide (v = 0) then "traversable" else "wall")]))
           [];
    Some (tiles ++ [row])) [].

(** Truth value of an optional integer argument ([None] and [0] are falsy). *)
Definition truthy_int (o : option Z) : bool :=
  match o with Some n => negb (n =? 0) | None => false end.

(** Truth value of an optional list argument ([None] and [[]] are falsy). *)
Definition truthy_list {A} (o : option (list A)) : bool :=
  match o with Some (_ :: _) => true | _ => false end.

(** [Maze.__init__] without a maze name (loading a maze from a file is
    outside the grid engine). *)
Definition Maze_init (w h : option Z) (lay : option (list (list Z)))
  : option Maze :=
  let '(w', h', lay') :=
    if truthy_int w && truthy_int h then
      let w' := default 0 w in
      let h' := default 0 h in
      (w', h', if truthy_list lay then default [] lay
               else _generate_default_layout w' h')
    else (10, 10, _generate_default_layout 10 10) in
  tiles ← _generate_tiles w' h' lay';
  Some (mkMaze w' h' lay' tiles).

(** *** Queries *)

(** [is_traversable]. *)
Definition is_traversable (m : Maze) (tile : Coord) : option bool :=
  let '(x, y) := tile in
  if negb (in_bounds m x y) then Some false
  else t ← get_tile m x y; Some (bool_decide (tile_type t = "traversable")).

(** [get_events_at]. *)
Definition get_events_at (m : Maze) (tile : Coord) : option (list Event) :=
  let '(x, y) := tile in
  if negb (in_bounds m x y) then Some []
  else t ← get_tile m x y; Some (elements (tile_events t)).

(** [get_distance]. *)
Definition get_distance (start end_ : Coord) : Z :=
  Z.abs (end_.1 - start.1) + Z.abs (end_.2 - start.2).

(** *** Line of sight *)

Section line_of_sight.
Variable m : Maze.
Variable end_ : Coord.
(** The loop constants: the doubled [dx], [dy] and the two increments. *)
Variables dx2 dy2 x_inc y_inc : Z.

(** The [for _ in range(n)] loop of [has_line_of_sight], with the early
    [return False]; [k] is the number of iterations left. *)
Fixpoint los_loop (k : nat) (x y error : Z) : option bool :=
  match k with
  | O => Some true
  | S k' =>
      t ← is_traversable m (x, y);
      if negb t && negb (bool_decide ((x, y) = end_)) then Some false
      else if 0 <? error then los_loop k' (x + x_inc) y (error - dy2)
           else los_loop k' x (y + y_inc) (error + dx2)
  end.

(** The tiles the same loop visits when it is never cut short. *)
Fixpoint los_visit (k : nat) (x y error : Z) : list Coord :=
  match k with
  | O => []
  | S k' =>
      (x, y) :: (if 0 <? error then los_visit k' (x + x_inc) y (error - dy2)
                 else los_visit k' x (y + y_inc) (error + dx2))
  end.
End line_of_sight.

(** [has_line_of_sight]. *)
Definition has_line_of_sight (m : Maze) (start end_ : Coord) : option bool :=
  let '(x0, y0) := start in
  let '(x1, y1) := end_ in
  let dx := Z.abs (x1 - x0) in
  let dy := Z.abs (y1 - y0) in
  let n := 1 + dx + dy in
  let x_inc := if x0 <? x1 then 1 else -1 in
  let y_inc := if y0 <? y1 then 1 else -1 in
  los_loop m end_ (dx * 2) (dy * 2) x_inc y_inc (Z.to_nat n) x0 y0 (dx - dy).

(** The digital-line walk of [has_line_of_sight start end_]: every tile the
    loop tests when no tile stops it. *)
Definition los_walk (start end_ : Coord) : list Coord :=
  let '(x0, y0) := start in
  let '(x1, y1) := end_ in
  let dx := Z.abs (x1 - x0) in
  let dy := Z.abs (y1 - y0) in
  let n := 1 + dx + dy in
  let x_inc := if x0 <? x1 then 1 else -1 in
  let y_inc := if y0 <? y1 then 1 else -1 in
  los_visit (dx * 2) (dy * 2) x_inc y_inc (Z.to_nat n) x0 y0 (dx - dy).

(** *** Vision range *)

(** [get_tiles_in_vision_range]; [center_tile] is [None] for a falsy
    argument ([None] or an empty tuple). *)
Definition get_tiles_in_vision_range (m : Maze) (center_tile : option Coord)
    (vision_radius : Z) : option (list Coord) :=
  match center_tile with
  | None => Some []
  | Some (x, y) =>
      if negb (in_bounds m x y) then Some []
      else
        for_each (py_range (- vision_radius) (vision_radius + 1))
          (λ dy visible_tiles,
            for_each (py_range (- vision_radius) (vision_radius + 1))
              (λ dx visible_tiles,
                let target_x := x + dx in
                let target_y := y + dy in
                if negb (in_bounds m target_x target_y) then Some visible_tiles
                else
                  let distance := Z.abs dx + Z.abs dy in
                  if distance <=? vision_radius then
                    los ← has_line_of_sight m (x, y) (target_x, target_y);
                    Some (if los : bool
                          then visible_tiles ++ [(target_x, target_y)]
                          else visible_tiles)
                  else Some visible_tiles)
              visible_tiles)
          []
  end.

(** *** Event index *)

Definition add_to_tile (t : Tile) (event : Event) : Tile :=
  set_events t ({[event]} ∪ tile_events t).

(** [add_event]: [self.tiles[y][x]["events"].add(event)] when in bounds. *)
Definition add_event (m : Maze) (tile : Coord) (event : Event) : option Maze :=
  let '(x, y) := tile in
  if in_bounds m x y then
    t ← get_tile m x y; set_tile m x y (add_to_tile t event)
  else Some m.

(** [remove_event]: [self.tiles[y][x]["events"].discard(event)]. *)
Definition remove_event (m : Maze) (tile : Coord) (event : Event)
  : option Maze :=
  let '(x, y) := tile in
  if in_bounds m x y then
    t ← get_tile m x y;
    set_tile m x y (set_events t (tile_events t ∖ {[event]}))
  else Some m.

(** The test of [remove_subject_events_from_tile]: a non-empty tuple whose
    first component is [subject]. *)
Definition has_subject (subject : string) (event : Event) : bool :=
  match event with
  | EvTuple (s :: _) => bool_decide (s = subject)
  | _ => false
  end.

(** [remove_subject_events_from_tile]. *)
Definition remove_subject_events_from_tile (m : Maze) (subject : string)
    (tile : Coord) : option Maze :=
  let '(x, y) := tile in
  if negb (in_bounds m x y) then Some m
  else
    t ← get_tile m x y;
    let events := tile_events t in
    let to_remove := filter (λ event, has_subject subject event) events in
    set_tile m x y (set_events t (events ∖ to_remove)).

(** [_expand_maze]. *)
Definition _expand_maze (m : Maze) (new_width new_height : Z) : option Maze :=
  let old_layout := layout m in
  layout' ←
    for_each (py_range 0 (Z.min (height m) new_height))
      (λ y lay,
        for_each (py_range 0 (Z.min (width m) new_width))
          (λ x lay,
            orow ← py_index old_layout y;
            v ← py_index orow x;
            row ← py_index lay y;
            row' ← py_setitem row x v;
            py_setitem lay y row')
          lay)
      (_generate_default_layout new_width new_height);
  let old_tiles := tiles m in
  tiles' ←
    for_each (py_range 0 new_height)
      (λ y tiles,
        row ← for_each (py_range 0 new_width)
                (λ x row,
                  if (y <? height m) && (x <? width m) then
                    orow ← py_index old_tiles y;
                    t ← py_index orow x;
                    Some (row ++ [t])
                  else Some (row ++ [new_tile x y "traversable"]))
                [];
        Some (tiles ++ [row]))
      [];
  Some (mkMaze new_width new_height layout' tiles').

(** [add_event_from_tile]: expand when out of bounds, then
    [self.tiles[y][x]["events"].add(event)]. *)
Definition add_event_from_tile (m : Maze) (event : Event) (tile : Coord)
  : option Maze :=
  let '(x, y) := tile in
  m' ← (if negb (in_bounds m x y)
        then _expand_maze m (Z.max (width m) (x + 1)) (Z.max (height m) (y + 1))
        else Some m);
  t ← get_tile m' x y;
  set_tile m' x y (add_to_tile t event).

(** [event[:min_len] == existing_event[:min_len]] with
    [min_len = min(len(event), len(existing_event))]. *)
Definition prefix_match (event existing : list string) : bool :=
  let min_len := Nat.min (length event) (length existing) in
  bool_decide (take min_len event = take min_len existing).

(** The stored events the matching loop of [remove_event_from_tile] collects
    for the tuple [event]: the stored tuples that agree with it. *)
Definition matches_event (event : list string) (existing : Event) : bool :=
  match existing with
  | EvTuple ex => prefix_match event ex
  | EvOther _ => false
  end.

(** What [remove_event_from_tile] leaves of a tile's event set. *)
Definition events_after_remove (event : Event) (events : gset Event)
  : gset Event :=
  if decide (event ∈ events) then events ∖ {[event]}
  else
    match event with
    | EvTuple ev =>
        let matching_events := filter (λ existing, matches_event ev existing) events in
        events ∖ matching_events
    | EvOther _ => events
    end.

(** [remove_event_from_tile]. *)
Definition remove_event_from_tile (m : Maze) (event : Event) (tile : Coord)
  : option Maze :=
  let '(x, y) := tile in
  if negb (in_bounds m x y) then Some m
  else
    t ← get_tile m x y;
    set_tile m x y (set_events t (events_after_remove event (tile_events t))).

(** ** Perception *)

(** [list.sort(key=...)]: ascending by key and stable.  [sort_by_key] inserts
    the items from the last to the first, each in front of the first item whose
    key is not smaller. *)
Fixpoint insert_by_key {A} (key : A → Z) (a : A) (l : list A) : list A :=
  match l with
  | [] => [a]
  | b :: l' => if key a <=? key b then a :: b :: l'
               else b :: insert_by_key key a l'
  end.

Fixpoint sort_by_key {A} (key : A → Z) (l : list A) : list A :=
  match l with
  | [] => []
  | a :: l' => insert_by_key key a (sort_by_key key l')
  end.

(** The standardized tuple [(subject, predicate, obj, description)]. *)
Definition FormattedEvent : Type := string * string * string * string.

(** [event[i] if len(event) > i else ""]. *)
Definition component (comps : list string) (i : nat) : string :=
  default "" (comps !! i).

Section perceive.
(** The numbers held in [importance_trigger_curr]. *)
Variable Num : Type.

(** The values the scoring function returns, and
    [importance_trigger_curr -= event_poignancy]: [None] when the subtraction
    raises (a score that is not a number, such as Python's [None]). *)
Variable Score : Type.
Variable num_sub : Num → Score → option Num.

(** Whatever the scoring function reads and changes from one call to the
    next; the function is not part of the module and may ask a language
    model, so two calls on the same event need not come out the same. *)
Variable World : Type.

(** [calculate_event_poignancy], the scoring collaborator: the outcome of a
    call ([None] when the call raises) and the state the call leaves. *)
Variable calculate_event_poignancy :
  FormattedEvent → World → option Score * World.

(** The fields of [persona.scratch] that [perceive] uses. *)
Record Scratch := mkScratch {
  curr_tile : option Coord;
  vision_r : Z;
  att_bandwidth : Z;
  importance_trigger_curr : Num;
  importance_ele_n : Z;
}.

(** The body of the inner loop of the gathering pass, for one event of one
    tile.  The score is computed and dropped; an exception inside the [try]
    skips the event, which is appended only after the scoring call. *)
Definition gather_event (curr : Coord) (tile : Coord) (event : Event)
    (st : list (Z * FormattedEvent) * World)
  : list (Z * FormattedEvent) * World :=
  let '(percept_events_list, world) := st in
  match event with
  | EvTuple comps =>
      if decide (2 ≤ length comps)%nat then
        let formatted_event :=
          (component comps 0, component comps 1,
           component comps 2, component comps 3) in
        let event_dist := get_distance curr tile in
        match calculate_event_poignancy formatted_event world with
        | (Some _, world') =>
            (percept_events_list ++ [(event_dist, formatted_event)], world')
        | (None, world') => (percept_events_list, world')
        end
      else (percept_events_list, world)
  | EvOther _ => (percept_events_list, world)
  end.

(** The gathering pass: [percept_events_list] after the loop over the
    visible tiles. *)
Definition gather_events (maze : Maze) (curr : Coord)
    (visible_tiles : list Coord) (world : World)
  : option (list (Z * FormattedEvent) * World) :=
  for_each visible_tiles
    (λ tile st,
      events ← get_events_at maze tile;
      for_each events (λ event st, Some (gather_event curr tile event st))
        st)
    ([], world).

(** The body of the second loop.  The event is appended first; then the
    scoring function is called again and the importance fields are updated.
    When that call raises, or the subtraction does, the [except] clause goes
    on to the next entry: the event stays appended and the fields are as
    they were. *)
Definition attend_event (entry : Z * FormattedEvent)
    (st : list FormattedEvent * Scratch * World)
  : list FormattedEvent * Scratch * World :=
  let '(perceived_events, scratch, world) := st in
  let event := entry.2 in
  let perceived_events := perceived_events ++ [event] in
  match calculate_event_poignancy event world with
  | (Some event_poignancy, world') =>
      match num_sub (importance_trigger_curr scratch) event_poignancy with
      | Some trigger =>
          (perceived_events,
           mkScratch (curr_tile scratch) (vision_r scratch)
             (att_bandwidth scratch) trigger (importance_ele_n scratch + 1),
           world')
      | None => (perceived_events, scratch, world')
      end
  | (None, world') => (perceived_events, scratch, world')
  end.

(** [perceive]: the returned list, the scratch as the call leaves it, and the
    state the scoring calls leave. *)
Definition perceive (scratch : Scratch) (maze : Maze) (world : World)
  : option (list FormattedEvent * Scratch * World) :=
  match curr_tile scratch with
  | None => Some ([], scratch, world)
  | Some curr =>
      visible_tiles ←
        get_tiles_in_vision_range maze (Some curr) (vision_r scratch);
      '(percept_events_list, world) ←
        gather_events maze curr visible_tiles world;
      let sorted := sort_by_key fst percept_events_list in
      for_each (py_slice_to sorted (att_bandwidth scratch))
        (λ entry st, Some (attend_event entry st))
        ([], scratch, world)
  end.
End perceive.

Arguments gather_event {Score World} _ _ _ _ _.
Arguments gather_events {Score World} _ _ _ _ _.
Arguments attend_event {Num Score} _ {World} _ _ _.
Arguments perceive {Num Score} _ {World} _ _ _ _.
Arguments curr_tile {Num} _.
Arguments vision_r {Num} _.
Arguments att_bandwidth {Num} _.
Arguments importance_trigger_curr {Num} _.
Arguments importance_ele_n {Num} _.
Arguments mkScratch {Num} _ _ _ _ _.

(** *** What the passes of [perceive] amount to *)

(** What the gathering pass offers to the scoring function for one stored
    event of one tile: nothing, or the event standardized to four components
    (missing ones are "", those past the fourth are dropped), paired with the
    Manhattan distance of that tile from the agent. *)
Definition standardized (curr tile : Coord) (event : Event)
  : list (Z * FormattedEvent) :=
  match event with
  | EvTuple comps =>
      if decide (2 ≤ length comps)%nat then
        [(get_distance curr tile,
          (component comps 0, component comps 1,
           component comps 2, component comps 3))]
      else []
  | EvOther _ => []
  end.

(** The standardized events stored on the given tiles, each with the
    distance of the tile that holds it, in the order of the tiles and, within
    a tile, in the order of [get_events_at]. *)
Definition stored_candidates (maze : Maze) (curr : Coord)
    (visible_tiles : list Coord) : list (Z * FormattedEvent) :=
  visible_tiles ≫= λ tile,
    default [] (get_events_at maze tile) ≫= standardized curr tile.

(** The entries of a list that the scoring function, called on each in turn,
    scores without raising, and the state the calls leave. *)
Fixpoint scored_entries {Score World}
    (calculate_event_poignancy : FormattedEvent → World → option Score * World)
    (entries : list (Z * FormattedEvent)) (world : World)
  : list (Z * FormattedEvent) * World :=
  match entries with
  | [] => ([], world)
  | entry :: entries' =>
      let call := calculate_event_poignancy entry.2 world in
      let rest := scored_entries calculate_event_poignancy entries' call.2 in
      (match call.1 with Some _ => entry :: rest.1 | None => rest.1 end,
       rest.2)
  end.

(** The outcomes of calling the scoring function on each event of a list in
    turn, every call in the state the call before it left, and the state the
    last call leaves. *)
Fixpoint scoring_outcomes {Score World}
    (calculate_event_poignancy : FormattedEvent → World → option Score * World)
    (events : list FormattedEvent) (world : World)
  : list (option Score) * World :=
  match events with
  | [] => ([], world)
  | event :: events' =>
      let call := calculate_event_poignancy event world in
      let rest := scoring_outcomes calculate_event_poignancy events' call.2 in
      (call.1 :: rest.1, rest.2)
  end.

(** The importance fields [(importance_trigger_curr, importance_ele_n)] after
    the scoring call for one attended event came out as [outcome]: the score
    subtracted and one counted, or both fields as they were when the call
    raised or the score could not be subtracted. *)
Definition importance_after {Num Score} (num_sub : Num → Score → option Num)
    (fields : Num * Z) (outcome : option Score) : Num * Z :=
  match outcome with
  | Some event_poignancy =>
      match num_sub fields.1 event_poignancy with
      | Some trigger => (trigger, fields.2 + 1)
      | None => fields
      end
  | None => fields
  end.

(** ** The date string of the scratch *)

Section date_string.
(** A [datetime] value: its [day] and [hour] attributes and its [strftime]
    method ([None] when the call raises). *)
Variable DateTime : Type.
Variable day hour : DateTime → Z.
Variable strftime : DateTime → string → option string.

(** The suffix [get_str_curr_date_str] computes for the day number:
    ['th'] when [10 <= day % 100 <= 20], otherwise
    [{1: 'st', 2: 'nd', 3: 'rd'}.get(day % 10, 'th')]. *)
Definition day_suffix (d : Z) : string :=
  if (10 <=? d mod 100) && (d mod 100 <=? 20) then "th"
  else default "th"
         (({[1 := "st"; 2 := "nd"; 3 := "rd"]} : gmap Z string) !! (d mod 10)).

(** The time-of-day word it computes for the hour. *)
Definition time_of_day (h : Z) : string :=
  if (5 <=? h) && (h <? 12) then "morning"
  else if (12 <=? h) && (h <? 17) then "afternoon"
  else if (17 <=? h) && (h <? 22) then "evening"
  else "night".

(** [Scratch.get_str_curr_date_str]; an exception in the [try] block falls
    back to the plain format, whose own exception is not caught. *)
Definition get_str_curr_date_str (curr_time : option DateTime)
  : option string :=
  match curr_time with
  | None => Some "Unknown date"
  | Some t =>
      let d := day t in
      let suffix := day_suffix d in
      match strftime t ("%A, %B " +:+ pretty d +:+ suffix +:+ ", %Y") with
      | Some date_str =>
          Some (date_str +:+ " (" +:+ time_of_day (hour t) +:+ ")")
      | None => strftime t "%B %d, %Y"
      end
  end.
End date_string.

(** ** Well-formed grids *)

(** [g] has [h] rows of [w] items each. *)
Definition grid_shape {A} (h w : Z) (g : list (list A)) : Prop :=
  length g = Z.to_nat h ∧ Forall (λ row, length row = Z.to_nat w) g.

(** The tile array matches the recorded dimensions.  The constructor
    establishes this ([Maze_init_wf_tiles]); the event operations and the
    expansion keep it ([set_tile_spec], [_expand_maze_spec]). *)
Definition wf_tiles (m : Maze) : Prop := grid_shape (height m) (width m) (tiles m).

(** The layout matches the recorded dimensions. *)
Definition wf_layout (m : Maze) : Prop := grid_shape (height m) (width m) (layout m).

(** The layout has a value at every coordinate of the grid.  The constructor
    returns only grids of this kind, also when it is given a layout with more
    rows or longer rows than the dimensions ask for
    ([Maze_init_layout_covers]); the event operations do not touch the
    layout, and the expansion leaves a layout of exactly the new dimensions
    ([layout_covers_invariant]). *)
Definition layout_covers (m : Maze) : Prop :=
  ∀ x y, 0 ≤ x < width m → 0 ≤ y < height m →
         is_Some (grid_get (layout m) x y).

(** The tile at a coordinate of the grid; coordinates outside
    [[0,width) x [0,height)] name no tile. *)
Definition tile_at (m : Maze) (c : Coord) : option Tile :=
  if in_bounds m c.1 c.2 then get_tile m c.1 c.2 else None.

(** The event set of the tile at a coordinate (empty where there is no
    tile). *)
Definition event_set (m : Maze) (c : Coord) : gset Event :=
  from_option tile_events ∅ (tile_at m c).

(** [m'] is [m] but for the tile at [c]: same dimensions, same layout, and
    every other coordinate holds the tile it held. *)
Definition same_grid_except (m m' : Maze) (c : Coord) : Prop :=
  width m' = width m ∧ height m' = height m ∧ layout m' = layout m
  ∧ ∀ c', c' ≠ c → tile_at m' c' = tile_at m c'.

(** [t'] is [t] but for its event set. *)
Definition same_tile_except_events (t t' : Tile) : Prop :=
  tile_x t' = tile_x t ∧ tile_y t' = tile_y t ∧ tile_type t' = tile_type t
  ∧ tile_description t' = tile_description t
  ∧ tile_objects t' = tile_objects t.

(** [m'] shows what [m] shows: same dimensions and layout, same traversable
    tiles, same lines of sight, same tiles in vision range. *)
Definition same_view (m m' : Maze) : Prop :=
  width m' = width m ∧ height m' = height m ∧ layout m' = layout m
  ∧ (∀ t, is_traversable m' t = is_traversable m t)
  ∧ (∀ a b, has_line_of_sight m' a b = has_line_of_sight m a b)
  ∧ (∀ center r, get_tiles_in_vision_range m' center r
                 = get_tiles_in_vision_range m center r).

(** Row-major order on coordinates: by [y], then by [x]. *)
Definition row_major_lt (a b : Coord) : Prop :=
  a.2 < b.2 ∨ (a.2 = b.2 ∧ a.1 < b.1).

(** ** Scenario data *)

Definition bob_eating : Event := EvTuple ["Bob"; "eating"; "apple"; ""].
Definition bob_walking : Event := EvTuple ["Bob"; "walking"; ""; ""].
Definition alice_eating : Event := EvTuple ["Alice"; "eating"; "apple"; ""].

Definition empty_maze : Maze := mkMaze 0 0 [] [].

(** A 5 x 5 layout, all traversable but for a wall at (2, 2). *)
Definition scenario_layout : list (list Z) :=
  [[0; 0; 0; 0; 0]; [0; 0; 0; 0; 0]; [0; 0; 1; 0; 0];
   [0; 0; 0; 0; 0]; [0; 0; 0; 0; 0]].

(** [Maze(width=5, height=5, layout=scenario_layout)]. *)
Definition scenario_maze : Maze :=
  Eval vm_compute in
    default empty_maze (Maze_init (Some 5) (Some 5) (Some scenario_layout)).

(** The same grid with one event behind the wall, at (4, 2), and one at
    (1, 1), both put there by [add_event]. *)
Definition scenario_world : Maze :=
  Eval vm_compute in
    default empty_maze
      (m ← add_event scenario_maze (4, 2) bob_eating;
       add_event m (1, 1) alice_eating).

(** [Maze(width=3, height=3)] with one event added at (1, 1). *)
Definition small_world : Maze :=
  Eval vm_compute in
    default empty_maze
      (m ← Maze_init (Some 3) (Some 3) None; add_event m (1, 1) bob_eating).

(** [Maze(width=1, height=1)] after adding the given events to its tile. *)
Definition one_tile_world (events : list Event) : option Maze :=
  m ← Maze_init (Some 1) (Some 1) None;
  for_each events (λ event m, add_event m (0, 0) event) m.

(** A tile holding the three events of the removal scenario. *)
Definition three_events_world : Maze :=
  Eval vm_compute in
    default empty_maze
      (one_tile_world [bob_eating; bob_walking; alice_eating]).

(** A tile holding the two-component tuple ("Bob", "eating") only. *)
Definition short_tuple_world : Maze :=
  Eval vm_compute in
    default empty_maze (one_tile_world [EvTuple ["Bob"; "eating"]]).

(** An agent at (0, 2) with vision radius 4 and attention bandwidth 5, its
    importance fields at 10 and 0. *)
Definition scenario_scratch : Scratch Z :=
  mkScratch (Some (0, 2)) 4 5 10 0.

(** The same agent with the attention bandwidth -1. *)
Definition distracted_scratch : Scratch Z :=
  mkScratch (Some (0, 2)) 4 (-1) 10 0.

(** Integer scores and their subtraction, which does not raise. *)
Definition int_sub (trigger score : Z) : option Z := Some (trigger - score).

(** A scoring function that gives every event the score 1 and keeps no
    state. *)
Definition unit_score (event : FormattedEvent) (world : unit)
  : option Z * unit := (Some 1, world).




(** [Maze(width=5, height=1)] with three events along the corridor: at
    (0, 0), at (2, 0) and at (3, 0). *)
Definition corridor_world : Maze :=
  Eval vm_compute in
    default empty_maze
      (m ← Maze_init (Some 5) (Some 1) None;
       m ← add_event m (0, 0) bob_eating;
       m ← add_event m (2, 0) bob_walking;
       add_event m (3, 0) alice_eating).

(** An agent at the end (4, 0) of the corridor, with vision radius 4 and
    attention bandwidth 2, its importance fields at 10 and 0. *)
Definition corridor_scratch : Scratch Z :=
  mkScratch (Some (4, 0)) 4 2 10 0.

(** What one iteration of the inner loop of [get_tiles_in_vision_range]
    appends for the offset [(dx, dy)]. *)
Definition vision_cell (m : Maze) (c : Coord) (r dy dx : Z) : list Coord :=
  let t := (c.1 + dx, c.2 + dy) in
  if in_bounds m t.1 t.2 && (Z.abs dx + Z.abs dy <=? r)
     && bool_decide (has_line_of_sight m c t = Some true)
  then [t] else [].

(** * Properties *)

(** A closed equation whose left side evaluates to its right side. *)
Ltac by_evaluation :=
  lazymatch goal with
  | |- @eq ?T _ ?rhs => vm_cast_no_check (@eq_refl T rhs)
  end.

(** ** Python primitives *)

Lemma py_index_nonneg {A} (l : list A) (i : Z) :
  0 ≤ i → py_index l i = l !! Z.to_nat i.
Proof.
  intros Hi. unfold py_index, py_norm_index.
  rewrite decide_True by done.
  case_decide; simpl; [done|].
  symmetry. apply lookup_ge_None. lia.
Qed.

Lemma py_index_of_nat {A} (l : list A) (n : nat) :
  py_index l (Z.of_nat n) = l !! n.
Proof. rewrite py_index_nonneg by lia. by rewrite Nat2Z.id. Qed.

Lemma py_setitem_nonneg {A} (l : list A) (i : Z) (v : A) :
  0 ≤ i → i < Z.of_nat (length l) →
  py_setitem l i v = Some (<[Z.to_nat i := v]> l).
Proof.
  intros Hi Hlt. unfold py_setitem, py_norm_index.
  by rewrite !decide_True by done.
Qed.

Lemma elem_of_py_range (a b i : Z) : i ∈ py_range a b ↔ a ≤ i < b.
Proof. unfold py_range. rewrite elem_of_seqZ. lia. Qed.

Lemma py_range_nil (a b : Z) : b ≤ a → py_range a b = [].
Proof.
  intros H. unfold py_range, seqZ.
  replace (Z.to_nat (b - a)) with 0%nat by lia. done.
Qed.

Lemma py_range_cons (a b : Z) : a < b → py_range a b = a :: py_range (a + 1) b.
Proof.
  intros H. unfold py_range.
  rewrite (seqZ_cons a (b - a)) by lia.
  f_equal. f_equal; lia.
Qed.

Lemma py_range_snoc (a b : Z) :
  a ≤ b → py_range a (b + 1) = py_range a b ++ [b].
Proof.
  intros H. unfold py_range.
  replace (b + 1 - a) with ((b - a) + 1) by lia.
  rewrite seqZ_app by lia.
  rewrite (seqZ_cons _ 1) by lia.
  rewrite (seqZ_nil _ (Z.pred 1)) by lia.
  do 2 f_equal. lia.
Qed.

Lemma length_py_range (a b : Z) : length (py_range a b) = Z.to_nat (b - a).
Proof. unfold py_range. apply length_seqZ. Qed.

Lemma lookup_py_range (a b : Z) (i : nat) :
  Z.of_nat i < b - a → py_range a b !! i = Some (a + Z.of_nat i).
Proof. intros H. unfold py_range. by apply lookup_seqZ_lt. Qed.

(** A loop whose body never raises and only appends to its state. *)
Lemma for_each_append {A B} (xs : list A) (body : A → list B → option (list B))
    (g : A → list B) (s : list B) :
  (∀ x s', x ∈ xs → body x s' = Some (s' ++ g x)) →
  for_each xs body s = Some (s ++ (xs ≫= g)).
Proof.
  revert s. induction xs as [|x xs IH]; intros s Hbody; simpl.
  - by rewrite app_nil_r.
  - rewrite Hbody by left. simpl.
    rewrite IH.
    + by rewrite <- app_assoc.
    + intros y s' Hy. apply Hbody. by right.
Qed.

(** A loop whose body never raises. *)
Lemma for_each_total {S A} (xs : list A) (body : A → S → option S)
    (f : A → S → S) (s : S) :
  (∀ x s', x ∈ xs → body x s' = Some (f x s')) →
  for_each xs body s = Some (foldl (λ s' x, f x s') s xs).
Proof.
  revert s. induction xs as [|x xs IH]; intros s Hbody; simpl; [done|].
  rewrite Hbody by left. simpl. apply IH.
  intros y s' Hy. apply Hbody. by right.
Qed.

(** ** Grid shape *)

Lemma grid_shape_lookup {A} (h w : Z) (g : list (list A)) (x y : Z) :
  grid_shape h w g → 0 ≤ x < w → 0 ≤ y < h →
  ∃ row v, g !! Z.to_nat y = Some row ∧ row !! Z.to_nat x = Some v
           ∧ length row = Z.to_nat w.
Proof.
  intros [Hlen Hrows] Hx Hy.
  destruct (lookup_lt_is_Some_2 g (Z.to_nat y)) as [row Hrow]; [lia|].
  assert (length row = Z.to_nat w) as Hw.
  { rewrite Forall_forall in Hrows. apply Hrows.
    by eapply list_elem_of_lookup_2. }
  destruct (lookup_lt_is_Some_2 row (Z.to_nat x)) as [v Hv]; [lia|].
  eauto.
Qed.

Lemma in_bounds_spec (m : Maze) (x y : Z) :
  in_bounds m x y = true ↔ (0 ≤ x < width m) ∧ (0 ≤ y < height m).
Proof. unfold in_bounds. rewrite !andb_true_iff. lia. Qed.

Lemma in_bounds_false (m : Maze) (x y : Z) :
  in_bounds m x y = false ↔ ¬ ((0 ≤ x < width m) ∧ (0 ≤ y < height m)).
Proof. rewrite <- in_bounds_spec. by destruct (in_bounds m x y). Qed.

Lemma grid_get_lookup {A} (g : list (list A)) (x y : Z) :
  0 ≤ x → 0 ≤ y →
  grid_get g x y = (row ← g !! Z.to_nat y; row !! Z.to_nat x).
Proof.
  intros Hx Hy. unfold grid_get. rewrite py_index_nonneg by done.
  destruct (g !! Z.to_nat y); simpl; [|done].
  by rewrite py_index_nonneg.
Qed.

Lemma get_tile_lookup (m : Maze) (x y : Z) :
  0 ≤ x → 0 ≤ y →
  get_tile m x y = (row ← tiles m !! Z.to_nat y; row !! Z.to_nat x).
Proof. apply grid_get_lookup. Qed.

Lemma get_tile_in_bounds (m : Maze) (x y : Z) :
  wf_tiles m → in_bounds m x y = true → is_Some (get_tile m x y).
Proof.
  intros Hwf [Hx Hy]%in_bounds_spec.
  destruct (grid_shape_lookup _ _ _ x y Hwf Hx Hy) as (row & t & Hrow & Ht & _).
  rewrite get_tile_lookup by lia. rewrite Hrow. simpl. eauto.
Qed.

Lemma is_traversable_total (m : Maze) (t : Coord) :
  wf_tiles m → is_Some (is_traversable m t).
Proof.
  intros Hwf. destruct t as [x y]. unfold is_traversable.
  destruct (in_bounds m x y) eqn:Hb; simpl; [|eauto].
  destruct (get_tile_in_bounds m x y Hwf Hb) as [tl ->]. simpl. eauto.
Qed.

Lemma get_events_at_total (m : Maze) (t : Coord) :
  wf_tiles m → is_Some (get_events_at m t).
Proof.
  intros Hwf. destruct t as [x y]. unfold get_events_at.
  destruct (in_bounds m x y) eqn:Hb; simpl; [|eauto].
  destruct (get_tile_in_bounds m x y Hwf Hb) as [tl ->]. simpl. eauto.
Qed.

(** ** Line of sight *)

Section los_props.
Variable m : Maze.
Variable end_ : Coord.
Variables dx2 dy2 x_inc y_inc : Z.
Hypothesis Hwf : wf_tiles m.

Local Abbreviation loop := (los_loop m end_ dx2 dy2 x_inc y_inc).
Local Abbreviation visit := (los_visit dx2 dy2 x_inc y_inc).

Lemma los_loop_total (k : nat) (x y e : Z) : is_Some (loop k x y e).
Proof.
  revert x y e. induction k as [|k IH]; intros x y e; cbn [los_loop]; [eauto|].
  destruct (is_traversable_total m (x, y) Hwf) as [b ->]. cbn [mbind option_bind].
  destruct (negb b && negb (bool_decide ((x, y) = end_))); [eauto|].
  destruct (0 <? e); apply IH.
Qed.

(** The loop answers [False] exactly when it meets a blocking tile that is
    not the destination. *)
Lemma los_loop_false_iff (k : nat) (x y e : Z) :
  loop k x y e = Some false ↔
  ∃ t, t ∈ visit k x y e ∧ t ≠ end_ ∧ is_traversable m t = Some false.
Proof.
  revert x y e. induction k as [|k IH]; intros x y e; cbn [los_loop los_visit].
  - split; [done|]. intros (t & Ht & _). by apply elem_of_nil in Ht.
  - destruct (is_traversable_total m (x, y) Hwf) as [b Hb]. rewrite Hb.
    cbn [mbind option_bind].
    destruct (negb b && negb (bool_decide ((x, y) = end_))) eqn:Hblock.
    + split; [intros _|done].
      apply andb_true_iff in Hblock as [Hnb Hne].
      apply negb_true_iff in Hnb, Hne. apply bool_decide_eq_false in Hne.
      exists (x, y). subst b. split_and!; [left|done|done].
    + assert (∀ t, t = (x, y) → t ≠ end_ → is_traversable m t ≠ Some false)
        as Hhere.
      { intros t -> Hne Htr. rewrite Hb in Htr. injection Htr as ->.
        simpl in Hblock. by rewrite bool_decide_eq_false_2 in Hblock. }
      destruct (0 <? e); rewrite IH; split.
      all: try (intros (t & Ht & Hne & Htr); exists t; split_and!; [by right|done|done]).
      all: intros (t & Ht & Hne & Htr); exists t; split_and!; [|done|done];
        apply elem_of_cons in Ht as [Heq|Ht]; [|done];
        by destruct (Hhere t Heq Hne).
Qed.
End los_props.

(** The walk follows the digital line: with [rx] steps in [x] and [ry] steps
    in [y] still to go, it has [1 + rx + ry] tiles left to test and ends on
    the tile [rx], [ry] steps away. *)
Lemma los_visit_last (dx dy x_inc y_inc : Z) (n : nat) :
  ∀ rx ry x y,
    0 ≤ rx ≤ dx → 0 ≤ ry ≤ dy → rx + ry = Z.of_nat n →
    last (los_visit (dx * 2) (dy * 2) x_inc y_inc (S n) x y
            (dx - dy + 2 * dy * rx - 2 * dx * ry))
    = Some (x + rx * x_inc, y + ry * y_inc).
Proof.
  induction n as [|n IH]; intros rx ry x y Hrx Hry Hn.
  - assert (rx = 0) as -> by lia. assert (ry = 0) as -> by lia.
    simpl. destruct (0 <? _); simpl; do 2 f_equal; lia.
  - remember (S n) as k eqn:Hk. simpl.
    destruct (0 <? dx - dy + 2 * dy * rx - 2 * dx * ry) eqn:He.
    + apply Z.ltb_lt in He.
      assert (0 < rx) as Hpos by nia.
      replace (dx - dy + 2 * dy * rx - 2 * dx * ry - dy * 2)
        with (dx - dy + 2 * dy * (rx - 1) - 2 * dx * ry) by lia.
      subst k. rewrite last_cons.
      rewrite (IH (rx - 1) ry) by lia.
      do 2 f_equal. lia.
    + apply Z.ltb_ge in He.
      assert (0 < ry) as Hpos by nia.
      replace (dx - dy + 2 * dy * rx - 2 * dx * ry + dx * 2)
        with (dx - dy + 2 * dy * rx - 2 * dx * (ry - 1)) by lia.
      subst k. rewrite last_cons.
      rewrite (IH rx (ry - 1)) by lia.
      do 2 f_equal. lia.
Qed.

Lemma los_walk_head (a b : Coord) : head (los_walk a b) = Some a.
Proof.
  destruct a as [x0 y0], b as [x1 y1]. unfold los_walk.
  replace (Z.to_nat (1 + Z.abs (x1 - x0) + Z.abs (y1 - y0)))
    with (S (Z.to_nat (Z.abs (x1 - x0) + Z.abs (y1 - y0)))) by lia.
  done.
Qed.

Lemma los_walk_last (a b : Coord) : last (los_walk a b) = Some b.
Proof.
  destruct a as [x0 y0], b as [x1 y1]. unfold los_walk.
  set (dx := Z.abs (x1 - x0)). set (dy := Z.abs (y1 - y0)).
  replace (Z.to_nat (1 + dx + dy)) with (S (Z.to_nat (dx + dy))) by lia.
  replace (dx - dy) with (dx - dy + 2 * dy * dx - 2 * dx * dy) by lia.
  rewrite los_visit_last by lia.
  f_equal. f_equal.
  - destruct (x0 <? x1) eqn:Hx; [apply Z.ltb_lt in Hx|apply Z.ltb_ge in Hx]; lia.
  - destruct (y0 <? y1) eqn:Hy; [apply Z.ltb_lt in Hy|apply Z.ltb_ge in Hy]; lia.
Qed.

Lemma length_los_visit (dx2 dy2 x_inc y_inc : Z) (k : nat) (x y e : Z) :
  length (los_visit dx2 dy2 x_inc y_inc k x y e) = k.
Proof.
  revert x y e. induction k as [|k IH]; intros x y e; simpl; [done|].
  destruct (0 <? e); by rewrite IH.
Qed.

Lemma length_los_walk (a b : Coord) :
  Z.of_nat (length (los_walk a b)) = 1 + get_distance a b.
Proof.
  destruct a as [x0 y0], b as [x1 y1]. unfold los_walk, get_distance.
  rewrite length_los_visit. simpl. lia.
Qed.

Lemma has_line_of_sight_total (m : Maze) (a b : Coord) :
  wf_tiles m → is_Some (has_line_of_sight m a b).
Proof.
  intros Hwf. destruct a as [x0 y0], b as [x1 y1].
  unfold has_line_of_sight. by apply los_loop_total.
Qed.

Lemma has_line_of_sight_false_iff (m : Maze) (a b : Coord) :
  wf_tiles m →
  has_line_of_sight m a b = Some false ↔
  ∃ t, t ∈ los_walk a b ∧ t ≠ b ∧ is_traversable m t = Some false.
Proof.
  intros Hwf. destruct a as [x0 y0], b as [x1 y1].
  unfold has_line_of_sight, los_walk. by apply los_loop_false_iff.
Qed.

Lemma has_line_of_sight_self (m : Maze) (a : Coord) :
  wf_tiles m → has_line_of_sight m a a = Some true.
Proof.
  intros Hwf. destruct a as [x y]. unfold has_line_of_sight.
  replace (Z.abs (x - x)) with 0 by lia.
  replace (Z.abs (y - y)) with 0 by lia.
  change (Z.to_nat (1 + 0 + 0)) with 1%nat. cbn [los_loop].
  destruct (is_traversable_total m (x, y) Hwf) as [b ->]. cbn [mbind option_bind].
  rewrite bool_decide_eq_true_2 by done.
  by rewrite andb_false_r.
Qed.

(** C2: on a well-formed grid [has_line_of_sight a b] returns, and it returns
    [False] exactly when a tile of the digital-line walk from [a] to [b] other
    than [b] itself is not traversable.  The walk starts on [a] and ends on
    [b]; the answer does not depend on whether [b] is traversable (two grids
    that agree on every other tile give the same answer); and
    [has_line_of_sight a a] is [True], wall or not. *)
Theorem has_line_of_sight_blocked_iff (m : Maze) (a b : Coord) :
  wf_tiles m →
  is_Some (has_line_of_sight m a b)
  ∧ head (los_walk a b) = Some a ∧ last (los_walk a b) = Some b
  ∧ (has_line_of_sight m a b = Some false ↔
     ∃ t, t ∈ los_walk a b ∧ t ≠ b ∧ is_traversable m t = Some false)
  ∧ (∀ m', wf_tiles m' →
       (∀ t, t ≠ b → is_traversable m' t = is_traversable m t) →
       has_line_of_sight m' a b = has_line_of_sight m a b)
  ∧ has_line_of_sight m a a = Some true.
Proof.
  intros Hwf. split_and!.
  - by apply has_line_of_sight_total.
  - apply los_walk_head.
  - apply los_walk_last.
  - by apply has_line_of_sight_false_iff.
  - intros m' Hwf' Hagree.
    destruct (has_line_of_sight_total m a b Hwf) as [r Hr].
    destruct (has_line_of_sight_total m' a b Hwf') as [r' Hr'].
    assert (r' = false ↔ r = false) as Hiff.
    { rewrite <- (inj_iff Some r' false), <- (inj_iff Some r false).
      rewrite <- Hr, <- Hr'.
      rewrite !has_line_of_sight_false_iff by done.
      split; intros (t & Ht & Hne & Htr); exists t; split_and!; try done.
      - by rewrite <- Hagree.
      - by rewrite Hagree. }
    rewrite Hr, Hr'. f_equal.
    destruct r, r'; try done; [symmetry; by apply Hiff|by apply Hiff].
  - by apply has_line_of_sight_self.
Qed.

(** ** Vision range *)

Lemma StronglySorted_py_range (a b : Z) : StronglySorted Z.lt (py_range a b).
Proof.
  destruct (decide (a ≤ b)) as [Hab|Hab].
  - pattern b. apply (Zlt_lower_bound_ind _ a); [|done].
    clear b Hab. intros b IH Hab.
    destruct (decide (a = b)) as [->|Hne].
    + rewrite py_range_nil by lia. constructor.
    + replace b with ((b - 1) + 1) by lia.
      rewrite py_range_snoc by lia.
      apply StronglySorted_app_2.
      * intros x1 x2 Hx1%elem_of_py_range Hx2%list_elem_of_singleton. lia.
      * apply IH; lia.
      * repeat constructor.
  - rewrite py_range_nil by lia. constructor.
Qed.

Lemma StronglySorted_bind {A B} (Q : relation A) (R : relation B)
    (f : A → list B) (l : list A) :
  StronglySorted Q l →
  (∀ a, a ∈ l → StronglySorted R (f a)) →
  (∀ a a' u v, Q a a' → u ∈ f a → v ∈ f a' → R u v) →
  StronglySorted R (l ≫= f).
Proof.
  intros Hl Hf HQR. induction Hl as [|a l Hl IH Hall].
  - constructor.
  - rewrite bind_cons. apply StronglySorted_app_2.
    + intros u v Hu (a' & Hv & Ha')%list_elem_of_bind.
      rewrite Forall_forall in Hall.
      eapply HQR; [by apply Hall| |]; done.
    + apply Hf. by left.
    + apply IH. intros a' Ha'. apply Hf. by right.
Qed.

Lemma StronglySorted_NoDup {A} (R : relation A) (l : list A) :
  Irreflexive R → StronglySorted R l → NoDup l.
Proof.
  intros Hirr. induction 1 as [|a l _ IH Hall]; constructor; [|done].
  intros Hin. rewrite Forall_forall in Hall.
  by apply (Hirr a), Hall.
Qed.

Global Instance row_major_lt_irreflexive : Irreflexive row_major_lt.
Proof. intros [x y] H. unfold row_major_lt in H. simpl in H. lia. Qed.

Lemma elem_of_vision_cell (m : Maze) (c : Coord) (r dy dx : Z) (t : Coord) :
  t ∈ vision_cell m c r dy dx ↔
  t = (c.1 + dx, c.2 + dy) ∧ in_bounds m t.1 t.2 = true
  ∧ Z.abs dx + Z.abs dy ≤ r ∧ has_line_of_sight m c t = Some true.
Proof.
  unfold vision_cell. cbv zeta. cbn [fst snd].
  destruct (in_bounds m _ _ && _ && _) eqn:Hc.
  - apply andb_true_iff in Hc as [Hc Hl].
    apply andb_true_iff in Hc as [Hb Hd].
    apply Z.leb_le in Hd. apply bool_decide_eq_true in Hl.
    rewrite list_elem_of_singleton.
    split; [intros ->; by split_and!|by intros (-> & _)].
  - split; [by intros ?%elem_of_nil|].
    intros (-> & Hb & Hd & Hl).
    apply Z.leb_le in Hd. cbn [fst snd] in Hb.
    rewrite Hb, Hd, bool_decide_eq_true_2 in Hc; done.
Qed.

(** The result of [get_tiles_in_vision_range] from an in-bounds center, as
    the two nested loops build it. *)
Lemma get_tiles_in_vision_range_eq (m : Maze) (c : Coord) (r : Z) :
  wf_tiles m → in_bounds m c.1 c.2 = true →
  get_tiles_in_vision_range m (Some c) r =
  Some (py_range (- r) (r + 1) ≫= λ dy,
        py_range (- r) (r + 1) ≫= λ dx, vision_cell m c r dy dx).
Proof.
  intros Hwf Hb. destruct c as [x y]. simpl in Hb.
  unfold get_tiles_in_vision_range. rewrite Hb. cbn [negb].
  rewrite (for_each_append _ _
             (λ dy, py_range (- r) (r + 1) ≫= λ dx, vision_cell m (x, y) r dy dx));
    [done|].
  intros dy s _.
  apply for_each_append. intros dx s' _.
  unfold vision_cell. cbn [fst snd].
  destruct (in_bounds m (x + dx) (y + dy)); cbn [negb andb];
    [|by rewrite app_nil_r].
  destruct (Z.abs dx + Z.abs dy <=? r); cbn [andb]; [|by rewrite app_nil_r].
  destruct (has_line_of_sight_total m (x, y) (x + dx, y + dy) Hwf) as [los Hlos].
  rewrite Hlos. cbn [mbind option_bind].
  destruct los.
  - by rewrite bool_decide_eq_true_2.
  - rewrite bool_decide_eq_false_2 by done. by rewrite app_nil_r.
Qed.

(** C1: on a well-formed grid and for a radius [r >= 0],
    [get_tiles_in_vision_range] from an in-bounds center returns a list that
    holds a tile exactly when the tile is in bounds, within Manhattan distance
    [r] of the center and in line of sight from it; the list has no duplicates
    and is in row-major order (by [y], that is by [dy], then by [x]).  From an
    unset or out-of-bounds center the result is the empty list. *)
Theorem get_tiles_in_vision_range_spec (m : Maze) (center : option Coord)
    (r : Z) :
  wf_tiles m → 0 ≤ r →
  match center with
  | None => get_tiles_in_vision_range m None r = Some []
  | Some c =>
      if in_bounds m c.1 c.2 then
        ∃ vis, get_tiles_in_vision_range m (Some c) r = Some vis
          ∧ (∀ t, t ∈ vis ↔
                  in_bounds m t.1 t.2 = true ∧ get_distance c t ≤ r
                  ∧ has_line_of_sight m c t = Some true)
          ∧ NoDup vis
          ∧ StronglySorted row_major_lt vis
      else get_tiles_in_vision_range m (Some c) r = Some []
  end.
Proof.
  intros Hwf Hr. destruct center as [c|]; [|done].
  destruct (in_bounds m c.1 c.2) eqn:Hb.
  2: { destruct c as [x y]. simpl in Hb.
       unfold get_tiles_in_vision_range. by rewrite Hb. }
  eexists. split; [by apply get_tiles_in_vision_range_eq|].
  assert (StronglySorted row_major_lt
            (py_range (- r) (r + 1) ≫= λ dy,
             py_range (- r) (r + 1) ≫= λ dx, vision_cell m c r dy dx))
    as Hsorted.
  { apply (StronglySorted_bind Z.lt); [apply StronglySorted_py_range| |].
    - intros dy _. apply (StronglySorted_bind Z.lt);
        [apply StronglySorted_py_range| |].
      + intros dx _. unfold vision_cell. destruct (_ && _ && _); repeat constructor.
      + intros dx dx' u v Hlt (-> & _)%elem_of_vision_cell
          (-> & _)%elem_of_vision_cell.
        right. simpl. lia.
    - intros dy dy' u v Hlt (dx & (-> & _)%elem_of_vision_cell & _)%list_elem_of_bind
        (dx' & (-> & _)%elem_of_vision_cell & _)%list_elem_of_bind.
      left. simpl. lia. }
  split_and!; [|by apply (StronglySorted_NoDup row_major_lt _ _)|done].
  intros t. rewrite list_elem_of_bind. split.
  - intros (dy & (dx & (-> & Hin & Hd & Hl)%elem_of_vision_cell & _)%list_elem_of_bind & _).
    split_and!; [done| |done].
    unfold get_distance. simpl.
    replace (c.1 + dx - c.1) with dx by lia.
    replace (c.2 + dy - c.2) with dy by lia. done.
  - intros (Hin & Hd & Hl). unfold get_distance in Hd.
    exists (t.2 - c.2). split; [|apply elem_of_py_range; lia].
    apply list_elem_of_bind.
    exists (t.1 - c.1). split; [|apply elem_of_py_range; lia].
    apply elem_of_vision_cell. split_and!; [|done|done|done].
    destruct t as [tx ty]. simpl. f_equal; lia.
Qed.

(** ** Event index *)

Lemma event_set_tile_at (m : Maze) (c : Coord) (t : Tile) :
  tile_at m c = Some t → event_set m c = tile_events t.
Proof. unfold event_set. by intros ->. Qed.

Lemma tile_at_in_bounds (m : Maze) (x y : Z) :
  in_bounds m x y = true → tile_at m (x, y) = get_tile m x y.
Proof. unfold tile_at. simpl. by intros ->. Qed.

Lemma tile_at_out_of_bounds (m : Maze) (x y : Z) :
  in_bounds m x y = false → tile_at m (x, y) = None.
Proof. unfold tile_at. simpl. by intros ->. Qed.

(** Writing a tile at an in-bounds coordinate succeeds, keeps the grid
    well formed, and changes that tile only. *)
Lemma set_tile_spec (m : Maze) (x y : Z) (t : Tile) :
  wf_tiles m → in_bounds m x y = true →
  ∃ m', set_tile m x y t = Some m' ∧ wf_tiles m'
        ∧ tile_at m' (x, y) = Some t ∧ same_grid_except m m' (x, y).
Proof.
  intros Hwf Hb. pose proof Hb as [Hx Hy]%in_bounds_spec.
  destruct (grid_shape_lookup _ _ _ x y Hwf Hx Hy) as (row & t0 & Hrow & Ht0 & Hlen).
  destruct Hwf as [Hh Hrows].
  unfold set_tile. rewrite py_index_nonneg, Hrow by lia. cbn [mbind option_bind].
  rewrite py_setitem_nonneg by lia. cbn [mbind option_bind].
  rewrite py_setitem_nonneg by lia. cbn [mbind option_bind].
  eexists. split; [done|].
  set (m' := mkMaze _ _ _ _).
  assert (∀ x' y', in_bounds m' x' y' = in_bounds m x' y') as Hbounds by done.
  split_and!.
  - split; simpl.
    + by rewrite length_insert.
    + apply Forall_insert; [done|]. by rewrite length_insert.
  - unfold tile_at. cbn [fst snd]. rewrite Hbounds, Hb.
    rewrite get_tile_lookup by lia. simpl.
    rewrite list_lookup_insert_eq by lia. simpl.
    apply list_lookup_insert_eq. lia.
  - split_and!; try done.
    intros [x' y'] Hne. unfold tile_at. cbn [fst snd]. rewrite Hbounds.
    destruct (in_bounds m x' y') eqn:Hb'; [|done].
    apply in_bounds_spec in Hb' as [Hx' Hy'].
    rewrite !get_tile_lookup by lia. simpl.
    destruct (decide (Z.to_nat y' = Z.to_nat y)) as [Heq|Hney].
    + rewrite Heq, list_lookup_insert_eq, Hrow by lia. simpl.
      apply list_lookup_insert_ne.
      intros Heqx. apply Hne. f_equal; lia.
    + by rewrite list_lookup_insert_ne.
Qed.

(** Replacing the event set of an in-bounds tile by [f] of it. *)
Lemma update_events_spec (m : Maze) (x y : Z) (f : gset Event → gset Event) :
  wf_tiles m → in_bounds m x y = true →
  ∃ t m', get_tile m x y = Some t
          ∧ set_tile m x y (set_events t (f (tile_events t))) = Some m'
          ∧ wf_tiles m'
          ∧ tile_at m (x, y) = Some t
          ∧ tile_at m' (x, y) = Some (set_events t (f (tile_events t)))
          ∧ event_set m' (x, y) = f (event_set m (x, y))
          ∧ same_grid_except m m' (x, y).
Proof.
  intros Hwf Hb.
  destruct (get_tile_in_bounds m x y Hwf Hb) as [t Ht].
  destruct (set_tile_spec m x y (set_events t (f (tile_events t))) Hwf Hb)
    as (m' & Hset & Hwf' & Hat & Hframe).
  exists t, m'. split_and!; try done.
  - by rewrite tile_at_in_bounds.
  - rewrite (event_set_tile_at _ _ _ Hat).
    rewrite (event_set_tile_at m (x, y) t); [done|].
    by rewrite tile_at_in_bounds.
Qed.

(** Writing back the tile that is already there changes nothing. *)
Lemma set_tile_same (m : Maze) (x y : Z) (t : Tile) :
  wf_tiles m → in_bounds m x y = true → get_tile m x y = Some t →
  set_tile m x y t = Some m.
Proof.
  intros Hwf Hb Ht. pose proof Hb as [Hx Hy]%in_bounds_spec.
  destruct (grid_shape_lookup _ _ _ x y Hwf Hx Hy) as (row & t0 & Hrow & Ht0 & Hlen).
  rewrite get_tile_lookup, Hrow in Ht by lia. simpl in Ht.
  destruct Hwf as [Hh Hrows].
  unfold set_tile. rewrite py_index_nonneg, Hrow by lia. cbn [mbind option_bind].
  rewrite py_setitem_nonneg by lia. cbn [mbind option_bind].
  rewrite py_setitem_nonneg by lia. cbn [mbind option_bind].
  rewrite (list_insert_id row) by done.
  rewrite list_insert_id by done.
  by destruct m.
Qed.

Lemma set_events_same (t : Tile) : set_events t (tile_events t) = t.
Proof. by destruct t. Qed.

Lemma grid_ext (m m' : Maze) :
  wf_tiles m → wf_tiles m' →
  width m' = width m → height m' = height m → layout m' = layout m →
  (∀ c, tile_at m' c = tile_at m c) → m' = m.
Proof.
  intros [Hh Hrows] [Hh' Hrows'] Hw Hhe Hl Hat.
  destruct m as [w h lay ts], m' as [w' h' lay' ts']. simpl in *. subst.
  f_equal. apply list_eq. intros i.
  destruct (decide (i < Z.to_nat h)%nat) as [Hi|Hi].
  2: { rewrite !lookup_ge_None_2; [done|lia|lia]. }
  destruct (lookup_lt_is_Some_2 ts i) as [row Hrow]; [lia|].
  destruct (lookup_lt_is_Some_2 ts' i) as [row' Hrow']; [lia|].
  rewrite Hrow, Hrow'. f_equal.
  rewrite Forall_forall in Hrows, Hrows'.
  pose proof (Hrows _ (list_elem_of_lookup_2 _ _ _ Hrow)) as Hlen.
  pose proof (Hrows' _ (list_elem_of_lookup_2 _ _ _ Hrow')) as Hlen'.
  apply list_eq. intros j.
  destruct (decide (j < Z.to_nat w)%nat) as [Hj|Hj].
  2: { rewrite !lookup_ge_None_2; [done|lia|lia]. }
  specialize (Hat (Z.of_nat j, Z.of_nat i)).
  unfold tile_at, in_bounds in Hat. simpl in Hat.
  assert ((0 <=? Z.of_nat j) && (Z.of_nat j <? w) && (0 <=? Z.of_nat i)
          && (Z.of_nat i <? h) = true) as Hin.
  { rewrite !andb_true_iff. lia. }
  rewrite Hin in Hat.
  rewrite !get_tile_lookup in Hat by lia. simpl in Hat.
  by rewrite !Nat2Z.id, Hrow, Hrow' in Hat.
Qed.

Lemma matches_event_spec (pat : list string) (e : Event) :
  matches_event pat e = true ↔
  ∃ ex, e = EvTuple ex
        ∧ take (length pat `min` length ex) pat
          = take (length pat `min` length ex) ex.
Proof.
  destruct e as [ex|s]; simpl.
  - unfold prefix_match. rewrite bool_decide_eq_true. split.
    + intros H. by exists ex.
    + by intros (ex' & [= <-] & H).
  - split; [done|]. by intros (ex & ? & _).
Qed.

Lemma events_after_remove_present (e : Event) (evs : gset Event) :
  e ∈ evs → events_after_remove e evs = evs ∖ {[e]}.
Proof. intros H. unfold events_after_remove. by rewrite decide_True. Qed.

Lemma events_after_remove_absent (pat : list string) (evs : gset Event) :
  EvTuple pat ∉ evs →
  ∀ e, e ∈ events_after_remove (EvTuple pat) evs ↔
       e ∈ evs ∧ matches_event pat e = false.
Proof.
  intros H e. unfold events_after_remove. rewrite decide_False by done.
  cbv zeta. rewrite elem_of_difference, elem_of_filter.
  destruct (matches_event pat e); simpl; intuition congruence.
Qed.

Lemma same_tile_except_events_set (t : Tile) (evs : gset Event) :
  same_tile_except_events t (set_events t evs).
Proof. by repeat split. Qed.

(** [remove_event_from_tile] on a well-formed grid: it returns; out of bounds
    it leaves the grid as it is; in bounds it rewrites the event set of the
    addressed tile and nothing else. *)
Lemma remove_event_from_tile_spec (m : Maze) (e : Event) (c : Coord) :
  wf_tiles m →
  ∃ m', remove_event_from_tile m e c = Some m' ∧ wf_tiles m'
    ∧ if in_bounds m c.1 c.2 then
        event_set m' c = events_after_remove e (event_set m c)
        ∧ same_grid_except m m' c
        ∧ ∃ t t', tile_at m c = Some t ∧ tile_at m' c = Some t'
                  ∧ same_tile_except_events t t'
      else m' = m.
Proof.
  intros Hwf. destruct c as [x y]. unfold remove_event_from_tile.
  cbn [fst snd]. destruct (in_bounds m x y) eqn:Hb; cbn [negb]; [|eauto].
  destruct (update_events_spec m x y (events_after_remove e) Hwf Hb)
    as (t & m' & Ht & Hset & Hwf' & Hat & Hat' & Hev & Hframe).
  rewrite Ht. cbn [mbind option_bind]. rewrite Hset.
  exists m'. split_and!; try done.
  exists t, (set_events t (events_after_remove e (tile_events t))).
  split_and!; done.
Qed.

(** [add_event] on a well-formed grid. *)
Lemma add_event_spec (m : Maze) (c : Coord) (e : Event) :
  wf_tiles m →
  ∃ m', add_event m c e = Some m' ∧ wf_tiles m'
    ∧ if in_bounds m c.1 c.2 then
        event_set m' c = {[e]} ∪ event_set m c
        ∧ same_grid_except m m' c
        ∧ ∃ t t', tile_at m c = Some t ∧ tile_at m' c = Some t'
                  ∧ same_tile_except_events t t'
      else m' = m.
Proof.
  intros Hwf. destruct c as [x y]. unfold add_event.
  cbn [fst snd]. destruct (in_bounds m x y) eqn:Hb; [|eauto].
  destruct (update_events_spec m x y (λ evs, {[e]} ∪ evs) Hwf Hb)
    as (t & m' & Ht & Hset & Hwf' & Hat & Hat' & Hev & Hframe).
  rewrite Ht. cbn [mbind option_bind]. unfold add_to_tile. rewrite Hset.
  exists m'. split_and!; try done.
  exists t, (set_events t ({[e]} ∪ tile_events t)).
  split_and!; done.
Qed.

(** Adding an event that the tile already holds changes nothing. *)
Lemma add_event_idempotent (m : Maze) (c : Coord) (e : Event) :
  wf_tiles m → e ∈ event_set m c → add_event m c e = Some m.
Proof.
  intros Hwf He. destruct c as [x y]. unfold add_event.
  destruct (in_bounds m x y) eqn:Hb; [|done].
  destruct (get_tile_in_bounds m x y Hwf Hb) as [t Ht].
  rewrite Ht. cbn [mbind option_bind].
  rewrite (event_set_tile_at m (x, y) t) in He
    by (by rewrite tile_at_in_bounds).
  unfold add_to_tile.
  replace ({[e]} ∪ tile_events t) with (tile_events t) by set_solver.
  rewrite set_events_same. by apply set_tile_same.
Qed.

(** C5, as amended: on a well-formed grid, removing with a tuple pattern of
    length 1 to 3 that is not itself stored on the addressed tile returns; in
    bounds, the tile is left with exactly the events it held that are not a
    tuple agreeing with the pattern on the first
    [min(len(pattern), len(existing))] components, and no other tile, nor the
    dimensions or the layout, changes; out of bounds the grid is left as it
    is.  On the events ("Bob","eating","apple",""), ("Bob","walking","","")
    and ("Alice","eating","apple","") the pattern ("Bob",) leaves the third
    only. *)
Theorem remove_event_from_tile_pattern (m : Maze) (c : Coord)
    (pat : list string) :
  wf_tiles m → (1 ≤ length pat ≤ 3)%nat → EvTuple pat ∉ event_set m c →
  (∃ m', remove_event_from_tile m (EvTuple pat) c = Some m'
     ∧ if in_bounds m c.1 c.2 then
         (∀ e, e ∈ event_set m' c ↔
               e ∈ event_set m c
               ∧ ¬ ∃ ex, e = EvTuple ex
                         ∧ take (length pat `min` length ex) pat
                           = take (length pat `min` length ex) ex)
         ∧ same_grid_except m m' c
       else m' = m)
  ∧ events_after_remove (EvTuple ["Bob"])
      {[ EvTuple ["Bob"; "eating"; "apple"; ""];
         EvTuple ["Bob"; "walking"; ""; ""];
         EvTuple ["Alice"; "eating"; "apple"; ""] ]}
    = {[ EvTuple ["Alice"; "eating"; "apple"; ""] ]}.
Proof.
  intros Hwf Hlen Habs. split; [|by_evaluation].
  destruct (remove_event_from_tile_spec m (EvTuple pat) c Hwf)
    as (m' & Hrm & _ & Hcase).
  exists m'. split; [done|].
  destruct (in_bounds m c.1 c.2); [|done].
  destruct Hcase as (Hev & Hframe & _). split; [|done].
  intros e. rewrite Hev, events_after_remove_absent by done.
  rewrite <- matches_event_spec.
  destruct (matches_event pat e); intuition congruence.
Qed.

(** A removal whose argument is not stored on the tile, whatever its kind. *)
Lemma events_after_remove_other (s : string) (evs : gset Event) :
  EvOther s ∉ evs → events_after_remove (EvOther s) evs = evs.
Proof. intros H. unfold events_after_remove. by rewrite decide_False. Qed.

(** C6, as amended: on a well-formed grid, adding an event to an in-bounds
    tile and then removing the same event both return and leave the tile with
    the events it held before the add, less that event.  So when the event
    was not stored before the add, the round trip gives back the event set
    (and indeed the whole grid) as it was; when it was stored, the add changes
    nothing (it is idempotent) and the removal then takes the event away. *)
Theorem add_then_remove_event (m : Maze) (c : Coord) (e : Event) :
  wf_tiles m → in_bounds m c.1 c.2 = true →
  ∃ m1 m2, add_event m c e = Some m1
    ∧ remove_event_from_tile m1 e c = Some m2
    ∧ event_set m2 c = event_set m c ∖ {[e]}
    ∧ (e ∉ event_set m c → event_set m2 c = event_set m c ∧ m2 = m)
    ∧ (e ∈ event_set m c → m1 = m).
Proof.
  intros Hwf Hb.
  destruct (add_event_spec m c e Hwf) as (m1 & Hadd & Hwf1 & Hcase1).
  destruct (remove_event_from_tile_spec m1 e c Hwf1) as (m2 & Hrm & Hwf2 & Hcase2).
  rewrite Hb in Hcase1.
  destruct Hcase1 as (Hev1 & (Hw1 & Hh1 & Hl1 & Hfr1) & t & t1 & Ht & Ht1 & Hsame1).
  assert (in_bounds m1 c.1 c.2 = true) as Hb1.
  { unfold in_bounds in *. by rewrite Hw1, Hh1. }
  rewrite Hb1 in Hcase2.
  destruct Hcase2 as (Hev2 & (Hw2 & Hh2 & Hl2 & Hfr2) & t1' & t2 & Ht1' & Ht2 & Hsame2).
  assert (event_set m2 c = event_set m c ∖ {[e]}) as Hev.
  { rewrite Hev2, Hev1, events_after_remove_present by set_solver. set_solver. }
  exists m1, m2. split_and!; try done.
  - intros Hne. split; [rewrite Hev; set_solver|].
    apply grid_ext; try done; try congruence.
    intros c'. destruct (decide (c' = c)) as [->|Hc'].
    + rewrite Ht2, Ht. f_equal.
      rewrite Ht1 in Ht1'. injection Ht1' as <-.
      assert (tile_events t2 = tile_events t) as Hevt.
      { rewrite <- (event_set_tile_at _ _ _ Ht2), <- (event_set_tile_at _ _ _ Ht).
        rewrite Hev. set_solver. }
      destruct Hsame1 as (? & ? & ? & ? & ?), Hsame2 as (? & ? & ? & ? & ?).
      destruct t, t2. simpl in *. congruence.
    + by rewrite Hfr2, Hfr1.
  - intros Hin. rewrite add_event_idempotent in Hadd by done. congruence.
Qed.

(** C10: on a well-formed grid, removing a full 4-tuple that is not stored
    verbatim on an in-bounds tile returns and leaves the tile with exactly the
    events it held that are not a tuple agreeing with the argument on the
    first [min(len(event), len(existing))] components: the prefix removal
    applies to full 4-tuples too.  The set can change: removing
    ("Bob","eating","apple","") from a tile that holds only ("Bob","eating")
    empties it. *)
Theorem remove_event_from_tile_full_tuple_absent (m : Maze) (c : Coord)
    (ev : list string) :
  wf_tiles m → in_bounds m c.1 c.2 = true → length ev = 4%nat →
  EvTuple ev ∉ event_set m c →
  (∃ m', remove_event_from_tile m (EvTuple ev) c = Some m'
     ∧ ∀ e, e ∈ event_set m' c ↔
            e ∈ event_set m c
            ∧ ¬ ∃ ex, e = EvTuple ex
                      ∧ take (length ev `min` length ex) ev
                        = take (length ev `min` length ex) ex)
  ∧ events_after_remove (EvTuple ["Bob"; "eating"; "apple"; ""])
      {[ EvTuple ["Bob"; "eating"] ]} = ∅.
Proof.
  intros Hwf Hb Hlen Habs. split; [|by_evaluation].
  destruct (remove_event_from_tile_spec m (EvTuple ev) c Hwf)
    as (m' & Hrm & _ & Hcase).
  exists m'. split; [done|].
  rewrite Hb in Hcase. destruct Hcase as (Hev & _).
  intros e. rewrite Hev, events_after_remove_absent by done.
  rewrite <- matches_event_spec.
  destruct (matches_event ev e); intuition congruence.
Qed.

(** ** Loops over ranges and grids *)

(** A loop whose body never raises and appends one item per iteration. *)
Lemma for_each_map {A B} (xs : list A) (body : A → list B → option (list B))
    (g : A → B) (s : list B) :
  (∀ x s', x ∈ xs → body x s' = Some (s' ++ [g x])) →
  for_each xs body s = Some (s ++ (g <$> xs)).
Proof.
  intros Hbody. rewrite (for_each_append xs body (λ x, [g x])) by done.
  assert (xs ≫= (λ x, [g x]) = g <$> xs) as ->; [|done].
  clear Hbody. induction xs as [|x xs IH]; [done|].
  rewrite bind_cons, fmap_cons. simpl. by f_equal.
Qed.

(** Hoare-style rule for [for k in range(a, n)]: an invariant that holds
    before the loop and that every iteration carries from [k] to [k + 1]
    holds at [n] when the loop ends, and the loop does not raise. *)
Lemma for_each_range_inv {S} (I : Z → S → Prop) (a n : Z)
    (body : Z → S → option S) (s : S) :
  a ≤ n → I a s →
  (∀ k s0, a ≤ k < n → I k s0 → ∃ s1, body k s0 = Some s1 ∧ I (k + 1) s1) →
  ∃ s', for_each (py_range a n) body s = Some s' ∧ I n s'.
Proof.
  intros Han. remember (Z.to_nat (n - a)) as d eqn:Hd.
  revert a s Han Hd. induction d as [|d IH]; intros a s Han Hd Hinit Hstep.
  - assert (a = n) as -> by lia. rewrite py_range_nil by lia. simpl. eauto.
  - rewrite py_range_cons by lia. simpl.
    destruct (Hstep a s) as (s1 & -> & Hs1); [lia|done|]. simpl.
    apply IH; [lia|lia|done|].
    intros k s0 Hk. apply Hstep. lia.
Qed.

Lemma py_range_max (n : Z) : py_range 0 n = py_range 0 (Z.max 0 n).
Proof.
  destruct (decide (0 ≤ n)); [by rewrite Z.max_r|].
  rewrite Z.max_l by lia. by rewrite !py_range_nil by lia.
Qed.

Lemma grid_shape_map_range {A} (h w : Z) (f : Z → Z → A) :
  grid_shape h w ((λ y, (λ x, f x y) <$> py_range 0 w) <$> py_range 0 h).
Proof.
  split.
  - rewrite length_fmap, length_py_range. f_equal. lia.
  - apply Forall_fmap, Forall_forall. intros y _. simpl.
    rewrite length_fmap, length_py_range. f_equal. lia.
Qed.

Lemma grid_get_map_range {A} (h w : Z) (f : Z → Z → A) (x y : Z) :
  0 ≤ x < w → 0 ≤ y < h →
  grid_get ((λ y, (λ x, f x y) <$> py_range 0 w) <$> py_range 0 h) x y
  = Some (f x y).
Proof.
  intros Hx Hy. rewrite grid_get_lookup by lia.
  rewrite list_lookup_fmap, lookup_py_range by lia. simpl.
  rewrite list_lookup_fmap, lookup_py_range by lia. simpl.
  do 2 f_equal; lia.
Qed.

(** Reading a grid after [g[y][x] = v]. *)
Lemma grid_get_set {A} (g : list (list A)) (row : list A) (x y : Z) (v : A)
    (x' y' : Z) :
  0 ≤ x → 0 ≤ y → 0 ≤ x' → 0 ≤ y' →
  g !! Z.to_nat y = Some row → x < Z.of_nat (length row) →
  grid_get (<[Z.to_nat y := <[Z.to_nat x := v]> row]> g) x' y'
  = if decide (y' = y ∧ x' = x) then Some v else grid_get g x' y'.
Proof.
  intros Hx Hy Hx' Hy' Hrow Hlen.
  pose proof (lookup_lt_Some _ _ _ Hrow) as Hylt.
  rewrite !grid_get_lookup by lia.
  destruct (decide (y' = y)) as [->|Hney].
  - rewrite list_lookup_insert_eq, Hrow by done. simpl.
    destruct (decide (x' = x)) as [->|Hnex].
    + rewrite decide_True by done. apply list_lookup_insert_eq. lia.
    + rewrite decide_False by tauto. apply list_lookup_insert_ne. lia.
  - rewrite decide_False by tauto. rewrite list_lookup_insert_ne by lia. done.
Qed.

Lemma grid_shape_set {A} (h w : Z) (g : list (list A)) (row : list A)
    (i j : nat) (v : A) :
  grid_shape h w g → g !! i = Some row →
  grid_shape h w (<[i := <[j := v]> row]> g).
Proof.
  intros [Hh Hrows] Hrow. split.
  - by rewrite length_insert.
  - apply Forall_insert; [done|]. rewrite length_insert.
    rewrite Forall_forall in Hrows. apply Hrows.
    by eapply list_elem_of_lookup_2.
Qed.

(** Two grids of the same shape that read alike are equal. *)
Lemma grid_eq {A} (h w : Z) (g g' : list (list A)) :
  grid_shape h w g → grid_shape h w g' →
  (∀ x y, 0 ≤ x < w → 0 ≤ y < h → grid_get g' x y = grid_get g x y) →
  g' = g.
Proof.
  intros [Hh Hrows] [Hh' Hrows'] Hget.
  apply list_eq. intros i.
  destruct (decide (i < Z.to_nat h)%nat) as [Hi|Hi].
  2: { rewrite !lookup_ge_None_2; [done|lia|lia]. }
  destruct (lookup_lt_is_Some_2 g i) as [row Hrow]; [lia|].
  destruct (lookup_lt_is_Some_2 g' i) as [row' Hrow']; [lia|].
  rewrite Hrow, Hrow'. f_equal.
  rewrite Forall_forall in Hrows, Hrows'.
  pose proof (Hrows _ (list_elem_of_lookup_2 _ _ _ Hrow)) as Hlen.
  pose proof (Hrows' _ (list_elem_of_lookup_2 _ _ _ Hrow')) as Hlen'.
  apply list_eq. intros j.
  destruct (decide (j < Z.to_nat w)%nat) as [Hj|Hj].
  2: { rewrite !lookup_ge_None_2; [done|lia|lia]. }
  specialize (Hget (Z.of_nat j) (Z.of_nat i)).
  rewrite !grid_get_lookup in Hget by lia.
  rewrite !Nat2Z.id, Hrow, Hrow' in Hget. simpl in Hget.
  apply Hget; lia.
Qed.

(** ** Expansion *)

(** The layout loops of [_expand_maze]: they do not raise on a layout that
    has every cell they read, and copy the old values over a grid of zeros. *)
Lemma expand_layout_loop (old : list (list Z)) (h w nw nh : Z) :
  (∀ x y, 0 ≤ x < w → 0 ≤ y < h → is_Some (grid_get old x y)) →
  ∃ lay',
    for_each (py_range 0 (Z.min h nh))
      (λ y lay,
        for_each (py_range 0 (Z.min w nw))
          (λ x lay,
            orow ← py_index old y;
            v ← py_index orow x;
            row ← py_index lay y;
            row' ← py_setitem row x v;
            py_setitem lay y row')
          lay)
      (_generate_default_layout nw nh) = Some lay'
    ∧ grid_shape nh nw lay'
    ∧ ∀ x y, 0 ≤ x → 0 ≤ y →
        grid_get lay' x y =
        if decide (y < Z.min h nh ∧ x < Z.min w nw) then grid_get old x y
        else grid_get (_generate_default_layout nw nh) x y.
Proof.
  intros Hold.
  set (zeros := _generate_default_layout nw nh).
  set (H := Z.min h nh). set (W := Z.min w nw).
  rewrite (py_range_max H).
  set (I := λ (k : Z) (lay : list (list Z)),
         grid_shape nh nw lay
         ∧ ∀ x y, 0 ≤ x → 0 ≤ y →
             grid_get lay x y =
             if decide (y < k ∧ x < W) then grid_get old x y
             else grid_get zeros x y).
  match goal with
  | |- ∃ lay', for_each ?xs ?body ?s = Some lay' ∧ _ =>
      assert (∃ lay', for_each xs body s = Some lay' ∧ I (Z.max 0 H) lay')
        as (lay' & Hrun & Hshape & Hget)
  end.
  { apply for_each_range_inv; [lia| |].
    - split; [apply grid_shape_map_range|].
      intros x y Hx Hy. by rewrite decide_False by lia.
    - intros y lay0 Hy [Hshape0 Hget0].
      rewrite (py_range_max W).
      set (J := λ (k : Z) (lay : list (list Z)),
             grid_shape nh nw lay
             ∧ ∀ x' y', 0 ≤ x' → 0 ≤ y' →
                 grid_get lay x' y' =
                 if decide (y' = y ∧ x' < k) then grid_get old x' y'
                 else grid_get lay0 x' y').
      match goal with
      | |- ∃ s1, for_each ?xs ?body ?s = Some s1 ∧ _ =>
          assert (∃ s1, for_each xs body s = Some s1 ∧ J (Z.max 0 W) s1)
            as (lay1 & Hrun1 & Hshape1 & Hget1)
      end.
      { apply for_each_range_inv; [lia| |].
        - split; [done|]. intros x' y' Hx' Hy'. by rewrite decide_False by lia.
        - intros x lay Hx [Hsh Hg].
          destruct (Hold x y) as [v Hv]; [lia|lia|].
          rewrite grid_get_lookup in Hv by lia.
          destruct (old !! Z.to_nat y) as [orow|] eqn:Horow; [|done].
          cbn [mbind option_bind] in Hv.
          destruct (grid_shape_lookup nh nw lay x y Hsh)
            as (row & v0 & Hrow & _ & Hlen); [lia|lia|].
          rewrite (py_index_nonneg old y), Horow by lia. cbn [mbind option_bind].
          rewrite (py_index_nonneg orow x), Hv by lia. cbn [mbind option_bind].
          rewrite (py_index_nonneg lay y), Hrow by lia. cbn [mbind option_bind].
          rewrite (py_setitem_nonneg row x) by lia. cbn [mbind option_bind].
          rewrite (py_setitem_nonneg lay y) by (destruct Hsh; lia).
          eexists. split; [done|]. split; [by apply grid_shape_set|].
          intros x' y' Hx' Hy'.
          rewrite grid_get_set by (done || lia).
          rewrite Hg by done.
          assert (grid_get old x y = Some v) as Hold_v.
          { rewrite grid_get_lookup, Horow by lia. done. }
          repeat case_decide; try done; try lia.
          destruct_and!. by subst. }
      exists lay1. split; [done|]. split; [done|].
      intros x' y' Hx' Hy'. rewrite Hget1, Hget0 by done.
      repeat case_decide; try done; lia. }
  exists lay'. split; [done|]. split; [done|].
  intros x y Hx Hy. rewrite Hget by done.
  repeat case_decide; try done; lia.
Qed.

(** The tile loops of [_expand_maze]: old tiles are carried over, the others
    are fresh traversable tiles. *)
Lemma expand_tiles_loop (m : Maze) (nw nh : Z) :
  wf_tiles m →
  for_each (py_range 0 nh)
    (λ y acc,
      row ← for_each (py_range 0 nw)
              (λ x row,
                if (y <? height m) && (x <? width m) then
                  orow ← py_index (tiles m) y;
                  t ← py_index orow x;
                  Some (row ++ [t])
                else Some (row ++ [new_tile x y "traversable"]))
              [];
      Some (acc ++ [row]))
    []
  = Some ((λ y, (λ x, if (y <? height m) && (x <? width m)
                      then default (new_tile x y "traversable") (get_tile m x y)
                      else new_tile x y "traversable")
                <$> py_range 0 nw) <$> py_range 0 nh).
Proof.
  intros Hwf.
  rewrite (for_each_map _ _
    (λ y, (λ x, if (y <? height m) && (x <? width m)
                then default (new_tile x y "traversable") (get_tile m x y)
                else new_tile x y "traversable") <$> py_range 0 nw));
    [done|].
  intros y acc Hy%elem_of_py_range.
  rewrite (for_each_map _ _
    (λ x, if (y <? height m) && (x <? width m)
          then default (new_tile x y "traversable") (get_tile m x y)
          else new_tile x y "traversable")); [done|].
  intros x row Hx%elem_of_py_range.
  destruct ((y <? height m) && (x <? width m)) eqn:Hc; [|done].
  apply andb_true_iff in Hc as [Hyh Hxw].
  apply Z.ltb_lt in Hyh, Hxw.
  destruct (grid_shape_lookup _ _ _ x y Hwf) as (orow & t & Horow & Ht & _);
    [lia|lia|].
  rewrite (py_index_nonneg (tiles m) y), Horow by lia. cbn [mbind option_bind].
  rewrite (py_index_nonneg orow x), Ht by lia. cbn [mbind option_bind].
  rewrite get_tile_lookup, Horow by lia. simpl. by rewrite Ht.
Qed.

Lemma grid_get_default_layout (w h x y : Z) :
  0 ≤ x < w → 0 ≤ y < h →
  grid_get (_generate_default_layout w h) x y = Some 0.
Proof. intros. unfold _generate_default_layout. by rewrite grid_get_map_range. Qed.

Lemma wf_layout_covers (m : Maze) : wf_layout m → layout_covers m.
Proof.
  intros Hlay x y Hx Hy.
  destruct (grid_shape_lookup _ _ _ x y Hlay) as (row & v & Hrow & Hv & _);
    [done|done|].
  exists v. rewrite grid_get_lookup, Hrow by lia. done.
Qed.

(** [_expand_maze] on a well-formed grid: it returns a well-formed grid of
    the requested dimensions, whose tiles and layout values are the old ones
    where both the old and the new grid have the coordinate, and fresh
    ones elsewhere. *)
Lemma _expand_maze_spec (m : Maze) (nw nh : Z) :
  wf_tiles m → layout_covers m →
  ∃ m', _expand_maze m nw nh = Some m'
    ∧ width m' = nw ∧ height m' = nh ∧ wf_tiles m' ∧ wf_layout m'
    ∧ ∀ x y, 0 ≤ x < nw → 0 ≤ y < nh →
        get_tile m' x y
        = (if (y <? height m) && (x <? width m) then get_tile m x y
           else Some (new_tile x y "traversable"))
        ∧ grid_get (layout m') x y
          = (if decide (y < Z.min (height m) nh ∧ x < Z.min (width m) nw)
             then grid_get (layout m) x y else Some 0).
Proof.
  intros Hwf Hlay.
  destruct (expand_layout_loop (layout m) (height m) (width m) nw nh Hlay)
    as (lay' & Hrun & Hshape & Hget).
  unfold _expand_maze. cbv zeta. rewrite Hrun. cbn [mbind option_bind].
  rewrite expand_tiles_loop by done. cbn [mbind option_bind].
  eexists. split; [done|]. cbn [width height tiles layout].
  split_and!; try done.
  - apply (grid_shape_map_range nh nw
      (λ x y, if (y <? height m) && (x <? width m)
              then default (new_tile x y "traversable") (get_tile m x y)
              else new_tile x y "traversable")).
  - intros x y Hx Hy. split.
    + unfold get_tile at 1. cbn [tiles].
      rewrite (grid_get_map_range nh nw
        (λ x y, if (y <? height m) && (x <? width m)
                then default (new_tile x y "traversable") (get_tile m x y)
                else new_tile x y "traversable")) by done.
      destruct ((y <? height m) && (x <? width m)) eqn:Hc; [|done].
      apply andb_true_iff in Hc as [Hyh Hxw].
      apply Z.ltb_lt in Hyh, Hxw.
      destruct (get_tile_in_bounds m x y Hwf) as [t Ht].
      { apply in_bounds_spec. lia. }
      by rewrite Ht.
    + rewrite Hget by lia. case_decide; [done|].
      by apply grid_get_default_layout.
Qed.

(** C7: on a grid whose tile array has the recorded dimensions and whose
    layout has a value at every coordinate (every grid the constructor
    returns, and every grid the operations make of one), [_expand_maze] with
    [new_width >= width] and [new_height >= height] returns a grid of the
    requested dimensions, with tile and layout arrays of that shape, in which
    every previously valid coordinate holds the very tile it held (kind,
    events, objects, description) and the layout value it had, and every new
    coordinate holds a traversable tile with empty event and object sets, an
    empty description and layout value 0.  When, moreover, both requested
    dimensions are [<=] the current ones, the call changes nothing: the
    dimensions and the tile array are the same, and so is the layout value
    of every coordinate; the grid returned is the grid given whenever the
    layout array has the shape of the grid (a layout with surplus rows or
    cells, which belong to no coordinate, loses them). *)
Theorem _expand_maze_preserves (m : Maze) (new_width new_height : Z) :
  wf_tiles m → layout_covers m →
  width m ≤ new_width → height m ≤ new_height →
  ∃ m', _expand_maze m new_width new_height = Some m'
    ∧ width m' = new_width ∧ height m' = new_height
    ∧ wf_tiles m' ∧ wf_layout m'
    ∧ (∀ c, in_bounds m c.1 c.2 = true →
            tile_at m' c = tile_at m c
            ∧ grid_get (layout m') c.1 c.2 = grid_get (layout m) c.1 c.2)
    ∧ (∀ c, in_bounds m' c.1 c.2 = true → in_bounds m c.1 c.2 = false →
            tile_at m' c = Some (mkTile c.1 c.2 "traversable" ∅ "" ∅)
            ∧ is_traversable m' c = Some true
            ∧ grid_get (layout m') c.1 c.2 = Some 0)
    ∧ (new_width ≤ width m → new_height ≤ height m →
       width m' = width m ∧ height m' = height m ∧ tiles m' = tiles m
       ∧ (∀ c, tile_at m' c = tile_at m c)
       ∧ (wf_layout m → m' = m)).
Proof.
  intros Hwf Hlay Hw Hh.
  destruct (_expand_maze_spec m new_width new_height Hwf Hlay)
    as (m' & Hrun & Hw' & Hh' & Hwf' & Hlay' & Hcells).
  assert (∀ c, in_bounds m c.1 c.2 = true →
            tile_at m' c = tile_at m c
            ∧ grid_get (layout m') c.1 c.2 = grid_get (layout m) c.1 c.2)
    as Hold.
  { intros [x y] Hb. cbn [fst snd] in *.
    pose proof Hb as [Hx Hy]%in_bounds_spec.
    destruct (Hcells x y) as [Ht Hl]; [lia|lia|].
    assert (in_bounds m' x y = true) as Hb'.
    { apply in_bounds_spec. lia. }
    rewrite !tile_at_in_bounds by done. split.
    - rewrite Ht.
      by rewrite (proj2 (Z.ltb_lt y _)), (proj2 (Z.ltb_lt x _)) by lia.
    - rewrite Hl. by rewrite decide_True by lia. }
  exists m'. split_and!; try done.
  - intros [x y] Hb' Hb. cbn [fst snd] in *.
    pose proof Hb' as [Hx Hy]%in_bounds_spec.
    apply in_bounds_false in Hb.
    destruct (Hcells x y) as [Ht Hl]; [lia|lia|].
    assert ((y <? height m) && (x <? width m) = false) as Hc.
    { apply andb_false_iff. rewrite !Z.ltb_ge. lia. }
    rewrite Hc in Ht.
    split_and!.
    + by rewrite tile_at_in_bounds.
    + unfold is_traversable. by rewrite Hb', Ht.
    + rewrite Hl. by rewrite decide_False by lia.
  - intros Hw2 Hh2.
    assert (new_width = width m) as -> by lia.
    assert (new_height = height m) as -> by lia.
    assert (∀ c, tile_at m' c = tile_at m c) as Hat.
    { intros [x y]. destruct (in_bounds m x y) eqn:Hb.
      - by apply (Hold (x, y)).
      - rewrite !tile_at_out_of_bounds; [done|done|].
        unfold in_bounds in *. by rewrite Hw', Hh'. }
    split_and!; try done.
    + apply (grid_eq (height m) (width m)); [done|by rewrite <- Hw', <- Hh'|].
      intros x y Hx Hy.
      assert (in_bounds m x y = true) as Hb by (apply in_bounds_spec; lia).
      assert (in_bounds m' x y = true) as Hb'
        by (apply in_bounds_spec; lia).
      specialize (Hat (x, y)). by rewrite !tile_at_in_bounds in Hat.
    + intros Hshape.
      assert (layout m' = layout m) as Hleq.
      { apply (grid_eq (height m) (width m));
          [done|by rewrite <- Hw', <- Hh'|].
        intros x y Hx Hy.
        apply (Hold (x, y)). apply in_bounds_spec. cbn [fst snd]. lia. }
      by apply grid_ext.
Qed.

(** ** Adding with expansion *)

(** X20: on a well-formed grid and for a coordinate with no negative
    component, [add_event_from_tile] returns a well-formed grid in which the
    coordinate is valid (the grid is expanded when it was not) and the event
    is stored on its tile; the event set of every other coordinate is what
    it was. *)
Lemma add_event_from_tile_nonneg (m : Maze) (e : Event) (x y : Z) :
  wf_tiles m → wf_layout m → 0 ≤ x → 0 ≤ y →
  ∃ m', add_event_from_tile m e (x, y) = Some m'
    ∧ wf_tiles m' ∧ in_bounds m' x y = true
    ∧ event_set m' (x, y) = {[e]} ∪ event_set m (x, y)
    ∧ ∀ c, c ≠ (x, y) → event_set m' c = event_set m c.
Proof.
  intros Hwf Hlay Hx Hy. unfold add_event_from_tile.
  assert (∃ m1, (if negb (in_bounds m x y)
                 then _expand_maze m (Z.max (width m) (x + 1))
                        (Z.max (height m) (y + 1))
                 else Some m) = Some m1
            ∧ wf_tiles m1 ∧ in_bounds m1 x y = true
            ∧ ∀ c, event_set m1 c = event_set m c)
    as (m1 & -> & Hwf1 & Hb1 & Hsame).
  { destruct (in_bounds m x y) eqn:Hb; cbn [negb]; [by exists m|].
    destruct (_expand_maze_spec m (Z.max (width m) (x + 1))
                (Z.max (height m) (y + 1)) Hwf (wf_layout_covers m Hlay))
      as (m1 & Hrun & Hw1 & Hh1 & Hwf1 & _ & Hcells).
    exists m1. split_and!; try done.
    - apply in_bounds_spec. lia.
    - intros [cx cy]. unfold event_set.
      destruct (in_bounds m1 cx cy) eqn:Hc1.
      + pose proof Hc1 as [Hcx Hcy]%in_bounds_spec.
        destruct (Hcells cx cy) as [Ht _]; [lia|lia|].
        rewrite (tile_at_in_bounds m1) by done. rewrite Ht.
        destruct (in_bounds m cx cy) eqn:Hc.
        * pose proof Hc as [Hcx' Hcy']%in_bounds_spec.
          rewrite (proj2 (Z.ltb_lt cy _)), (proj2 (Z.ltb_lt cx _)) by lia.
          by rewrite (tile_at_in_bounds m).
        * apply in_bounds_false in Hc.
          assert ((cy <? height m) && (cx <? width m) = false) as ->.
          { apply andb_false_iff. rewrite !Z.ltb_ge. lia. }
          rewrite tile_at_out_of_bounds; [done|].
          apply in_bounds_false. lia.
      + rewrite (tile_at_out_of_bounds m1) by done.
        rewrite tile_at_out_of_bounds; [done|].
        apply in_bounds_false in Hc1. apply in_bounds_false. lia. }
  cbn [mbind option_bind].
  destruct (update_events_spec m1 x y (λ evs, {[e]} ∪ evs) Hwf1 Hb1)
    as (t & m2 & Ht & Hset & Hwf2 & Hat & Hat2 & Hev & (Hw2 & Hh2 & _ & Hfr)).
  rewrite Ht. cbn [mbind option_bind]. unfold add_to_tile. rewrite Hset.
  exists m2. split_and!; try done.
  - unfold in_bounds in *. by rewrite Hw2, Hh2.
  - by rewrite Hev, Hsame.
  - intros c Hc. rewrite <- Hsame. unfold event_set. by rewrite Hfr.
Qed.

(** C9 at its failing input: on the 3 x 3 default grid,
    [add_event_from_tile(event, (-1, -1))] leaves [(-1, -1)] out of bounds
    (the "expansion" keeps the grid 3 x 3) and stores the event on the tile
    at [(2, 2)], which Python's negative indexing reaches; and
    [add_event_from_tile(event, (-5, 0))] raises. *)
Theorem add_event_from_tile_negative_coordinate :
  (m ← Maze_init (Some 3) (Some 3) None;
   m' ← add_event_from_tile m (EvTuple ["Bob"; "eating"; "apple"; ""]) (-1, -1);
   Some (width m', height m', in_bounds m' (-1) (-1),
         elements (event_set m' (-1, -1)), elements (event_set m' (2, 2))))
  = Some (3, 3, false, [], [EvTuple ["Bob"; "eating"; "apple"; ""]])
  ∧ (m ← Maze_init (Some 3) (Some 3) None;
     add_event_from_tile m (EvTuple ["Bob"; "eating"; "apple"; ""]) (-5, 0))
    = None.
Proof. split; by_evaluation. Qed.

(** ** Construction *)

(** When [_generate_tiles] returns, the tile array has the requested shape. *)
Lemma for_each_collect {A B} (P : B → Prop) (xs : list A)
    (body : A → list B → option (list B)) (s s' : list B) :
  (∀ x s0 s1, body x s0 = Some s1 → ∃ v, s1 = s0 ++ [v] ∧ P v) →
  for_each xs body s = Some s' →
  ∃ vs, s' = s ++ vs ∧ length vs = length xs ∧ Forall P vs.
Proof.
  intros Hbody. revert s. induction xs as [|x xs IH]; intros s Hrun; simpl in *.
  - injection Hrun as <-. exists []. by rewrite app_nil_r.
  - destruct (body x s) as [s1|] eqn:Hb; [|done]. simpl in Hrun.
    destruct (Hbody _ _ _ Hb) as (v & -> & Hv).
    destruct (IH _ Hrun) as (vs & -> & Hlen & Hall).
    exists (v :: vs). rewrite <- app_assoc. simpl.
    split_and!; [done|by f_equal|by constructor].
Qed.

Lemma _generate_tiles_shape (w h : Z) (lay : list (list Z))
    (ts : list (list Tile)) :
  _generate_tiles w h lay = Some ts → grid_shape h w ts.
Proof.
  unfold _generate_tiles. intros Hrun.
  apply (for_each_collect (λ row, length row = Z.to_nat w)) in Hrun
    as (rows & -> & Hlen & Hall).
  - rewrite length_py_range in Hlen. split; [simpl; lia|done].
  - clear Hrun. intros y s0 s1 Hbody. cbn beta in Hbody.
    destruct (for_each _ _ []) as [row|] eqn:Hrow; [|done].
    cbn [mbind option_bind] in Hbody. injection Hbody as <-.
    exists row. split; [done|].
    apply (for_each_collect (λ _, True)) in Hrow as (vs & -> & Hl & _).
    + rewrite length_py_range in Hl. simpl. lia.
    + intros x r0 r1 Hb. cbn beta in Hb.
      destruct (py_index lay y) as [lrow|]; [|done].
      cbn [mbind option_bind] in Hb.
      destruct (py_index lrow x) as [v|]; [|done].
      cbn [mbind option_bind] in Hb.
      injection Hb as <-. eauto.
Qed.

(** Every grid the constructor returns has a well-formed tile array. *)
Lemma Maze_init_wf_tiles (w h : option Z) (lay : option (list (list Z)))
    (m : Maze) :
  Maze_init w h lay = Some m → wf_tiles m.
Proof.
  unfold Maze_init. intros Hrun.
  destruct (if truthy_int w && truthy_int h then _ else _) as [[w' h'] lay'].
  destruct (_generate_tiles w' h' lay') as [ts|] eqn:Hts; [|done].
  simpl in Hrun. injection Hrun as <-.
  by apply _generate_tiles_shape in Hts.
Qed.

Lemma _generate_tiles_default (w h : Z) :
  _generate_tiles w h (_generate_default_layout w h)
  = Some ((λ y, (λ x, new_tile x y "traversable") <$> py_range 0 w)
          <$> py_range 0 h).
Proof.
  unfold _generate_tiles.
  rewrite (for_each_map _ _
    (λ y, (λ x, new_tile x y "traversable") <$> py_range 0 w)); [done|].
  intros y acc Hy%elem_of_py_range.
  rewrite (for_each_map _ _ (λ x, new_tile x y "traversable")); [done|].
  intros x row Hx%elem_of_py_range.
  pose proof (grid_get_default_layout w h x y) as Hget.
  unfold grid_get in Hget.
  destruct (py_index (_generate_default_layout w h) y) as [lrow|];
    [|by discriminate Hget].
  cbn [mbind option_bind] in *. by rewrite Hget.
Qed.

(** The grid built when no usable dimensions are given. *)
Lemma Maze_init_default :
  ∃ m, Maze_init None None None = Some m
    ∧ width m = 10 ∧ height m = 10 ∧ wf_tiles m ∧ wf_layout m
    ∧ ∀ c, in_bounds m c.1 c.2 = true →
           tile_at m c = Some (mkTile c.1 c.2 "traversable" ∅ "" ∅)
           ∧ is_traversable m c = Some true.
Proof.
  unfold Maze_init. cbn [truthy_int andb].
  rewrite _generate_tiles_default. cbn [mbind option_bind].
  eexists. split; [done|]. cbn [width height].
  assert (wf_tiles
            (mkMaze 10 10 (_generate_default_layout 10 10)
               ((λ y, (λ x, new_tile x y "traversable") <$> py_range 0 10)
                <$> py_range 0 10))) as Hwf.
  { apply (grid_shape_map_range 10 10 (λ x y, new_tile x y "traversable")). }
  split_and!; try done.
  - apply (grid_shape_map_range 10 10 (λ _ _, 0)).
  - intros [x y] Hb. cbn [fst snd] in *.
    pose proof Hb as [Hx Hy]%in_bounds_spec. cbn [width height] in Hx, Hy.
    assert (get_tile
              (mkMaze 10 10 (_generate_default_layout 10 10)
                 ((λ y, (λ x, new_tile x y "traversable") <$> py_range 0 10)
                  <$> py_range 0 10)) x y
            = Some (new_tile x y "traversable")) as Ht.
    { unfold get_tile. cbn [tiles].
      by rewrite (grid_get_map_range 10 10 (λ x y, new_tile x y "traversable")). }
    split.
    + by rewrite tile_at_in_bounds.
    + unfold is_traversable. by rewrite Hb, Ht.
Qed.

(** C8, as amended: constructing a grid with width 0 or height 0 does not
    fail; whatever the other dimension and the layout argument, the
    constructor returns the grid it builds when no dimensions are given, the
    default 10 x 10 grid whose tiles are all traversable and empty. *)
Theorem Maze_init_zero_dimension (w h : Z) (lay : option (list (list Z))) :
  w = 0 ∨ h = 0 →
  ∃ m, Maze_init (Some w) (Some h) lay = Some m
    ∧ Maze_init None None None = Some m
    ∧ width m = 10 ∧ height m = 10
    ∧ ∀ c, in_bounds m c.1 c.2 = true →
           tile_at m c = Some (mkTile c.1 c.2 "traversable" ∅ "" ∅)
           ∧ is_traversable m c = Some true.
Proof.
  intros Hzero.
  destruct Maze_init_default as (m & Hm & Hw & Hh & _ & _ & Hcells).
  exists m. split_and!; try done.
  rewrite <- Hm. unfold Maze_init.
  assert (truthy_int (Some w) && truthy_int (Some h) = false) as ->; [|done].
  apply andb_false_iff. simpl.
  destruct Hzero as [-> | ->]; [by left|by right].
Qed.

(** X21: with a negative width or height (and the other not 0) the
    constructor does not fail, whatever the layout argument: it records the
    dimensions as given and builds a grid no coordinate of which is in
    bounds. *)
Lemma Maze_init_negative_dimension (w h : Z) (lay : option (list (list Z))) :
  (w < 0 ∧ h ≠ 0) ∨ (h < 0 ∧ w ≠ 0) →
  ∃ m, Maze_init (Some w) (Some h) lay = Some m
    ∧ width m = w ∧ height m = h
    ∧ ∀ x y, in_bounds m x y = false.
Proof.
  intros Hneg. unfold Maze_init.
  assert (truthy_int (Some w) && truthy_int (Some h) = true) as ->.
  { apply andb_true_iff. simpl. rewrite !negb_true_iff, !Z.eqb_neq. lia. }
  cbn [default from_option]. unfold id.
  set (lay' := if truthy_list lay then _ else _).
  assert (_generate_tiles w h lay'
          = Some ((λ _, []) <$> py_range 0 h)) as ->.
  { unfold _generate_tiles.
    destruct (decide (h < 0)) as [Hh|Hh].
    - by rewrite (py_range_nil 0 h) by lia.
    - rewrite (py_range_nil 0 w) by lia.
      by rewrite (for_each_map _ _ (λ _, [])). }
  cbn [mbind option_bind]. eexists. split; [done|].
  split_and!; try done.
  intros x y. apply in_bounds_false. cbn [width height]. lia.
Qed.

(** ** Sorting by key *)

Section sort_by_key.
Context {A : Type} (key : A → Z).

Local Abbreviation key_le := (λ a b : A, key a ≤ key b).
Local Abbreviation key_lt := (λ a b : A, key a < key b).

Lemma insert_by_key_perm (a : A) (l : list A) :
  insert_by_key key a l ≡ₚ a :: l.
Proof.
  induction l as [|b l IH]; simpl; [done|].
  destruct (key a <=? key b); [done|].
  rewrite IH. apply Permutation_swap.
Qed.

Lemma sort_by_key_perm (l : list A) : sort_by_key key l ≡ₚ l.
Proof.
  induction l as [|a l IH]; simpl; [done|].
  by rewrite insert_by_key_perm, IH.
Qed.

Lemma insert_by_key_sorted (a : A) (l : list A) :
  StronglySorted key_le l → StronglySorted key_le (insert_by_key key a l).
Proof.
  induction 1 as [|b l Hl IH Hall]; simpl.
  - repeat constructor.
  - destruct (key a <=? key b) eqn:Hab.
    + apply Z.leb_le in Hab. constructor; [by constructor|].
      constructor; [done|].
      eapply Forall_impl; [exact Hall|]. simpl. lia.
    + apply Z.leb_gt in Hab. constructor; [done|].
      rewrite insert_by_key_perm. constructor; [lia|done].
Qed.

Lemma sort_by_key_sorted (l : list A) :
  StronglySorted key_le (sort_by_key key l).
Proof.
  induction l as [|a l IH]; simpl; [constructor|].
  by apply insert_by_key_sorted.
Qed.

(** Stability: the items of any one key keep their relative order. *)
Lemma insert_by_key_stable (d : Z) (a : A) (l : list A) :
  filter (λ b, key b = d) (insert_by_key key a l)
  = filter (λ b, key b = d) (a :: l).
Proof.
  induction l as [|b l IH]; simpl; [done|].
  destruct (key a <=? key b) eqn:Hab; [done|].
  apply Z.leb_gt in Hab.
  rewrite (filter_cons _ b), IH, !filter_cons.
  repeat case_decide; try done; lia.
Qed.

Lemma sort_by_key_stable (d : Z) (l : list A) :
  filter (λ b, key b = d) (sort_by_key key l) = filter (λ b, key b = d) l.
Proof.
  induction l as [|a l IH]; simpl; [done|].
  by rewrite insert_by_key_stable, !filter_cons, IH.
Qed.

(** With pairwise distinct keys, ascending is strictly ascending. *)
Lemma sorted_distinct_keys (l : list A) :
  StronglySorted key_le l → NoDup (key <$> l) → StronglySorted key_lt l.
Proof.
  induction 1 as [|a l Hl IH Hall]; intros Hnd; [constructor|].
  rewrite fmap_cons in Hnd. apply NoDup_cons in Hnd as [Hnotin Hnd].
  constructor; [by apply IH|].
  rewrite Forall_forall in Hall. apply Forall_forall. intros b Hb.
  specialize (Hall b Hb). simpl in Hall.
  assert (key a ≠ key b); [|lia].
  intros Heq. apply Hnotin. rewrite Heq. by apply list_elem_of_fmap_2.
Qed.

(** The first [k] items of the sorted list are the [k] items of smallest
    key. *)
Lemma sort_by_key_take_smallest (l : list A) (k : nat) :
  NoDup (key <$> l) →
  StronglySorted key_lt (take k (sort_by_key key l))
  ∧ ∀ p q, p ∈ take k (sort_by_key key l) → q ∈ l →
           q ∉ take k (sort_by_key key l) → key p < key q.
Proof.
  intros Hnd.
  assert (StronglySorted key_lt (sort_by_key key l)) as Hsorted.
  { apply sorted_distinct_keys; [apply sort_by_key_sorted|].
    by rewrite sort_by_key_perm. }
  rewrite <- (take_drop k (sort_by_key key l)) in Hsorted.
  apply StronglySorted_app in Hsorted as (Hlt & Htake & _).
  split; [done|].
  intros p q Hp Hq Hnq. apply Hlt; [done|].
  rewrite <- (sort_by_key_perm l), <- (take_drop k (sort_by_key key l)) in Hq.
  apply elem_of_app in Hq as [Hq|Hq]; [by destruct Hnq|done].
Qed.
End sort_by_key.

(** ** The vision range returns; slices *)

Lemma get_tiles_in_vision_range_total (m : Maze) (center : option Coord)
    (r : Z) :
  wf_tiles m → is_Some (get_tiles_in_vision_range m center r).
Proof.
  intros Hwf. destruct center as [[x y]|]; [|by eexists].
  destruct (in_bounds m x y) eqn:Hb.
  - rewrite get_tiles_in_vision_range_eq by done. by eexists.
  - unfold get_tiles_in_vision_range. rewrite Hb. by eexists.
Qed.

Lemma py_slice_to_take {A} (l : list A) (k : Z) :
  ∃ n, py_slice_to l k = take n l.
Proof. unfold py_slice_to. case_decide; eauto. Qed.

Lemma py_slice_to_nonneg {A} (l : list A) (k : Z) :
  0 ≤ k → py_slice_to l k = take (Z.to_nat k) l.
Proof. intros H. unfold py_slice_to. by rewrite decide_True. Qed.

(** ** Further properties of the queries and of the event index *)

Lemma get_distance_sym (a b : Coord) : get_distance a b = get_distance b a.
Proof. unfold get_distance. lia. Qed.

Lemma is_traversable_out_of_bounds (m : Maze) (c : Coord) :
  in_bounds m c.1 c.2 = false → is_traversable m c = Some false.
Proof. destruct c as [x y]. simpl. unfold is_traversable. by intros ->. Qed.

Lemma get_events_at_out_of_bounds (m : Maze) (c : Coord) :
  in_bounds m c.1 c.2 = false → get_events_at m c = Some [].
Proof. destruct c as [x y]. simpl. unfold get_events_at. by intros ->. Qed.

(** In bounds, [get_events_at] lists the event set of the tile, each event
    once. *)
Lemma get_events_at_in_bounds (m : Maze) (c : Coord) :
  wf_tiles m → in_bounds m c.1 c.2 = true →
  ∃ evs, get_events_at m c = Some evs ∧ NoDup evs
         ∧ ∀ e, e ∈ evs ↔ e ∈ event_set m c.
Proof.
  intros Hwf Hb. destruct c as [x y]. cbn [fst snd] in Hb.
  destruct (get_tile_in_bounds m x y Hwf Hb) as [t Ht].
  unfold get_events_at. rewrite Hb, Ht. cbn [negb mbind option_bind].
  eexists. split; [done|]. split; [apply NoDup_elements|].
  intros e. rewrite elem_of_elements.
  rewrite (event_set_tile_at m (x, y) t); [done|].
  by rewrite tile_at_in_bounds.
Qed.

(** With radius 0 an in-bounds center sees itself and nothing else, wall or
    not. *)
Lemma get_tiles_in_vision_range_zero (m : Maze) (c : Coord) :
  wf_tiles m → in_bounds m c.1 c.2 = true →
  get_tiles_in_vision_range m (Some c) 0 = Some [c].
Proof.
  intros Hwf Hb. rewrite get_tiles_in_vision_range_eq by done.
  change (py_range (- 0) (0 + 1)) with [0]. cbn [mbind list_bind app].
  unfold vision_cell. cbv zeta. cbn [fst snd].
  rewrite !Z.add_0_r. rewrite Hb. cbn [Z.abs Z.add Z.leb Z.compare andb].
  destruct c as [x y]. cbn [fst snd].
  by rewrite has_line_of_sight_self, bool_decide_eq_true_2.
Qed.

(** [remove_event] discards the event from an in-bounds tile and changes
    nothing else. *)
Lemma remove_event_spec (m : Maze) (c : Coord) (e : Event) :
  wf_tiles m →
  ∃ m', remove_event m c e = Some m' ∧ wf_tiles m'
    ∧ if in_bounds m c.1 c.2 then
        event_set m' c = event_set m c ∖ {[e]} ∧ same_grid_except m m' c
      else m' = m.
Proof.
  intros Hwf. destruct c as [x y]. unfold remove_event.
  cbn [fst snd]. destruct (in_bounds m x y) eqn:Hb; [|eauto].
  destruct (update_events_spec m x y (λ evs, evs ∖ {[e]}) Hwf Hb)
    as (t & m' & Ht & Hset & Hwf' & Hat & Hat' & Hev & Hframe).
  rewrite Ht. cbn [mbind option_bind]. rewrite Hset.
  exists m'. by split_and!.
Qed.

(** [remove_subject_events_from_tile] removes from an in-bounds tile exactly
    the non-empty tuples whose first component is the subject. *)
Lemma remove_subject_events_from_tile_spec (m : Maze) (subject : string)
    (c : Coord) :
  wf_tiles m →
  ∃ m', remove_subject_events_from_tile m subject c = Some m' ∧ wf_tiles m'
    ∧ if in_bounds m c.1 c.2 then
        (∀ e, e ∈ event_set m' c ↔
              e ∈ event_set m c
              ∧ ¬ ∃ rest, e = EvTuple (subject :: rest))
        ∧ same_grid_except m m' c
      else m' = m.
Proof.
  intros Hwf. destruct c as [x y]. unfold remove_subject_events_from_tile.
  cbn [fst snd]. destruct (in_bounds m x y) eqn:Hb; cbn [negb]; [|eauto].
  destruct (update_events_spec m x y
              (λ evs, evs ∖ filter (λ event, has_subject subject event) evs)
              Hwf Hb)
    as (t & m' & Ht & Hset & Hwf' & Hat & Hat' & Hev & Hframe).
  rewrite Ht. cbn [mbind option_bind]. rewrite Hset.
  exists m'. split_and!; try done.
  intros e. rewrite Hev, elem_of_difference, elem_of_filter.
  assert (has_subject subject e ↔ ∃ rest, e = EvTuple (subject :: rest))
    as Hsub.
  { destruct e as [[|s rest]|s]; simpl.
    - split; [done|]. by intros (? & ?).
    - rewrite bool_decide_spec. split.
      + intros ->. by eexists.
      + by intros (? & [= -> _]).
    - split; [done|]. by intros (? & ?). }
  rewrite <- Hsub. tauto.
Qed.

(** * The scenarios, evaluated *)

Lemma scenario_maze_built :
  Maze_init (Some 5) (Some 5) (Some scenario_layout) = Some scenario_maze.
Proof. by_evaluation. Qed.

Lemma scenario_world_built :
  (m ← add_event scenario_maze (4, 2) bob_eating;
   add_event m (1, 1) alice_eating) = Some scenario_world.
Proof. by_evaluation. Qed.

Lemma small_world_built :
  (m ← Maze_init (Some 3) (Some 3) None; add_event m (1, 1) bob_eating)
  = Some small_world.
Proof. by_evaluation. Qed.

Lemma three_events_world_built :
  one_tile_world [bob_eating; bob_walking; alice_eating]
  = Some three_events_world.
Proof. by_evaluation. Qed.

Lemma short_tuple_world_built :
  one_tile_world [EvTuple ["Bob"; "eating"]] = Some short_tuple_world.
Proof. by_evaluation. Qed.

(** The wall at (2, 2) hides (4, 2) from (0, 2); (1, 1) is in sight. *)
Lemma scenario_line_of_sight :
  has_line_of_sight scenario_maze (0, 2) (4, 2) = Some false
  ∧ has_line_of_sight scenario_maze (0, 2) (1, 1) = Some true
  ∧ has_line_of_sight scenario_maze (0, 2) (2, 2) = Some true.
Proof. split_and!; by_evaluation. Qed.

(** Witness of C1: the scenario grid, seen from (0, 2) with radius 4. *)
Lemma get_tiles_in_vision_range_spec_witness :
  wf_tiles scenario_maze ∧ 0 ≤ 4
  ∧ ∃ vis, get_tiles_in_vision_range scenario_maze (Some (0, 2)) 4 = Some vis
      ∧ (∀ t, t ∈ vis ↔
              in_bounds scenario_maze t.1 t.2 = true
              ∧ get_distance (0, 2) t ≤ 4
              ∧ has_line_of_sight scenario_maze (0, 2) t = Some true)
      ∧ NoDup vis
      ∧ StronglySorted row_major_lt vis.
Proof.
  assert (wf_tiles scenario_maze) as Hwf
    by (split; [reflexivity|repeat constructor]).
  assert (0 ≤ 4) as Hr by lia.
  split; [exact Hwf|]. split; [exact Hr|].
  exact (get_tiles_in_vision_range_spec scenario_maze (Some (0, 2)) 4 Hwf Hr).
Defined.

(** Witness of C2: the sight line from (0, 2) to (4, 2) across the wall. *)
Lemma has_line_of_sight_blocked_iff_witness :
  wf_tiles scenario_maze
  ∧ is_Some (has_line_of_sight scenario_maze (0, 2) (4, 2))
  ∧ head (los_walk (0, 2) (4, 2)) = Some (0, 2)
  ∧ last (los_walk (0, 2) (4, 2)) = Some (4, 2)
  ∧ (has_line_of_sight scenario_maze (0, 2) (4, 2) = Some false ↔
     ∃ t, t ∈ los_walk (0, 2) (4, 2) ∧ t ≠ (4, 2)
          ∧ is_traversable scenario_maze t = Some false)
  ∧ (∀ m', wf_tiles m' →
       (∀ t, t ≠ (4, 2) →
             is_traversable m' t = is_traversable scenario_maze t) →
       has_line_of_sight m' (0, 2) (4, 2)
       = has_line_of_sight scenario_maze (0, 2) (4, 2))
  ∧ has_line_of_sight scenario_maze (0, 2) (0, 2) = Some true.
Proof.
  assert (wf_tiles scenario_maze) as Hwf
    by (split; [reflexivity|repeat constructor]).
  split; [exact Hwf|].
  exact (has_line_of_sight_blocked_iff scenario_maze (0, 2) (4, 2) Hwf).
Defined.

(** C5 as stated fails when the pattern is itself stored on the tile: with
    ("Bob",) and ("Bob","eating","apple","") both stored, removing with the
    pattern ("Bob",) takes away the stored ("Bob",) only;
    ("Bob","eating","apple",""), whose first component agrees with the
    pattern, stays. *)
Lemma remove_event_from_tile_pattern_stored :
  (m ← one_tile_world [EvTuple ["Bob"]; bob_eating];
   m' ← remove_event_from_tile m (EvTuple ["Bob"]) (0, 0);
   Some (in_bounds m 0 0,
         elements (event_set m (0, 0)),
         matches_event ["Bob"] bob_eating,
         elements (event_set m' (0, 0))))
  = Some (true, [bob_eating; EvTuple ["Bob"]], true, [bob_eating]).
Proof. by_evaluation. Qed.

(** Witness of C5: the removal scenario. *)
Lemma remove_event_from_tile_pattern_witness :
  wf_tiles three_events_world
  ∧ (1 ≤ length ["Bob"] ≤ 3)%nat
  ∧ (EvTuple ["Bob"] ∉ event_set three_events_world (0, 0))
  ∧ (∃ m', remove_event_from_tile three_events_world (EvTuple ["Bob"]) (0, 0)
           = Some m'
       ∧ (∀ e, e ∈ event_set m' (0, 0) ↔
               e ∈ event_set three_events_world (0, 0)
               ∧ ¬ ∃ ex, e = EvTuple ex
                         ∧ take (length ["Bob"] `min` length ex) ["Bob"]
                           = take (length ["Bob"] `min` length ex) ex)
       ∧ same_grid_except three_events_world m' (0, 0))
  ∧ events_after_remove (EvTuple ["Bob"])
      {[ EvTuple ["Bob"; "eating"; "apple"; ""];
         EvTuple ["Bob"; "walking"; ""; ""];
         EvTuple ["Alice"; "eating"; "apple"; ""] ]}
    = {[ EvTuple ["Alice"; "eating"; "apple"; ""] ]}.
Proof.
  assert (wf_tiles three_events_world) as Hwf
    by (split; [reflexivity|repeat constructor]).
  assert (1 ≤ length ["Bob"] ≤ 3)%nat as Hlen by (simpl; lia).
  assert (EvTuple ["Bob"] ∉ event_set three_events_world (0, 0)) as Habs
    by (apply (bool_decide_eq_false_1
                 (EvTuple ["Bob"] ∈ event_set three_events_world (0, 0)));
        vm_compute; reflexivity).
  split; [exact Hwf|]. split; [exact Hlen|]. split; [exact Habs|].
  exact (remove_event_from_tile_pattern three_events_world (0, 0) ["Bob"]
           Hwf Hlen Habs).
Defined.

Lemma three_events_world_removal :
  (m' ← remove_event_from_tile three_events_world (EvTuple ["Bob"]) (0, 0);
   Some (elements (event_set m' (0, 0)))) = Some [alice_eating].
Proof. by_evaluation. Qed.

(** C6 as stated fails when the event is already stored: the add changes
    nothing and the removal then empties the tile. *)
Lemma add_then_remove_stored_event :
  (m ← one_tile_world [bob_eating];
   m1 ← add_event m (0, 0) bob_eating;
   m2 ← remove_event_from_tile m1 bob_eating (0, 0);
   Some (in_bounds m 0 0, elements (event_set m (0, 0)),
         elements (event_set m1 (0, 0)), elements (event_set m2 (0, 0))))
  = Some (true, [bob_eating], [bob_eating], []).
Proof. by_evaluation. Qed.

(** Witness of C6: adding an event to the empty tile (1, 1) of the scenario
    grid, then removing it. *)
Lemma add_then_remove_event_witness :
  wf_tiles scenario_maze ∧ in_bounds scenario_maze (1, 1).1 (1, 1).2 = true
  ∧ ∃ m1 m2, add_event scenario_maze (1, 1) bob_eating = Some m1
      ∧ remove_event_from_tile m1 bob_eating (1, 1) = Some m2
      ∧ event_set m2 (1, 1) = event_set scenario_maze (1, 1) ∖ {[bob_eating]}
      ∧ (bob_eating ∉ event_set scenario_maze (1, 1) →
         event_set m2 (1, 1) = event_set scenario_maze (1, 1)
         ∧ m2 = scenario_maze)
      ∧ (bob_eating ∈ event_set scenario_maze (1, 1) → m1 = scenario_maze).
Proof.
  assert (wf_tiles scenario_maze) as Hwf
    by (split; [reflexivity|repeat constructor]).
  split; [exact Hwf|]. split; [reflexivity|].
  exact (add_then_remove_event scenario_maze (1, 1) bob_eating Hwf eq_refl).
Defined.

(** [_expand_maze] itself has no guard against requested dimensions below
    the current ones (its caller, [add_event_from_tile], passes the maximum
    of the current and the needed dimension): the 3 x 3 grid with an event
    at (1, 1), asked for 1 x 1, becomes a 1 x 1 grid. *)
Lemma _expand_maze_smaller_dimensions :
  (m' ← _expand_maze small_world 1 1;
   Some (width small_world, height small_world,
         in_bounds small_world 1 1, elements (event_set small_world (1, 1)),
         width m', height m',
         in_bounds m' 1 1, elements (event_set m' (1, 1)),
         length (tiles m'), length (layout m')))
  = Some (3, 3, true, [bob_eating], 1, 1, false, [], 1%nat, 1%nat).
Proof. by_evaluation. Qed.

(** Witness of C7: the 3 x 3 grid with an event at (1, 1), expanded to
    5 x 5, and the same grid "expanded" to its own dimensions 3 x 3, which
    gives the grid back. *)
Lemma _expand_maze_preserves_witness :
  wf_tiles small_world ∧ layout_covers small_world
  ∧ width small_world ≤ 5 ∧ height small_world ≤ 5
  ∧ (∃ m', _expand_maze small_world 5 5 = Some m'
       ∧ width m' = 5 ∧ height m' = 5
       ∧ wf_tiles m' ∧ wf_layout m'
       ∧ (∀ c, in_bounds small_world c.1 c.2 = true →
               tile_at m' c = tile_at small_world c
               ∧ grid_get (layout m') c.1 c.2
                 = grid_get (layout small_world) c.1 c.2)
       ∧ (∀ c, in_bounds m' c.1 c.2 = true →
               in_bounds small_world c.1 c.2 = false →
               tile_at m' c = Some (mkTile c.1 c.2 "traversable" ∅ "" ∅)
               ∧ is_traversable m' c = Some true
               ∧ grid_get (layout m') c.1 c.2 = Some 0)
       ∧ (5 ≤ width small_world → 5 ≤ height small_world →
          width m' = width small_world ∧ height m' = height small_world
          ∧ tiles m' = tiles small_world
          ∧ (∀ c, tile_at m' c = tile_at small_world c)
          ∧ (wf_layout small_world → m' = small_world)))
  ∧ width small_world ≤ 3 ∧ height small_world ≤ 3
  ∧ 3 ≤ width small_world ∧ 3 ≤ height small_world
  ∧ wf_layout small_world
  ∧ _expand_maze small_world 3 3 = Some small_world.
Proof.
  assert (wf_tiles small_world) as Hwf
    by (split; [reflexivity|repeat constructor]).
  assert (wf_layout small_world) as Hlay
    by (split; [reflexivity|repeat constructor]).
  pose proof (wf_layout_covers small_world Hlay) as Hcov.
  assert (width small_world ≤ 5) as Hw by (simpl; lia).
  assert (height small_world ≤ 5) as Hh by (simpl; lia).
  assert (width small_world ≤ 3) as Hw3 by (simpl; lia).
  assert (height small_world ≤ 3) as Hh3 by (simpl; lia).
  assert (3 ≤ width small_world) as Hw3' by (simpl; lia).
  assert (3 ≤ height small_world) as Hh3' by (simpl; lia).
  split; [exact Hwf|]. split; [exact Hcov|].
  split; [exact Hw|]. split; [exact Hh|].
  split; [exact (_expand_maze_preserves small_world 5 5 Hwf Hcov Hw Hh)|].
  split; [exact Hw3|]. split; [exact Hh3|].
  split; [exact Hw3'|]. split; [exact Hh3'|]. split; [exact Hlay|].
  destruct (_expand_maze_preserves small_world 3 3 Hwf Hcov Hw3 Hh3)
    as (m' & Hrun & _ & _ & _ & _ & _ & _ & Hnoop).
  destruct (Hnoop Hw3' Hh3') as (_ & _ & _ & _ & Heq).
  rewrite Hrun. f_equal. exact (Heq Hlay).
Defined.

(** The expansion scenario: (1, 1) keeps its event, (4, 4) is traversable and
    empty. *)
Lemma small_world_expanded :
  (m' ← _expand_maze small_world 5 5;
   t ← is_traversable m' (4, 4);
   Some (width m', height m', elements (event_set m' (1, 1)), t,
         elements (event_set m' (4, 4))))
  = Some (5, 5, [bob_eating], true, []).
Proof. by_evaluation. Qed.

(** C8 as stated fails: with width 0, or height 0, the constructor returns
    the default 10 x 10 grid; with a negative width it returns a grid that
    records the width as given. *)
Lemma Maze_init_non_positive_returns :
  (λ m, (width m, height m)) <$> Maze_init (Some 0) (Some 5) None
  = Some (10, 10)
  ∧ (λ m, (width m, height m)) <$> Maze_init (Some 5) (Some 0) None
    = Some (10, 10)
  ∧ (λ m, (width m, height m)) <$> Maze_init (Some (-1)) (Some 5) None
    = Some (-1, 5).
Proof. split_and!; by_evaluation. Qed.

(** Witness of C8: width 0, height 5, no layout. *)
Lemma Maze_init_zero_dimension_witness :
  (0 = 0 ∨ 5 = 0)
  ∧ ∃ m, Maze_init (Some 0) (Some 5) None = Some m
      ∧ Maze_init None None None = Some m
      ∧ width m = 10 ∧ height m = 10
      ∧ ∀ c, in_bounds m c.1 c.2 = true →
             tile_at m c = Some (mkTile c.1 c.2 "traversable" ∅ "" ∅)
             ∧ is_traversable m c = Some true.
Proof.
  assert (0 = 0 ∨ 5 = 0) as Hzero by (left; reflexivity).
  split; [exact Hzero|].
  exact (Maze_init_zero_dimension 0 5 None Hzero).
Defined.

(** Witness of C10: removing ("Bob","eating","apple","") from a tile that
    holds ("Bob","eating") only. *)
Lemma remove_event_from_tile_full_tuple_absent_witness :
  wf_tiles short_tuple_world
  ∧ in_bounds short_tuple_world (0, 0).1 (0, 0).2 = true
  ∧ length ["Bob"; "eating"; "apple"; ""] = 4%nat
  ∧ (bob_eating ∉ event_set short_tuple_world (0, 0))
  ∧ (∃ m', remove_event_from_tile short_tuple_world bob_eating (0, 0) = Some m'
       ∧ ∀ e, e ∈ event_set m' (0, 0) ↔
              e ∈ event_set short_tuple_world (0, 0)
              ∧ ¬ ∃ ex, e = EvTuple ex
                        ∧ take (length ["Bob"; "eating"; "apple"; ""]
                                `min` length ex)
                            ["Bob"; "eating"; "apple"; ""]
                          = take (length ["Bob"; "eating"; "apple"; ""]
                                  `min` length ex) ex)
  ∧ events_after_remove (EvTuple ["Bob"; "eating"; "apple"; ""])
      {[ EvTuple ["Bob"; "eating"] ]} = ∅.
Proof.
  assert (wf_tiles short_tuple_world) as Hwf
    by (split; [reflexivity|repeat constructor]).
  assert (bob_eating ∉ event_set short_tuple_world (0, 0)) as Habs
    by (apply (bool_decide_eq_false_1
                 (bob_eating ∈ event_set short_tuple_world (0, 0)));
        vm_compute; reflexivity).
  split; [exact Hwf|]. split; [reflexivity|]. split; [reflexivity|].
  split; [exact Habs|].
  exact (remove_event_from_tile_full_tuple_absent short_tuple_world (0, 0)
           ["Bob"; "eating"; "apple"; ""] Hwf eq_refl eq_refl Habs).
Defined.

Lemma short_tuple_world_removal :
  (m' ← remove_event_from_tile short_tuple_world bob_eating (0, 0);
   Some (elements (event_set short_tuple_world (0, 0)),
         elements (event_set m' (0, 0))))
  = Some ([EvTuple ["Bob"; "eating"]], []).
Proof. by_evaluation. Qed.

(** * Further properties of the grid *)

(** ** Loops that may raise *)

(** A property that every iteration keeps holds when the loop returns. *)
Lemma for_each_preserves {S A} (P : S → Prop) (xs : list A)
    (body : A → S → option S) (s s' : S) :
  (∀ x s0 s1, x ∈ xs → body x s0 = Some s1 → P s0 → P s1) →
  P s → for_each xs body s = Some s' → P s'.
Proof.
  revert s. induction xs as [|x xs IH]; intros s Hbody Hs Hrun; simpl in Hrun.
  - by injection Hrun as <-.
  - destruct (body x s) as [s1|] eqn:Hb; [|done]. simpl in Hrun.
    apply (IH s1); [|by eapply Hbody; [left| |]|done].
    intros y s0 s2 Hy. apply Hbody. by right.
Qed.

(** When the loop returns, every iteration returned from some state. *)
Lemma for_each_returns {S A} (xs : list A) (body : A → S → option S)
    (s s' : S) (x : A) :
  for_each xs body s = Some s' → x ∈ xs → ∃ s0, is_Some (body x s0).
Proof.
  revert s. induction xs as [|y xs IH]; intros s Hrun Hx; [by inv Hx|].
  simpl in Hrun. destruct (body y s) as [s1|] eqn:Hb; [|done].
  apply elem_of_cons in Hx as [->|Hx]; [by exists s; rewrite Hb|].
  by apply (IH s1).
Qed.

Lemma for_each_ext {S A} (xs : list A) (body body' : A → S → option S)
    (s : S) :
  (∀ x s0, x ∈ xs → body x s0 = body' x s0) →
  for_each xs body s = for_each xs body' s.
Proof.
  revert s. induction xs as [|x xs IH]; intros s Hext; simpl; [done|].
  rewrite Hext by left. destruct (body' x s) as [s1|]; simpl; [|done].
  apply IH. intros y s0 Hy. apply Hext. by right.
Qed.

(** ** Indexing *)

Lemma py_norm_index_lt {A} (l : list A) (i : Z) (n : nat) :
  py_norm_index l i = Some n → (n < length l)%nat.
Proof.
  unfold py_norm_index. repeat case_decide; intros [= <-]; lia.
Qed.

Lemma py_index_elem_of {A} (l : list A) (i : Z) (a : A) :
  py_index l i = Some a → a ∈ l.
Proof.
  unfold py_index. destruct (py_norm_index l i) as [n|]; simpl; [|done].
  apply list_elem_of_lookup_2.
Qed.

Lemma py_setitem_length {A} (l l' : list A) (i : Z) (v : A) :
  py_setitem l i v = Some l' → length l' = length l.
Proof.
  unfold py_setitem. destruct (py_norm_index l i) as [n|]; simpl; [|done].
  intros [= <-]. apply length_insert.
Qed.

(** [g[y][x] = v], wherever the indices land, keeps the shape of [g]. *)
Lemma grid_shape_setitem {A} (h w : Z) (g g' : list (list A))
    (row row' : list A) (x y : Z) (v : A) :
  grid_shape h w g → py_index g y = Some row →
  py_setitem row x v = Some row' → py_setitem g y row' = Some g' →
  grid_shape h w g'.
Proof.
  intros [Hh Hrows] Hrow Hrow' Hg'.
  apply py_index_elem_of in Hrow.
  apply py_setitem_length in Hrow'.
  unfold py_setitem in Hg'.
  destruct (py_norm_index g y) as [n|]; simpl in Hg'; [|done].
  injection Hg' as <-. split.
  - by rewrite length_insert.
  - apply Forall_insert; [done|]. rewrite Hrow'.
    rewrite Forall_forall in Hrows. by apply Hrows.
Qed.

(** Whenever [set_tile] returns, the dimensions and the layout are those of
    the grid it was given and the tile array has kept its shape. *)
Lemma set_tile_returns (m m' : Maze) (x y : Z) (t : Tile) :
  wf_tiles m → set_tile m x y t = Some m' →
  wf_tiles m' ∧ width m' = width m ∧ height m' = height m
  ∧ layout m' = layout m.
Proof.
  intros Hwf Hset. unfold set_tile in Hset.
  destruct (py_index (tiles m) y) as [row|] eqn:Hrow; [|done].
  cbn [mbind option_bind] in Hset.
  destruct (py_setitem row x t) as [row'|] eqn:Hrow'; [|done].
  cbn [mbind option_bind] in Hset.
  destruct (py_setitem (tiles m) y row') as [ts|] eqn:Hts; [|done].
  cbn [mbind option_bind] in Hset. injection Hset as <-.
  split_and!; try done.
  unfold wf_tiles. cbn [width height tiles].
  by eapply grid_shape_setitem.
Qed.

(** Whenever [_expand_maze] returns, the grid it returns has the requested
    dimensions and tile and layout arrays of that shape. *)
Lemma _expand_maze_returns (m m' : Maze) (nw nh : Z) :
  _expand_maze m nw nh = Some m' →
  width m' = nw ∧ height m' = nh ∧ wf_tiles m' ∧ wf_layout m'.
Proof.
  unfold _expand_maze. cbv zeta. intros Hrun.
  destruct (for_each (py_range 0 (Z.min (height m) nh)) _ _)
    as [lay'|] eqn:Hlay; [|done].
  cbn [mbind option_bind] in Hrun.
  destruct (for_each (py_range 0 nh) _ []) as [ts|] eqn:Hts; [|done].
  cbn [mbind option_bind] in Hrun. injection Hrun as <-.
  cbn [width height]. split; [done|]. split; [done|]. split.
  - unfold wf_tiles. cbn [width height tiles]. clear Hlay.
    apply (for_each_collect (λ row, length row = Z.to_nat nw)) in Hts
      as (rows & -> & Hlen & Hall).
    + rewrite length_py_range in Hlen. split; [simpl; lia|done].
    + intros y s0 s1 Hbody. cbn beta in Hbody.
      destruct (for_each (py_range 0 nw) _ []) as [row|] eqn:Hrow; [|done].
      cbn [mbind option_bind] in Hbody. injection Hbody as <-.
      exists row. split; [done|].
      apply (for_each_collect (λ _, True)) in Hrow as (vs & -> & Hl & _).
      * rewrite length_py_range in Hl. simpl. lia.
      * intros x r0 r1 Hb. cbn beta in Hb.
        destruct ((y <? height m) && (x <? width m)).
        -- destruct (py_index (tiles m) y) as [orow|]; [|done].
           cbn [mbind option_bind] in Hb.
           destruct (py_index orow x) as [t|]; [|done].
           cbn [mbind option_bind] in Hb. injection Hb as <-. eauto.
        -- injection Hb as <-. eauto.
  - unfold wf_layout. cbn [width height layout]. clear Hts.
    revert Hlay. apply for_each_preserves.
    + intros y lay0 lay1 _ Hinner Hshape. cbn beta in Hinner.
      revert Hinner. apply for_each_preserves; [|done].
      intros x l0 l1 _ Hb Hl0. cbn beta in Hb.
      destruct (py_index (layout m) y) as [orow|]; [|done].
      cbn [mbind option_bind] in Hb.
      destruct (py_index orow x) as [v|]; [|done].
      cbn [mbind option_bind] in Hb.
      destruct (py_index l0 y) as [row|] eqn:Hrow; [|done].
      cbn [mbind option_bind] in Hb.
      destruct (py_setitem row x v) as [row'|] eqn:Hrow'; [|done].
      cbn [mbind option_bind] in Hb.
      by eapply grid_shape_setitem.
    + apply (grid_shape_map_range nh nw (λ _ _, 0)).
Qed.

(** ** The shape invariant *)

(** X1: the tile array stays rectangular.  A grid the constructor returns has
    [height] rows of [width] tiles, and every operation that returns, from a
    grid of that shape, returns a grid of that shape: the four event
    operations keep the dimensions, [_expand_maze] sets them to the ones
    requested, and [add_event_from_tile] may grow them. *)
Theorem tiles_shape_invariant (m : Maze) :
  wf_tiles m →
  (∀ w h lay m0, Maze_init w h lay = Some m0 → wf_tiles m0)
  ∧ (∀ c e m', add_event m c e = Some m' →
       wf_tiles m' ∧ width m' = width m ∧ height m' = height m)
  ∧ (∀ c e m', remove_event m c e = Some m' →
       wf_tiles m' ∧ width m' = width m ∧ height m' = height m)
  ∧ (∀ s c m', remove_subject_events_from_tile m s c = Some m' →
       wf_tiles m' ∧ width m' = width m ∧ height m' = height m)
  ∧ (∀ e c m', remove_event_from_tile m e c = Some m' →
       wf_tiles m' ∧ width m' = width m ∧ height m' = height m)
  ∧ (∀ nw nh m', _expand_maze m nw nh = Some m' →
       wf_tiles m' ∧ width m' = nw ∧ height m' = nh)
  ∧ (∀ e c m', add_event_from_tile m e c = Some m' →
       wf_tiles m' ∧ width m ≤ width m' ∧ height m ≤ height m').
Proof.
  intros Hwf.
  assert (∀ x y f m',
            (t ← get_tile m x y; set_tile m x y (f t)) = Some m' →
            wf_tiles m' ∧ width m' = width m ∧ height m' = height m)
    as Hupdate.
  { intros x y f m' Hrun.
    destruct (get_tile m x y) as [t|]; [|done].
    cbn [mbind option_bind] in Hrun.
    apply set_tile_returns in Hrun; [|done]. tauto. }
  split_and!.
  - intros w h lay m0. apply Maze_init_wf_tiles.
  - intros [x y] e m'. unfold add_event.
    destruct (in_bounds m x y); [apply Hupdate|by intros [= <-]].
  - intros [x y] e m'. unfold remove_event.
    destruct (in_bounds m x y);
      [apply (Hupdate x y (λ t, set_events t (tile_events t ∖ {[e]})))
      |by intros [= <-]].
  - intros s [x y] m'. unfold remove_subject_events_from_tile.
    destruct (in_bounds m x y); cbn [negb]; [|by intros [= <-]].
    apply (Hupdate x y
             (λ t, set_events t
                     (tile_events t
                      ∖ filter (λ event, has_subject s event) (tile_events t)))).
  - intros e [x y] m'. unfold remove_event_from_tile.
    destruct (in_bounds m x y); cbn [negb]; [|by intros [= <-]].
    apply (Hupdate x y
             (λ t, set_events t (events_after_remove e (tile_events t)))).
  - intros nw nh m' Hrun. apply _expand_maze_returns in Hrun. tauto.
  - intros e [x y] m'. unfold add_event_from_tile. intros Hrun.
    assert (∃ m1, (if negb (in_bounds m x y)
                   then _expand_maze m (Z.max (width m) (x + 1))
                          (Z.max (height m) (y + 1))
                   else Some m) = Some m1
              ∧ wf_tiles m1 ∧ width m ≤ width m1 ∧ height m ≤ height m1)
      as (m1 & Hm1 & Hwf1 & Hw1 & Hh1).
    { destruct (in_bounds m x y); cbn [negb] in *.
      - exists m. split_and!; [done|done|lia|lia].
      - destruct (_expand_maze m _ _) as [m1|] eqn:Hexp; [|done].
        apply _expand_maze_returns in Hexp as (Hw & Hh & Hwf1 & _).
        exists m1. split_and!; [done|done|lia|lia]. }
    rewrite Hm1 in Hrun. cbn [mbind option_bind] in Hrun.
    destruct (get_tile m1 x y) as [t|]; [|done].
    cbn [mbind option_bind] in Hrun.
    apply set_tile_returns in Hrun as (Hwf' & Hw' & Hh' & _); [|done].
    split_and!; [done|lia|lia].
Qed.

(** Witness of X1: the 3 x 3 grid with an event at (1, 1). *)
Lemma tiles_shape_invariant_witness :
  wf_tiles small_world
  ∧ (∀ w h lay m0, Maze_init w h lay = Some m0 → wf_tiles m0)
  ∧ (∀ c e m', add_event small_world c e = Some m' →
       wf_tiles m' ∧ width m' = width small_world
       ∧ height m' = height small_world)
  ∧ (∀ c e m', remove_event small_world c e = Some m' →
       wf_tiles m' ∧ width m' = width small_world
       ∧ height m' = height small_world)
  ∧ (∀ s c m', remove_subject_events_from_tile small_world s c = Some m' →
       wf_tiles m' ∧ width m' = width small_world
       ∧ height m' = height small_world)
  ∧ (∀ e c m', remove_event_from_tile small_world e c = Some m' →
       wf_tiles m' ∧ width m' = width small_world
       ∧ height m' = height small_world)
  ∧ (∀ nw nh m', _expand_maze small_world nw nh = Some m' →
       wf_tiles m' ∧ width m' = nw ∧ height m' = nh)
  ∧ (∀ e c m', add_event_from_tile small_world e c = Some m' →
       wf_tiles m' ∧ width small_world ≤ width m'
       ∧ height small_world ≤ height m').
Proof.
  assert (wf_tiles small_world) as Hwf
    by (split; [reflexivity|repeat constructor]).
  split; [exact Hwf|].
  exact (tiles_shape_invariant small_world Hwf).
Defined.

(** ** Event operations and what is visible *)

Lemma in_bounds_same_dims (m m' : Maze) (x y : Z) :
  width m' = width m → height m' = height m →
  in_bounds m' x y = in_bounds m x y.
Proof. intros Hw Hh. unfold in_bounds. by rewrite Hw, Hh. Qed.

Lemma is_traversable_same_kinds (m m' : Maze) :
  width m' = width m → height m' = height m →
  (∀ c, tile_type <$> tile_at m' c = tile_type <$> tile_at m c) →
  ∀ c, is_traversable m' c = is_traversable m c.
Proof.
  intros Hw Hh Hkinds [x y]. unfold is_traversable.
  rewrite (in_bounds_same_dims m m') by done.
  destruct (in_bounds m x y) eqn:Hb; cbn [negb]; [|done].
  specialize (Hkinds (x, y)).
  rewrite !tile_at_in_bounds in Hkinds
    by (done || by rewrite (in_bounds_same_dims m m')).
  destruct (get_tile m' x y) as [t'|], (get_tile m x y) as [t|];
    simpl in *; try done.
  by injection Hkinds as ->.
Qed.

Lemma los_loop_same_kinds (m m' : Maze) (end_ : Coord)
    (dx2 dy2 x_inc y_inc : Z) (k : nat) (x y e : Z) :
  (∀ c, is_traversable m' c = is_traversable m c) →
  los_loop m' end_ dx2 dy2 x_inc y_inc k x y e
  = los_loop m end_ dx2 dy2 x_inc y_inc k x y e.
Proof.
  intros Htr. revert x y e.
  induction k as [|k IH]; intros x y e; cbn [los_loop]; [done|].
  rewrite Htr. destruct (is_traversable m (x, y)) as [b|]; [|done].
  cbn [mbind option_bind].
  destruct (negb b && _); [done|]. destruct (0 <? e); apply IH.
Qed.

Lemma has_line_of_sight_same_kinds (m m' : Maze) :
  (∀ c, is_traversable m' c = is_traversable m c) →
  ∀ a b, has_line_of_sight m' a b = has_line_of_sight m a b.
Proof.
  intros Htr [x0 y0] [x1 y1]. unfold has_line_of_sight.
  by apply los_loop_same_kinds.
Qed.

Lemma get_tiles_in_vision_range_same_sight (m m' : Maze) :
  (∀ x y, in_bounds m' x y = in_bounds m x y) →
  (∀ a b, has_line_of_sight m' a b = has_line_of_sight m a b) →
  ∀ center r,
    get_tiles_in_vision_range m' center r
    = get_tiles_in_vision_range m center r.
Proof.
  intros Hb Hlos [[x y]|] r; [|done].
  unfold get_tiles_in_vision_range. rewrite Hb.
  destruct (in_bounds m x y); cbn [negb]; [|done].
  apply for_each_ext. intros dy s _.
  apply for_each_ext. intros dx s' _.
  by rewrite Hb, Hlos.
Qed.

Lemma same_view_of_kinds (m m' : Maze) :
  width m' = width m → height m' = height m → layout m' = layout m →
  (∀ c, tile_type <$> tile_at m' c = tile_type <$> tile_at m c) →
  same_view m m'.
Proof.
  intros Hw Hh Hl Hkinds.
  pose proof (is_traversable_same_kinds m m' Hw Hh Hkinds) as Htr.
  pose proof (has_line_of_sight_same_kinds m m' Htr) as Hlos.
  split_and!; try done.
  apply get_tiles_in_vision_range_same_sight; [|done].
  intros x y. by apply in_bounds_same_dims.
Qed.

(** Rewriting the event set of one tile shows the same grid. *)
Lemma update_events_same_view (m m' : Maze) (x y : Z)
    (f : gset Event → gset Event) :
  wf_tiles m →
  (if in_bounds m x y
   then t ← get_tile m x y; set_tile m x y (set_events t (f (tile_events t)))
   else Some m) = Some m' →
  same_view m m'.
Proof.
  intros Hwf Hrun. destruct (in_bounds m x y) eqn:Hb.
  - destruct (update_events_spec m x y f Hwf Hb)
      as (t & m2 & Ht & Hset & _ & Hat & Hat2 & _ & Hw & Hh & Hl & Hfr).
    rewrite Ht in Hrun. cbn [mbind option_bind] in Hrun.
    rewrite Hset in Hrun. injection Hrun as <-.
    apply same_view_of_kinds; try done.
    intros c. destruct (decide (c = (x, y))) as [->|Hc].
    + by rewrite Hat, Hat2.
    + by rewrite Hfr.
  - injection Hrun as <-. by apply same_view_of_kinds.
Qed.

(** X2: the event operations change no kind of tile: after [add_event],
    [remove_event], [remove_event_from_tile] or
    [remove_subject_events_from_tile] on a well-formed grid, the dimensions
    and the layout are the same, [is_traversable] answers the same on every
    coordinate, [has_line_of_sight] answers the same on every pair, and
    [get_tiles_in_vision_range] returns the same list for every center and
    radius. *)
Theorem event_operations_same_view (m : Maze) :
  wf_tiles m →
  (∀ c e m', add_event m c e = Some m' → same_view m m')
  ∧ (∀ c e m', remove_event m c e = Some m' → same_view m m')
  ∧ (∀ e c m', remove_event_from_tile m e c = Some m' → same_view m m')
  ∧ (∀ s c m', remove_subject_events_from_tile m s c = Some m' →
       same_view m m').
Proof.
  intros Hwf. split_and!.
  - intros [x y] e m' Hrun.
    by apply (update_events_same_view m m' x y (λ evs, {[e]} ∪ evs)).
  - intros [x y] e m' Hrun.
    by apply (update_events_same_view m m' x y (λ evs, evs ∖ {[e]})).
  - intros e [x y] m' Hrun.
    apply (update_events_same_view m m' x y (events_after_remove e)); [done|].
    unfold remove_event_from_tile in Hrun. by destruct (in_bounds m x y).
  - intros s [x y] m' Hrun.
    apply (update_events_same_view m m' x y
             (λ evs, evs ∖ filter (λ event, has_subject s event) evs));
      [done|].
    unfold remove_subject_events_from_tile in Hrun.
    by destruct (in_bounds m x y).
Qed.

(** Witness of X2: the scenario grid. *)
Lemma event_operations_same_view_witness :
  wf_tiles scenario_maze
  ∧ (∀ c e m', add_event scenario_maze c e = Some m' →
       same_view scenario_maze m')
  ∧ (∀ c e m', remove_event scenario_maze c e = Some m' →
       same_view scenario_maze m')
  ∧ (∀ e c m', remove_event_from_tile scenario_maze e c = Some m' →
       same_view scenario_maze m')
  ∧ (∀ s c m', remove_subject_events_from_tile scenario_maze s c = Some m' →
       same_view scenario_maze m').
Proof.
  assert (wf_tiles scenario_maze) as Hwf
    by (split; [reflexivity|repeat constructor]).
  split; [exact Hwf|].
  exact (event_operations_same_view scenario_maze Hwf).
Defined.

(** ** The geometry of the walk *)

(** With [rx] steps in [x] and [ry] steps in [y] still to go, the tile at
    position [i] of what is left of the walk is [kx] and [ky] steps away,
    [kx + ky = i]. *)
Lemma los_visit_lookup (dx dy x_inc y_inc : Z) (n : nat) :
  ∀ rx ry x y (i : nat) p,
    0 ≤ rx ≤ dx → 0 ≤ ry ≤ dy → rx + ry = Z.of_nat n →
    los_visit (dx * 2) (dy * 2) x_inc y_inc (S n) x y
      (dx - dy + 2 * dy * rx - 2 * dx * ry) !! i = Some p →
    ∃ kx ky, 0 ≤ kx ≤ rx ∧ 0 ≤ ky ≤ ry ∧ kx + ky = Z.of_nat i
             ∧ p = (x + kx * x_inc, y + ky * y_inc).
Proof.
  induction n as [|n IH]; intros rx ry x y i p Hrx Hry Hn Hlook.
  - destruct i as [|i].
    + cbn [los_visit lookup list_lookup] in Hlook. injection Hlook as <-.
      exists 0, 0. split_and!; try lia. f_equal; lia.
    + cbn [los_visit] in Hlook. by destruct (0 <? _).
  - destruct i as [|i].
    { cbn [los_visit lookup list_lookup] in Hlook. injection Hlook as <-.
      exists 0, 0. split_and!; try lia. f_equal; lia. }
    remember (S n) as k eqn:Hk. cbn [los_visit] in Hlook.
    destruct (0 <? dx - dy + 2 * dy * rx - 2 * dx * ry) eqn:He.
    + apply Z.ltb_lt in He.
      assert (0 < rx) as Hpos by nia.
      replace (dx - dy + 2 * dy * rx - 2 * dx * ry - dy * 2)
        with (dx - dy + 2 * dy * (rx - 1) - 2 * dx * ry) in Hlook by lia.
      subst k. cbn [lookup list_lookup] in Hlook.
      apply (IH (rx - 1) ry) in Hlook as (kx & ky & Hkx & Hky & Hsum & ->);
        [|lia|lia|lia].
      exists (kx + 1), ky. split_and!; try lia. f_equal; lia.
    + apply Z.ltb_ge in He.
      assert (0 < ry) as Hpos by nia.
      replace (dx - dy + 2 * dy * rx - 2 * dx * ry + dx * 2)
        with (dx - dy + 2 * dy * rx - 2 * dx * (ry - 1)) in Hlook by lia.
      subst k. cbn [lookup list_lookup] in Hlook.
      apply (IH rx (ry - 1)) in Hlook as (kx & ky & Hkx & Hky & Hsum & ->);
        [|lia|lia|lia].
      exists kx, (ky + 1). split_and!; try lia. f_equal; lia.
Qed.

(** The tile at position [i] of the walk from [a] to [b] is [i] steps from
    [a] and as many steps nearer to [b]. *)
Lemma los_walk_lookup (a b p : Coord) (i : nat) :
  los_walk a b !! i = Some p →
  get_distance a p = Z.of_nat i
  ∧ get_distance p b = get_distance a b - Z.of_nat i
  ∧ Z.min a.1 b.1 ≤ p.1 ≤ Z.max a.1 b.1
  ∧ Z.min a.2 b.2 ≤ p.2 ≤ Z.max a.2 b.2.
Proof.
  destruct a as [x0 y0], b as [x1 y1]. unfold los_walk, get_distance.
  cbn [fst snd].
  set (dx := Z.abs (x1 - x0)). set (dy := Z.abs (y1 - y0)).
  replace (Z.to_nat (1 + dx + dy)) with (S (Z.to_nat (dx + dy))) by lia.
  replace (dx - dy) with (dx - dy + 2 * dy * dx - 2 * dx * dy) by lia.
  intros Hlook.
  apply los_visit_lookup in Hlook as (kx & ky & Hkx & Hky & Hsum & ->);
    [|lia|lia|lia].
  cbn [fst snd]. subst dx dy.
  destruct (x0 <? x1) eqn:Hx; [apply Z.ltb_lt in Hx|apply Z.ltb_ge in Hx];
    (destruct (y0 <? y1) eqn:Hy;
       [apply Z.ltb_lt in Hy|apply Z.ltb_ge in Hy]); lia.
Qed.

(** Each tile of the walk is one step in [x] or one step in [y] from the
    tile before it. *)
Lemma los_visit_step (dx2 dy2 x_inc y_inc : Z) (k : nat) :
  ∀ x y e (i : nat) p q,
    los_visit dx2 dy2 x_inc y_inc k x y e !! i = Some p →
    los_visit dx2 dy2 x_inc y_inc k x y e !! S i = Some q →
    q = (p.1 + x_inc, p.2) ∨ q = (p.1, p.2 + y_inc).
Proof.
  induction k as [|k IH]; intros x y e i p q Hp Hq; [done|].
  cbn [los_visit] in Hp, Hq. destruct i as [|i].
  - cbn [lookup list_lookup] in Hp, Hq. injection Hp as <-. cbn [fst snd].
    destruct k as [|k]; [by destruct (0 <? e)|].
    destruct (0 <? e); cbn [los_visit lookup list_lookup] in Hq;
      injection Hq as <-; [by left|by right].
  - cbn [lookup list_lookup] in Hp, Hq.
    destruct (0 <? e); by eapply IH.
Qed.

(** X3: the walk of [has_line_of_sight] from [a] to [b] is a shortest grid
    path.  It has [1 + |ax - bx| + |ay - by|] tiles; its tile at position [i]
    is at Manhattan distance [i] from [a] and [i] nearer to [b] than [a] is,
    so it never leaves the rectangle spanned by [a] and [b]; consecutive
    tiles are at distance 1 (the walk moves in [x] or in [y], never
    diagonally); and no tile is visited twice. *)
Theorem los_walk_geometry (a b : Coord) :
  Z.of_nat (length (los_walk a b)) = 1 + get_distance a b
  ∧ (∀ (i : nat) p, los_walk a b !! i = Some p →
       get_distance a p = Z.of_nat i
       ∧ get_distance p b = get_distance a b - Z.of_nat i
       ∧ Z.min a.1 b.1 ≤ p.1 ≤ Z.max a.1 b.1
       ∧ Z.min a.2 b.2 ≤ p.2 ≤ Z.max a.2 b.2)
  ∧ (∀ (i : nat) p q, los_walk a b !! i = Some p →
       los_walk a b !! S i = Some q → get_distance p q = 1)
  ∧ NoDup (los_walk a b).
Proof.
  split_and!.
  - destruct a as [x0 y0], b as [x1 y1]. unfold los_walk, get_distance.
    rewrite length_los_visit. simpl. lia.
  - intros i p. apply los_walk_lookup.
  - intros i p q Hp Hq.
    destruct a as [x0 y0], b as [x1 y1]. unfold los_walk in Hp, Hq.
    destruct (los_visit_step _ _ _ _ _ _ _ _ _ _ _ Hp Hq) as [-> | ->];
      unfold get_distance; cbn [fst snd].
    + destruct (x0 <? x1); lia.
    + destruct (y0 <? y1); lia.
  - apply NoDup_alt. intros i j p Hi Hj.
    apply los_walk_lookup in Hi as (Hi & _), Hj as (Hj & _). lia.
Qed.

Lemma los_clear_rectangle (m : Maze) (a b : Coord) :
  wf_tiles m →
  (∀ t, Z.min a.1 b.1 ≤ t.1 ≤ Z.max a.1 b.1 →
        Z.min a.2 b.2 ≤ t.2 ≤ Z.max a.2 b.2 →
        t ≠ b → is_traversable m t = Some true) →
  has_line_of_sight m a b = Some true.
Proof.
  intros Hwf Hclear.
  destruct (has_line_of_sight_total m a b Hwf) as [[|] Hlos]; [done|].
  apply has_line_of_sight_false_iff in Hlos as (t & Ht & Hne & Htr); [|done].
  apply list_elem_of_lookup in Ht as [i Hi].
  apply los_walk_lookup in Hi as (_ & _ & Hx & Hy).
  rewrite Hclear in Htr; done.
Qed.

(** X4: a clear rectangle gives sight.  On a well-formed grid, if every tile
    of the rectangle spanned by [a] and [b], other than [b] itself, is
    traversable, then [has_line_of_sight a b] is [True]. *)
Theorem has_line_of_sight_clear_rectangle (m : Maze) (a b : Coord) :
  wf_tiles m →
  (∀ t, Z.min a.1 b.1 ≤ t.1 ≤ Z.max a.1 b.1 →
        Z.min a.2 b.2 ≤ t.2 ≤ Z.max a.2 b.2 →
        t ≠ b → is_traversable m t = Some true) →
  has_line_of_sight m a b = Some true.
Proof. apply los_clear_rectangle. Qed.

(** Witness of X4: from (0, 0) to (2, 1) on the 3 x 3 grid. *)
Lemma has_line_of_sight_clear_rectangle_witness :
  wf_tiles small_world
  ∧ (∀ t, Z.min (0, 0).1 (2, 1).1 ≤ t.1 ≤ Z.max (0, 0).1 (2, 1).1 →
          Z.min (0, 0).2 (2, 1).2 ≤ t.2 ≤ Z.max (0, 0).2 (2, 1).2 →
          t ≠ (2, 1) → is_traversable small_world t = Some true)
  ∧ has_line_of_sight small_world (0, 0) (2, 1) = Some true.
Proof.
  assert (wf_tiles small_world) as Hwf
    by (split; [reflexivity|repeat constructor]).
  assert (∀ t, Z.min (0, 0).1 (2, 1).1 ≤ t.1 ≤ Z.max (0, 0).1 (2, 1).1 →
               Z.min (0, 0).2 (2, 1).2 ≤ t.2 ≤ Z.max (0, 0).2 (2, 1).2 →
               t ≠ (2, 1) → is_traversable small_world t = Some true)
    as Hclear.
  { intros [x y] Hx Hy _. simpl in Hx, Hy.
    assert (x = 0 ∨ x = 1 ∨ x = 2) as [-> | [-> | ->]] by lia;
      (assert (y = 0 ∨ y = 1) as [-> | ->] by lia); reflexivity. }
  split; [exact Hwf|]. split; [exact Hclear|].
  exact (has_line_of_sight_clear_rectangle small_world (0, 0) (2, 1)
           Hwf Hclear).
Defined.

(** ** More on the vision range *)

(** What [get_tiles_in_vision_range] returns from an in-bounds center. *)
Lemma vision_range_members (m : Maze) (c : Coord) (r : Z) :
  wf_tiles m → in_bounds m c.1 c.2 = true →
  ∃ vis, get_tiles_in_vision_range m (Some c) r = Some vis
    ∧ NoDup vis
    ∧ ∀ t, t ∈ vis ↔
           in_bounds m t.1 t.2 = true ∧ get_distance c t ≤ r
           ∧ has_line_of_sight m c t = Some true.
Proof.
  intros Hwf Hb. eexists.
  split; [by apply get_tiles_in_vision_range_eq|]. split.
  - apply (StronglySorted_NoDup row_major_lt); [apply _|].
    apply (StronglySorted_bind Z.lt); [apply StronglySorted_py_range| |].
    + intros dy _. apply (StronglySorted_bind Z.lt);
        [apply StronglySorted_py_range| |].
      * intros dx _. unfold vision_cell.
        destruct (_ && _ && _); repeat constructor.
      * intros dx dx' u v Hlt (-> & _)%elem_of_vision_cell
          (-> & _)%elem_of_vision_cell.
        right. simpl. lia.
    + intros dy dy' u v Hlt
        (dx & (-> & _)%elem_of_vision_cell & _)%list_elem_of_bind
        (dx' & (-> & _)%elem_of_vision_cell & _)%list_elem_of_bind.
      left. simpl. lia.
  - intros t. rewrite list_elem_of_bind. split.
    + intros (dy & (dx & (-> & Hin & Hd & Hl)%elem_of_vision_cell & _)
                     %list_elem_of_bind & _).
      split_and!; [done| |done].
      unfold get_distance. simpl. lia.
    + intros (Hin & Hd & Hl). unfold get_distance in Hd.
      exists (t.2 - c.2). split; [|apply elem_of_py_range; lia].
      apply list_elem_of_bind.
      exists (t.1 - c.1). split; [|apply elem_of_py_range; lia].
      apply elem_of_vision_cell. split_and!; [|done|lia|done].
      destruct t as [tx ty]. simpl. f_equal; lia.
Qed.

Lemma list_with_one_member {A} (l : list A) (c : A) :
  NoDup l → (∀ t, t ∈ l ↔ t = c) → l = [c].
Proof.
  intros Hnd Hmem. apply Permutation_singleton_r.
  apply NoDup_Permutation; [done|apply NoDup_singleton|].
  intros t. rewrite Hmem. by rewrite list_elem_of_singleton.
Qed.

(** X5: without walls the vision range is the Manhattan ball.  On a
    well-formed grid all of whose tiles are traversable, the list returned
    from an in-bounds center holds, once each, exactly the in-bounds tiles at
    Manhattan distance at most the radius. *)
Theorem vision_range_without_walls (m : Maze) (c : Coord) (r : Z) :
  wf_tiles m →
  (∀ t, in_bounds m t.1 t.2 = true → is_traversable m t = Some true) →
  in_bounds m c.1 c.2 = true →
  ∃ vis, get_tiles_in_vision_range m (Some c) r = Some vis
    ∧ NoDup vis
    ∧ ∀ t, t ∈ vis ↔ in_bounds m t.1 t.2 = true ∧ get_distance c t ≤ r.
Proof.
  intros Hwf Hopen Hb.
  destruct (vision_range_members m c r Hwf Hb) as (vis & Hvis & Hnd & Hmem).
  exists vis. split_and!; try done.
  intros t. rewrite Hmem. split; [tauto|].
  intros [Ht Hd]. split_and!; try done.
  apply los_clear_rectangle; [done|].
  intros u Hx Hy _. apply Hopen.
  apply in_bounds_spec in Hb, Ht. apply in_bounds_spec. lia.
Qed.

(** Witness of X5: the 3 x 3 grid seen from (1, 1) with radius 1. *)
Lemma vision_range_without_walls_witness :
  wf_tiles small_world
  ∧ (∀ t, in_bounds small_world t.1 t.2 = true →
          is_traversable small_world t = Some true)
  ∧ in_bounds small_world (1, 1).1 (1, 1).2 = true
  ∧ ∃ vis, get_tiles_in_vision_range small_world (Some (1, 1)) 1 = Some vis
      ∧ NoDup vis
      ∧ ∀ t, t ∈ vis ↔
             in_bounds small_world t.1 t.2 = true
             ∧ get_distance (1, 1) t ≤ 1.
Proof.
  assert (wf_tiles small_world) as Hwf
    by (split; [reflexivity|repeat constructor]).
  assert (∀ t, in_bounds small_world t.1 t.2 = true →
               is_traversable small_world t = Some true) as Hopen.
  { intros [x y] [Hx Hy]%in_bounds_spec. simpl in Hx, Hy.
    assert (x = 0 ∨ x = 1 ∨ x = 2) as [-> | [-> | ->]] by lia;
      (assert (y = 0 ∨ y = 1 ∨ y = 2) as [-> | [-> | ->]] by lia);
      reflexivity. }
  split; [exact Hwf|]. split; [exact Hopen|]. split; [reflexivity|].
  exact (vision_range_without_walls small_world (1, 1) 1 Hwf Hopen eq_refl).
Defined.

(** X6: nothing is seen from a blocked tile.  On a well-formed grid, from a
    tile that is not traversable there is no line of sight to any other tile,
    and with an in-bounds wall as center and a radius [r >= 0] the vision
    range is the center alone. *)
Theorem vision_from_blocked_center (m : Maze) (c : Coord) (r : Z) :
  wf_tiles m → is_traversable m c = Some false → 0 ≤ r →
  (∀ b, b ≠ c → has_line_of_sight m c b = Some false)
  ∧ (in_bounds m c.1 c.2 = true →
     get_tiles_in_vision_range m (Some c) r = Some [c]).
Proof.
  intros Hwf Hwall Hr.
  assert (∀ b, b ≠ c → has_line_of_sight m c b = Some false) as Hblocked.
  { intros b Hne. apply has_line_of_sight_false_iff; [done|].
    exists c. split_and!; [|done|done].
    pose proof (los_walk_head c b) as Hhead.
    destruct (los_walk c b) as [|p l]; [done|].
    injection Hhead as ->. by left. }
  split; [done|]. intros Hb.
  destruct (vision_range_members m c r Hwf Hb) as (vis & Hvis & Hnd & Hmem).
  rewrite Hvis. f_equal. apply list_with_one_member; [done|].
  intros t. rewrite Hmem. split.
  - intros (_ & _ & Hlos). destruct (decide (t = c)) as [->|Hne]; [done|].
    rewrite Hblocked in Hlos; done.
  - intros ->. split_and!; [done| |by apply has_line_of_sight_self].
    unfold get_distance. lia.
Qed.

(** Witness of X6: the wall at (2, 2) of the scenario grid, radius 4. *)
Lemma vision_from_blocked_center_witness :
  wf_tiles scenario_maze ∧ is_traversable scenario_maze (2, 2) = Some false
  ∧ 0 ≤ 4
  ∧ (∀ b, b ≠ (2, 2) → has_line_of_sight scenario_maze (2, 2) b = Some false)
  ∧ (in_bounds scenario_maze (2, 2).1 (2, 2).2 = true →
     get_tiles_in_vision_range scenario_maze (Some (2, 2)) 4 = Some [(2, 2)]).
Proof.
  assert (wf_tiles scenario_maze) as Hwf
    by (split; [reflexivity|repeat constructor]).
  assert (0 ≤ 4) as Hr by lia.
  split; [exact Hwf|]. split; [reflexivity|]. split; [exact Hr|].
  exact (vision_from_blocked_center scenario_maze (2, 2) 4 Hwf eq_refl Hr).
Defined.

(** X7: a larger radius sees more.  On a well-formed grid, from an in-bounds
    center, every tile returned for a radius is returned for every larger
    radius; the center itself is returned for every radius [r >= 0]; and a
    negative radius returns the empty list. *)
Theorem vision_range_grows_with_radius (m : Maze) (c : Coord) (r r' : Z) :
  wf_tiles m → in_bounds m c.1 c.2 = true → r ≤ r' →
  ∃ vis vis',
    get_tiles_in_vision_range m (Some c) r = Some vis
    ∧ get_tiles_in_vision_range m (Some c) r' = Some vis'
    ∧ vis ⊆ vis'
    ∧ (0 ≤ r → c ∈ vis)
    ∧ (r < 0 → vis = []).
Proof.
  intros Hwf Hb Hle.
  destruct (vision_range_members m c r Hwf Hb) as (vis & Hvis & _ & Hmem).
  destruct (vision_range_members m c r' Hwf Hb) as (vis' & Hvis' & _ & Hmem').
  exists vis, vis'. split_and!; try done.
  - intros t. rewrite Hmem, Hmem'. intros (? & ? & ?). split_and!; [done|lia|done].
  - intros Hr. apply Hmem. split_and!; [done| |by apply has_line_of_sight_self].
    unfold get_distance. lia.
  - intros Hneg. destruct vis as [|t vis0]; [done|].
    assert (t ∈ t :: vis0) as Ht by left.
    apply Hmem in Ht as (_ & Hd & _). unfold get_distance in Hd. lia.
Qed.

(** Witness of X7: the scenario grid from (0, 2), radii 2 and 4. *)
Lemma vision_range_grows_with_radius_witness :
  wf_tiles scenario_maze ∧ in_bounds scenario_maze (0, 2).1 (0, 2).2 = true
  ∧ 2 ≤ 4
  ∧ ∃ vis vis',
      get_tiles_in_vision_range scenario_maze (Some (0, 2)) 2 = Some vis
      ∧ get_tiles_in_vision_range scenario_maze (Some (0, 2)) 4 = Some vis'
      ∧ vis ⊆ vis'
      ∧ (0 ≤ 2 → (0, 2) ∈ vis)
      ∧ (2 < 0 → vis = []).
Proof.
  assert (wf_tiles scenario_maze) as Hwf
    by (split; [reflexivity|repeat constructor]).
  assert (2 ≤ 4) as Hle by lia.
  split; [exact Hwf|]. split; [reflexivity|]. split; [exact Hle|].
  exact (vision_range_grows_with_radius scenario_maze (0, 2) 2 4
           Hwf eq_refl Hle).
Defined.

(** ** Sight between diagonal neighbours *)

Lemma los_walk_diagonal_up (x y : Z) :
  los_walk (x, y) (x + 1, y + 1) = [(x, y); (x, y + 1); (x + 1, y + 1)].
Proof.
  unfold los_walk.
  replace (x + 1 - x) with 1 by lia. replace (y + 1 - y) with 1 by lia.
  rewrite (proj2 (Z.ltb_lt x (x + 1))), (proj2 (Z.ltb_lt y (y + 1))) by lia.
  reflexivity.
Qed.

Lemma los_walk_diagonal_down (x y : Z) :
  los_walk (x + 1, y + 1) (x, y) = [(x + 1, y + 1); (x + 1, y); (x, y)].
Proof.
  unfold los_walk.
  replace (x - (x + 1)) with (-1) by lia.
  replace (y - (y + 1)) with (-1) by lia.
  rewrite (proj2 (Z.ltb_ge (x + 1) x)), (proj2 (Z.ltb_ge (y + 1) y)) by lia.
  replace [(x + 1, y + 1); (x + 1, y); (x, y)]
    with [(x + 1, y + 1); (x + 1, y + 1 + -1); (x + 1 + -1, y + 1 + -1)]
    by (repeat (f_equal; try lia)).
  reflexivity.
Qed.

Lemma has_line_of_sight_true_iff (m : Maze) (a b : Coord) :
  wf_tiles m →
  has_line_of_sight m a b = Some true ↔
  ∀ t, t ∈ los_walk a b → t ≠ b → is_traversable m t = Some true.
Proof.
  intros Hwf. split.
  - intros Hlos t Ht Hne.
    destruct (is_traversable_total m t Hwf) as [[|] Htr]; [done|].
    assert (has_line_of_sight m a b = Some false) as Hfalse
      by (apply has_line_of_sight_false_iff; eauto).
    congruence.
  - intros Hall.
    destruct (has_line_of_sight_total m a b Hwf) as [[|] Hlos]; [done|].
    apply has_line_of_sight_false_iff in Hlos as (t & Ht & Hne & Htr); [|done].
    rewrite Hall in Htr; done.
Qed.

(** X8: sight between diagonal neighbours goes round the corner, first in
    [y] then in [x], so it is not symmetric.  On a well-formed grid, from
    [(x, y)] to [(x+1, y+1)] there is a line of sight exactly when [(x, y)]
    and [(x, y+1)] are traversable; back from [(x+1, y+1)] to [(x, y)] there
    is one exactly when [(x+1, y+1)] and [(x+1, y)] are. *)
Theorem has_line_of_sight_diagonal (m : Maze) (x y : Z) :
  wf_tiles m →
  (has_line_of_sight m (x, y) (x + 1, y + 1) = Some true ↔
   is_traversable m (x, y) = Some true
   ∧ is_traversable m (x, y + 1) = Some true)
  ∧ (has_line_of_sight m (x + 1, y + 1) (x, y) = Some true ↔
     is_traversable m (x + 1, y + 1) = Some true
     ∧ is_traversable m (x + 1, y) = Some true).
Proof.
  intros Hwf. split.
  - rewrite has_line_of_sight_true_iff, los_walk_diagonal_up by done. split.
    + intros Hall. split; apply Hall.
      * by left.
      * intros Heq. inversion Heq. lia.
      * right. by left.
      * intros Heq. inversion Heq. lia.
    + intros [H1 H2] t Ht Hne.
      apply elem_of_cons in Ht as [->|Ht]; [done|].
      apply elem_of_cons in Ht as [->|Ht]; [done|].
      apply list_elem_of_singleton in Ht. done.
  - rewrite has_line_of_sight_true_iff, los_walk_diagonal_down by done. split.
    + intros Hall. split; apply Hall.
      * by left.
      * intros Heq. inversion Heq. lia.
      * right. by left.
      * intros Heq. inversion Heq. lia.
    + intros [H1 H2] t Ht Hne.
      apply elem_of_cons in Ht as [->|Ht]; [done|].
      apply elem_of_cons in Ht as [->|Ht]; [done|].
      apply list_elem_of_singleton in Ht. done.
Qed.

(** Witness of X8: the corner (1, 1) -- (2, 2) of the scenario grid. *)
Lemma has_line_of_sight_diagonal_witness :
  wf_tiles scenario_maze
  ∧ (has_line_of_sight scenario_maze (1, 1) (1 + 1, 1 + 1) = Some true ↔
     is_traversable scenario_maze (1, 1) = Some true
     ∧ is_traversable scenario_maze (1, 1 + 1) = Some true)
  ∧ (has_line_of_sight scenario_maze (1 + 1, 1 + 1) (1, 1) = Some true ↔
     is_traversable scenario_maze (1 + 1, 1 + 1) = Some true
     ∧ is_traversable scenario_maze (1 + 1, 1) = Some true).
Proof.
  assert (wf_tiles scenario_maze) as Hwf
    by (split; [reflexivity|repeat constructor]).
  split; [exact Hwf|].
  exact (has_line_of_sight_diagonal scenario_maze 1 1 Hwf).
Defined.

(** With a wall at (0, 1) only, (0, 0) does not see (1, 1) but (1, 1) sees
    (0, 0). *)
Lemma line_of_sight_not_symmetric :
  (m ← Maze_init (Some 2) (Some 2) (Some [[0; 0]; [1; 0]]);
   ab ← has_line_of_sight m (0, 0) (1, 1);
   ba ← has_line_of_sight m (1, 1) (0, 0);
   Some (ab, ba)) = Some (false, true).
Proof. by_evaluation. Qed.

(** ** More on construction *)

Lemma grid_get_Some {A} (g : list (list A)) (x y : Z) (v : A) :
  grid_get g x y = Some v ↔
  ∃ row, py_index g y = Some row ∧ py_index row x = Some v.
Proof.
  unfold grid_get. destruct (py_index g y) as [row|]; simpl.
  - split; [eauto|]. by intros (row' & [= <-] & ?).
  - split; [done|]. by intros (row' & ? & _).
Qed.

(** [_generate_tiles] returns only if the layout has every cell it reads. *)
Lemma _generate_tiles_returns (w h : Z) (lay : list (list Z))
    (ts : list (list Tile)) (x y : Z) :
  _generate_tiles w h lay = Some ts → 0 ≤ x < w → 0 ≤ y < h →
  is_Some (grid_get lay x y).
Proof.
  unfold _generate_tiles. intros Hrun Hx Hy.
  apply (for_each_returns _ _ _ _ y) in Hrun as [s0 [s1 Hs1]];
    [|apply elem_of_py_range; lia].
  cbn beta in Hs1.
  destruct (for_each (py_range 0 w) _ []) as [row|] eqn:Hrow; [|done].
  apply (for_each_returns _ _ _ _ x) in Hrow as [r0 [r1 Hr1]];
    [|apply elem_of_py_range; lia].
  cbn beta in Hr1.
  destruct (py_index lay y) as [lrow|] eqn:Hlrow; [|done].
  cbn [mbind option_bind] in Hr1.
  destruct (py_index lrow x) as [v|] eqn:Hv; [|done].
  exists v. apply grid_get_Some. eauto.
Qed.

(** With every cell present, [_generate_tiles] builds one fresh tile per
    coordinate, of the kind its layout value gives. *)
Lemma _generate_tiles_complete (w h : Z) (lay : list (list Z)) :
  (∀ x y, 0 ≤ x < w → 0 ≤ y < h → is_Some (grid_get lay x y)) →
  _generate_tiles w h lay
  = Some ((λ y, (λ x, new_tile x y
                        (if decide (default 0 (grid_get lay x y) = 0)
                         then "traversable" else "wall"))
                <$> py_range 0 w) <$> py_range 0 h).
Proof.
  intros Hcells. unfold _generate_tiles.
  rewrite (for_each_map _ _
    (λ y, (λ x, new_tile x y
                  (if decide (default 0 (grid_get lay x y) = 0)
                   then "traversable" else "wall")) <$> py_range 0 w));
    [done|].
  intros y acc Hy%elem_of_py_range.
  rewrite (for_each_map _ _
    (λ x, new_tile x y
            (if decide (default 0 (grid_get lay x y) = 0)
             then "traversable" else "wall"))); [done|].
  intros x row Hx%elem_of_py_range.
  destruct (Hcells x y) as [v Hv]; [lia|lia|].
  rewrite Hv. apply grid_get_Some in Hv as (lrow & -> & Hv).
  cbn [mbind option_bind]. by rewrite Hv.
Qed.

(** X9: construction from a layout.  For non-zero dimensions and a non-empty
    layout, the constructor returns exactly when the layout has a value at
    every [[y][x]] with [0 <= x < width], [0 <= y < height] (otherwise it
    raises).  The grid it returns records the dimensions and the layout as
    given, and its tile at [(x, y)] is a fresh tile (no events, no objects,
    no description) that is traversable exactly when the layout value is 0. *)
Theorem Maze_init_with_layout (w h : Z) (lay : list (list Z)) :
  w ≠ 0 → h ≠ 0 → lay ≠ [] →
  (is_Some (Maze_init (Some w) (Some h) (Some lay)) ↔
   ∀ x y, 0 ≤ x < w → 0 ≤ y < h → is_Some (grid_get lay x y))
  ∧ ∀ m, Maze_init (Some w) (Some h) (Some lay) = Some m →
      width m = w ∧ height m = h ∧ layout m = lay
      ∧ ∀ x y, 0 ≤ x < w → 0 ≤ y < h →
          ∃ v, grid_get lay x y = Some v
            ∧ tile_at m (x, y)
              = Some (mkTile x y (if decide (v = 0) then "traversable"
                                  else "wall") ∅ "" ∅)
            ∧ is_traversable m (x, y) = Some (bool_decide (v = 0)).
Proof.
  intros Hw Hh Hlay.
  assert (Maze_init (Some w) (Some h) (Some lay)
          = (ts ← _generate_tiles w h lay; Some (mkMaze w h lay ts)))
    as Hinit.
  { unfold Maze_init.
    assert (truthy_int (Some w) && truthy_int (Some h) = true) as ->.
    { apply andb_true_iff. simpl. rewrite !negb_true_iff, !Z.eqb_neq. done. }
    assert (truthy_list (Some lay) = true) as -> by (by destruct lay).
    done. }
  rewrite Hinit. split.
  - split.
    + intros [m Hm] x y Hx Hy.
      destruct (_generate_tiles w h lay) as [ts|] eqn:Hts; [|done].
      by eapply _generate_tiles_returns.
    + intros Hcells. rewrite _generate_tiles_complete by done. by eexists.
  - intros m Hm.
    destruct (_generate_tiles w h lay) as [ts|] eqn:Hts; [|done].
    cbn [mbind option_bind] in Hm. injection Hm as <-.
    cbn [width height layout]. split_and!; try done.
    intros x y Hx Hy.
    assert (∀ x y, 0 ≤ x < w → 0 ≤ y < h → is_Some (grid_get lay x y))
      as Hcells by (intros; by eapply _generate_tiles_returns).
    rewrite _generate_tiles_complete in Hts by done. injection Hts as <-.
    destruct (Hcells x y Hx Hy) as [v Hv]. exists v.
    assert (get_tile
              (mkMaze w h lay
                 ((λ y, (λ x, new_tile x y
                                (if decide (default 0 (grid_get lay x y) = 0)
                                 then "traversable" else "wall"))
                        <$> py_range 0 w) <$> py_range 0 h)) x y
            = Some (new_tile x y (if decide (v = 0) then "traversable"
                                  else "wall"))) as Ht.
    { unfold get_tile. cbn [tiles].
      rewrite (grid_get_map_range h w
        (λ x y, new_tile x y
                  (if decide (default 0 (grid_get lay x y) = 0)
                   then "traversable" else "wall"))) by done.
      by rewrite Hv. }
    assert (in_bounds
              (mkMaze w h lay
                 ((λ y, (λ x, new_tile x y
                                (if decide (default 0 (grid_get lay x y) = 0)
                                 then "traversable" else "wall"))
                        <$> py_range 0 w) <$> py_range 0 h)) x y = true)
      as Hb by (apply in_bounds_spec; cbn [width height]; lia).
    split_and!; [done|by rewrite tile_at_in_bounds| ].
    unfold is_traversable. rewrite Hb, Ht. cbn [negb mbind option_bind].
    f_equal. cbn [tile_type new_tile].
    destruct (decide (v = 0)) as [Hv0|Hv0].
    + by rewrite !bool_decide_eq_true_2.
    + by rewrite !bool_decide_eq_false_2.
Qed.

(** Witness of X9: the 5 x 5 layout with one wall. *)
Lemma Maze_init_with_layout_witness :
  5 ≠ 0 ∧ 5 ≠ 0 ∧ scenario_layout ≠ []
  ∧ (is_Some (Maze_init (Some 5) (Some 5) (Some scenario_layout)) ↔
     ∀ x y, 0 ≤ x < 5 → 0 ≤ y < 5 → is_Some (grid_get scenario_layout x y))
  ∧ ∀ m, Maze_init (Some 5) (Some 5) (Some scenario_layout) = Some m →
      width m = 5 ∧ height m = 5 ∧ layout m = scenario_layout
      ∧ ∀ x y, 0 ≤ x < 5 → 0 ≤ y < 5 →
          ∃ v, grid_get scenario_layout x y = Some v
            ∧ tile_at m (x, y)
              = Some (mkTile x y (if decide (v = 0) then "traversable"
                                  else "wall") ∅ "" ∅)
            ∧ is_traversable m (x, y) = Some (bool_decide (v = 0)).
Proof.
  assert (5 ≠ 0) as H5 by lia.
  assert (scenario_layout ≠ []) as Hlay by discriminate.
  split; [exact H5|]. split; [exact H5|]. split; [exact Hlay|].
  exact (Maze_init_with_layout 5 5 scenario_layout H5 H5 Hlay).
Defined.

(** A layout with a row too short makes the constructor raise. *)
Lemma Maze_init_short_layout :
  Maze_init (Some 2) (Some 2) (Some [[0; 0]; [0]]) = None.
Proof. by_evaluation. Qed.

(** X10: construction without a layout.  For non-zero dimensions, with the
    layout argument left out or given as the empty list, the constructor
    returns a grid of the dimensions given whose layout is all zeros and
    whose tiles are all fresh traversable tiles. *)
Theorem Maze_init_without_layout (w h : Z) (lay : option (list (list Z))) :
  w ≠ 0 → h ≠ 0 → lay = None ∨ lay = Some [] →
  ∃ m, Maze_init (Some w) (Some h) lay = Some m
    ∧ width m = w ∧ height m = h ∧ wf_tiles m ∧ wf_layout m
    ∧ ∀ c, in_bounds m c.1 c.2 = true →
           tile_at m c = Some (mkTile c.1 c.2 "traversable" ∅ "" ∅)
           ∧ is_traversable m c = Some true
           ∧ grid_get (layout m) c.1 c.2 = Some 0.
Proof.
  intros Hw Hh Hlay. unfold Maze_init.
  assert (truthy_int (Some w) && truthy_int (Some h) = true) as ->.
  { apply andb_true_iff. simpl. rewrite !negb_true_iff, !Z.eqb_neq. done. }
  assert (truthy_list lay = false) as -> by (by destruct Hlay as [-> | ->]).
  cbn [default from_option]. unfold id.
  rewrite _generate_tiles_default. cbn [mbind option_bind].
  eexists. split; [done|]. cbn [width height layout].
  split_and!; try done.
  - apply (grid_shape_map_range h w (λ x y, new_tile x y "traversable")).
  - apply (grid_shape_map_range h w (λ _ _, 0)).
  - intros [x y] Hb. cbn [fst snd] in *.
    pose proof Hb as [Hx Hy]%in_bounds_spec. cbn [width height] in Hx, Hy.
    assert (get_tile
              (mkMaze w h (_generate_default_layout w h)
                 ((λ y, (λ x, new_tile x y "traversable") <$> py_range 0 w)
                  <$> py_range 0 h)) x y
            = Some (new_tile x y "traversable")) as Ht.
    { unfold get_tile. cbn [tiles].
      by rewrite (grid_get_map_range h w (λ x y, new_tile x y "traversable")). }
    split_and!.
    + by rewrite tile_at_in_bounds.
    + unfold is_traversable. by rewrite Hb, Ht.
    + by apply grid_get_default_layout.
Qed.

(** Witness of X10: [Maze(width=3, height=2, layout=[])]. *)
Lemma Maze_init_without_layout_witness :
  3 ≠ 0 ∧ 2 ≠ 0
  ∧ (Some ([] : list (list Z)) = None ∨ Some ([] : list (list Z)) = Some [])
  ∧ ∃ m, Maze_init (Some 3) (Some 2) (Some []) = Some m
      ∧ width m = 3 ∧ height m = 2 ∧ wf_tiles m ∧ wf_layout m
      ∧ ∀ c, in_bounds m c.1 c.2 = true →
             tile_at m c = Some (mkTile c.1 c.2 "traversable" ∅ "" ∅)
             ∧ is_traversable m c = Some true
             ∧ grid_get (layout m) c.1 c.2 = Some 0.
Proof.
  assert (3 ≠ 0) as H3 by lia. assert (2 ≠ 0) as H2 by lia.
  assert (Some ([] : list (list Z)) = None
          ∨ Some ([] : list (list Z)) = Some []) as Hlay by (right; reflexivity).
  split; [exact H3|]. split; [exact H2|]. split; [exact Hlay|].
  exact (Maze_init_without_layout 3 2 (Some []) H3 H2 Hlay).
Defined.

(** Every grid the constructor returns has a layout value at every
    coordinate: [_generate_tiles] reads them all, and raises when one is
    missing.  The layout may be larger than the grid. *)
Lemma Maze_init_layout_covers (w h : option Z) (lay : option (list (list Z)))
    (m : Maze) :
  Maze_init w h lay = Some m → wf_tiles m ∧ layout_covers m.
Proof.
  intros Hrun. split; [by eapply Maze_init_wf_tiles|].
  unfold Maze_init in Hrun.
  destruct (if truthy_int w && truthy_int h then _ else _)
    as [[w' h'] lay'] eqn:Hargs.
  destruct (_generate_tiles w' h' lay') as [ts|] eqn:Hts; [|done].
  cbn [mbind option_bind] in Hrun. injection Hrun as <-.
  intros x y Hx Hy. cbn [width height layout] in *.
  by eapply _generate_tiles_returns.
Qed.

(** The operations keep this: the event operations leave the dimensions and
    the layout as they are, and what [_expand_maze] returns has a layout of
    exactly its dimensions. *)
Lemma layout_covers_invariant (m : Maze) :
  wf_tiles m → layout_covers m →
  (∀ c e m', add_event m c e = Some m' → layout_covers m')
  ∧ (∀ c e m', remove_event m c e = Some m' → layout_covers m')
  ∧ (∀ s c m', remove_subject_events_from_tile m s c = Some m' →
       layout_covers m')
  ∧ (∀ e c m', remove_event_from_tile m e c = Some m' → layout_covers m')
  ∧ (∀ nw nh m', _expand_maze m nw nh = Some m' → layout_covers m')
  ∧ (∀ e c m', add_event_from_tile m e c = Some m' → layout_covers m').
Proof.
  intros Hwf Hcov.
  assert (∀ m0 m' x y t,
            wf_tiles m0 → layout_covers m0 → set_tile m0 x y t = Some m' →
            layout_covers m') as Hset.
  { intros m0 m' x y t Hwf0 Hcov0 Hrun.
    apply set_tile_returns in Hrun as (_ & Hw & Hh & Hl); [|done].
    unfold layout_covers. rewrite Hw, Hh, Hl. apply Hcov0. }
  assert (∀ x y f m',
            (t ← get_tile m x y; set_tile m x y (f t)) = Some m' →
            layout_covers m') as Hupdate.
  { intros x y f m' Hrun.
    destruct (get_tile m x y) as [t|]; [|done].
    cbn [mbind option_bind] in Hrun. by eapply Hset. }
  split_and!.
  - intros [x y] e m'. unfold add_event.
    destruct (in_bounds m x y); [apply Hupdate|by intros [= <-]].
  - intros [x y] e m'. unfold remove_event.
    destruct (in_bounds m x y);
      [apply (Hupdate x y (λ t, set_events t (tile_events t ∖ {[e]})))
      |by intros [= <-]].
  - intros s [x y] m'. unfold remove_subject_events_from_tile.
    destruct (in_bounds m x y); cbn [negb]; [|by intros [= <-]].
    apply (Hupdate x y
             (λ t, set_events t
                     (tile_events t
                      ∖ filter (λ event, has_subject s event) (tile_events t)))).
  - intros e [x y] m'. unfold remove_event_from_tile.
    destruct (in_bounds m x y); cbn [negb]; [|by intros [= <-]].
    apply (Hupdate x y
             (λ t, set_events t (events_after_remove e (tile_events t)))).
  - intros nw nh m' Hrun. apply _expand_maze_returns in Hrun.
    apply wf_layout_covers. tauto.
  - intros e [x y] m'. unfold add_event_from_tile. intros Hrun.
    assert (∃ m1, (if negb (in_bounds m x y)
                   then _expand_maze m (Z.max (width m) (x + 1))
                          (Z.max (height m) (y + 1))
                   else Some m) = Some m1
              ∧ wf_tiles m1 ∧ layout_covers m1)
      as (m1 & Hm1 & Hwf1 & Hcov1).
    { destruct (in_bounds m x y); cbn [negb] in *.
      - by exists m.
      - destruct (_expand_maze m _ _) as [m1|] eqn:Hexp; [|done].
        apply _expand_maze_returns in Hexp as (_ & _ & Hwf1 & Hlay1).
        exists m1. split_and!; [done|done|by apply wf_layout_covers]. }
    rewrite Hm1 in Hrun. cbn [mbind option_bind] in Hrun.
    destruct (get_tile m1 x y) as [t|]; [|done].
    cbn [mbind option_bind] in Hrun. by eapply Hset.
Qed.

(** A 2 x 2 grid constructed with a 3 x 3 layout keeps that layout;
    [_expand_maze] to 2 x 2 leaves its dimensions and tiles as they are and
    cuts the layout down to 2 x 2. *)
Lemma Maze_init_oversized_layout :
  (m ← Maze_init (Some 2) (Some 2) (Some [[0; 0; 1]; [0; 1; 0]; [1; 0; 0]]);
   m' ← _expand_maze m 2 2;
   Some (width m, height m, layout m, is_traversable m (1, 1),
         width m', height m', layout m', is_traversable m' (1, 1)))
  = Some (2, 2, [[0; 0; 1]; [0; 1; 0]; [1; 0; 0]], Some false,
          2, 2, [[0; 0]; [0; 1]], Some false).
Proof. by_evaluation. Qed.

(** ** More on the event index *)

Lemma get_events_at_tile_at (m : Maze) (c : Coord) :
  get_events_at m c
  = if in_bounds m c.1 c.2
    then t ← get_tile m c.1 c.2; Some (elements (tile_events t))
    else Some [].
Proof.
  destruct c as [x y]. unfold get_events_at. cbn [fst snd].
  by destruct (in_bounds m x y).
Qed.

(** X11: a lookup after an insert.  On a well-formed grid, after
    [add_event(tile, event)] on an in-bounds tile [get_events_at(tile)] lists,
    once each, the event and the events the tile held before, and
    [get_events_at] of every other coordinate returns what it returned
    before. *)
Theorem get_events_at_after_add_event (m : Maze) (c : Coord) (e : Event) :
  wf_tiles m → in_bounds m c.1 c.2 = true →
  ∃ m' evs, add_event m c e = Some m'
    ∧ get_events_at m' c = Some evs ∧ NoDup evs
    ∧ (∀ e', e' ∈ evs ↔ e' = e ∨ e' ∈ event_set m c)
    ∧ ∀ c', c' ≠ c → get_events_at m' c' = get_events_at m c'.
Proof.
  intros Hwf Hb.
  destruct (add_event_spec m c e Hwf) as (m' & Hadd & Hwf' & Hcase).
  rewrite Hb in Hcase. destruct Hcase as (Hev & (Hw & Hh & _ & Hfr) & _).
  assert (in_bounds m' c.1 c.2 = true) as Hb'
    by (by rewrite (in_bounds_same_dims m m')).
  destruct (get_events_at_in_bounds m' c Hwf' Hb') as (evs & Hevs & Hnd & Hmem).
  exists m', evs. split_and!; try done.
  - intros e'. rewrite Hmem, Hev. set_solver.
  - intros c' Hne. rewrite !get_events_at_tile_at.
    rewrite (in_bounds_same_dims m m') by done.
    destruct (in_bounds m c'.1 c'.2) eqn:Hc'; [|done].
    specialize (Hfr c' Hne). destruct c' as [x y].
    rewrite !tile_at_in_bounds in Hfr
      by (done || by rewrite (in_bounds_same_dims m m')).
    cbn [fst snd]. by rewrite Hfr.
Qed.

(** Witness of X11: adding an event at (1, 1) of the scenario grid. *)
Lemma get_events_at_after_add_event_witness :
  wf_tiles scenario_maze ∧ in_bounds scenario_maze (1, 1).1 (1, 1).2 = true
  ∧ ∃ m' evs, add_event scenario_maze (1, 1) bob_eating = Some m'
      ∧ get_events_at m' (1, 1) = Some evs ∧ NoDup evs
      ∧ (∀ e', e' ∈ evs ↔ e' = bob_eating ∨ e' ∈ event_set scenario_maze (1, 1))
      ∧ ∀ c', c' ≠ (1, 1) →
              get_events_at m' c' = get_events_at scenario_maze c'.
Proof.
  assert (wf_tiles scenario_maze) as Hwf
    by (split; [reflexivity|repeat constructor]).
  split; [exact Hwf|]. split; [reflexivity|].
  exact (get_events_at_after_add_event scenario_maze (1, 1) bob_eating
           Hwf eq_refl).
Defined.

(** Two rewritings of the event set of one in-bounds tile, one after the
    other: both return, and when the second undoes the first the grid is
    back as it was. *)
Lemma update_events_twice (m : Maze) (x y : Z) (f g : gset Event → gset Event) :
  wf_tiles m → in_bounds m x y = true →
  ∃ t m1 m2,
    get_tile m x y = Some t
    ∧ set_tile m x y (set_events t (f (tile_events t))) = Some m1
    ∧ get_tile m1 x y = Some (set_events t (f (tile_events t)))
    ∧ in_bounds m1 x y = true
    ∧ set_tile m1 x y (set_events (set_events t (f (tile_events t)))
                         (g (f (tile_events t)))) = Some m2
    ∧ (g (f (tile_events t)) = tile_events t → m2 = m).
Proof.
  intros Hwf Hb.
  destruct (update_events_spec m x y f Hwf Hb)
    as (t & m1 & Ht & Hset1 & Hwf1 & Hat & Hat1 & _ & Hw1 & Hh1 & Hl1 & Hfr1).
  assert (in_bounds m1 x y = true) as Hb1
    by (by rewrite (in_bounds_same_dims m m1)).
  destruct (update_events_spec m1 x y g Hwf1 Hb1)
    as (t1 & m2 & Ht1 & Hset2 & Hwf2 & _ & Hat2 & _ & Hw2 & Hh2 & Hl2 & Hfr2).
  rewrite tile_at_in_bounds in Hat1 by done.
  rewrite Hat1 in Ht1. injection Ht1 as <-.
  cbn [tile_events set_events] in Hset2, Hat2.
  exists t, m1, m2. split_and!; try done.
  intros Hundo. apply grid_ext; try done; try congruence.
  intros c. destruct (decide (c = (x, y))) as [->|Hc].
  - rewrite Hat2, Hat. f_equal. rewrite Hundo. by destruct t.
  - by rewrite Hfr2, Hfr1.
Qed.

(** X12: [remove_event] and [add_event] undo each other.  On a well-formed
    grid and an in-bounds tile: removing an event the tile does not hold
    changes nothing; adding such an event and removing it again gives the
    grid back; and removing an event the tile holds and adding it again
    gives the grid back. *)
Theorem remove_event_add_event (m : Maze) (c : Coord) (e : Event) :
  wf_tiles m → in_bounds m c.1 c.2 = true →
  (e ∉ event_set m c →
   remove_event m c e = Some m
   ∧ (m1 ← add_event m c e; remove_event m1 c e) = Some m)
  ∧ (e ∈ event_set m c →
     (m1 ← remove_event m c e; add_event m1 c e) = Some m).
Proof.
  intros Hwf Hb. destruct c as [x y]. cbn [fst snd] in Hb.
  unfold event_set. rewrite tile_at_in_bounds by done.
  split.
  - intros Hnotin. split.
    + unfold remove_event. rewrite Hb.
      destruct (get_tile_in_bounds m x y Hwf Hb) as [t Ht].
      rewrite Ht in *. cbn [mbind option_bind from_option] in *.
      replace (tile_events t ∖ {[e]}) with (tile_events t) by set_solver.
      rewrite set_events_same. by apply set_tile_same.
    + destruct (update_events_twice m x y (λ evs, {[e]} ∪ evs)
                  (λ evs, evs ∖ {[e]}) Hwf Hb)
        as (t & m1 & m2 & Ht & Hset1 & Ht1 & Hb1 & Hset2 & Hundo).
      rewrite Ht in Hnotin. cbn [from_option] in Hnotin.
      unfold add_event. rewrite Hb, Ht. cbn [mbind option_bind].
      unfold add_to_tile. rewrite Hset1. cbn [mbind option_bind].
      unfold remove_event. rewrite Hb1, Ht1. cbn [mbind option_bind].
      cbn [tile_events set_events]. cbn [tile_events set_events] in Hset2.
      rewrite Hset2. f_equal. apply Hundo. set_solver.
  - intros Hin.
    destruct (update_events_twice m x y (λ evs, evs ∖ {[e]})
                (λ evs, {[e]} ∪ evs) Hwf Hb)
      as (t & m1 & m2 & Ht & Hset1 & Ht1 & Hb1 & Hset2 & Hundo).
    rewrite Ht in Hin. cbn [from_option] in Hin.
    unfold remove_event. rewrite Hb, Ht. cbn [mbind option_bind].
    rewrite Hset1. cbn [mbind option_bind].
    unfold add_event. rewrite Hb1, Ht1. cbn [mbind option_bind].
    unfold add_to_tile. cbn [tile_events set_events].
    cbn [tile_events set_events] in Hset2.
    rewrite Hset2. f_equal. apply Hundo.
    apply set_eq. intros e'. rewrite elem_of_union, elem_of_difference,
      elem_of_singleton.
    destruct (decide (e' = e)) as [->|]; tauto.
Qed.

(** Witness of X12: the tile (1, 1) of the 3 x 3 grid, which holds one
    event. *)
Lemma remove_event_add_event_witness :
  wf_tiles small_world ∧ in_bounds small_world (1, 1).1 (1, 1).2 = true
  ∧ (bob_eating ∉ event_set small_world (1, 1) →
     remove_event small_world (1, 1) bob_eating = Some small_world
     ∧ (m1 ← add_event small_world (1, 1) bob_eating;
        remove_event m1 (1, 1) bob_eating) = Some small_world)
  ∧ (bob_eating ∈ event_set small_world (1, 1) →
     (m1 ← remove_event small_world (1, 1) bob_eating;
      add_event m1 (1, 1) bob_eating) = Some small_world).
Proof.
  assert (wf_tiles small_world) as Hwf
    by (split; [reflexivity|repeat constructor]).
  split; [exact Hwf|]. split; [reflexivity|].
  exact (remove_event_add_event small_world (1, 1) bob_eating Hwf eq_refl).
Defined.

Lemma remove_subject_events_from_tile_unfold (m : Maze) (s : string)
    (x y : Z) :
  in_bounds m x y = true →
  remove_subject_events_from_tile m s (x, y)
  = (t ← get_tile m x y;
     set_tile m x y
       (set_events t
          (tile_events t
           ∖ filter (λ event, has_subject s event) (tile_events t)))).
Proof. intros Hb. unfold remove_subject_events_from_tile. by rewrite Hb. Qed.

Lemma remove_event_from_tile_unfold (m : Maze) (e : Event) (x y : Z) :
  in_bounds m x y = true →
  remove_event_from_tile m e (x, y)
  = (t ← get_tile m x y;
     set_tile m x y (set_events t (events_after_remove e (tile_events t)))).
Proof. intros Hb. unfold remove_event_from_tile. by rewrite Hb. Qed.

(** X13: removal by subject.  On a well-formed grid
    [remove_subject_events_from_tile] returns; on an in-bounds tile it
    removes exactly the stored non-empty tuples whose first component is the
    subject and touches nothing else; out of bounds it changes nothing; and
    doing it a second time changes nothing more. *)
Theorem remove_subject_events_from_tile_removes (m : Maze) (s : string)
    (c : Coord) :
  wf_tiles m →
  ∃ m', remove_subject_events_from_tile m s c = Some m'
    ∧ (if in_bounds m c.1 c.2 then
         (∀ e, e ∈ event_set m' c ↔
               e ∈ event_set m c ∧ ¬ ∃ rest, e = EvTuple (s :: rest))
         ∧ same_grid_except m m' c
       else m' = m)
    ∧ remove_subject_events_from_tile m' s c = Some m'.
Proof.
  intros Hwf.
  destruct (remove_subject_events_from_tile_spec m s c Hwf)
    as (m' & Hrm & Hwf' & Hcase).
  exists m'. split_and!; try done.
  destruct c as [x y]. cbn [fst snd] in *.
  destruct (in_bounds m x y) eqn:Hb; [|by subst m'].
  destruct Hcase as (_ & Hw & Hh & _ & _).
  assert (in_bounds m' x y = true) as Hb'
    by (by rewrite (in_bounds_same_dims m m')).
  rewrite remove_subject_events_from_tile_unfold in Hrm |- * by done.
  destruct (get_tile_in_bounds m x y Hwf Hb) as [t Ht].
  rewrite Ht in Hrm. cbn [mbind option_bind] in Hrm.
  destruct (set_tile_spec m x y
              (set_events t
                 (tile_events t
                  ∖ filter (λ event, has_subject s event) (tile_events t)))
              Hwf Hb) as (m2 & Hset & _ & Hat & _).
  rewrite Hset in Hrm. injection Hrm as <-.
  rewrite tile_at_in_bounds in Hat by done.
  rewrite Hat. cbn [mbind option_bind tile_events set_events].
  match goal with
  | |- set_tile _ _ _ (set_events _ ?E) = _ =>
      replace E with (tile_events t
                      ∖ filter (λ event, has_subject s event) (tile_events t))
  end.
  - apply set_tile_same; [done|done|].
    rewrite Hat. by destruct t.
  - apply set_eq. intros e.
    rewrite !elem_of_difference, !elem_of_filter, !elem_of_difference.
    tauto.
Qed.

(** Witness of X13: removing the subject "Bob" from the tile of the removal
    scenario. *)
Lemma remove_subject_events_from_tile_removes_witness :
  wf_tiles three_events_world
  ∧ ∃ m', remove_subject_events_from_tile three_events_world "Bob" (0, 0)
          = Some m'
      ∧ (if in_bounds three_events_world (0, 0).1 (0, 0).2 then
           (∀ e, e ∈ event_set m' (0, 0) ↔
                 e ∈ event_set three_events_world (0, 0)
                 ∧ ¬ ∃ rest, e = EvTuple ("Bob" :: rest))
           ∧ same_grid_except three_events_world m' (0, 0)
         else m' = three_events_world)
      ∧ remove_subject_events_from_tile m' "Bob" (0, 0) = Some m'.
Proof.
  assert (wf_tiles three_events_world) as Hwf
    by (split; [reflexivity|repeat constructor]).
  split; [exact Hwf|].
  exact (remove_subject_events_from_tile_removes three_events_world "Bob"
           (0, 0) Hwf).
Defined.

Lemma matches_event_one_component (s : string) (e : Event) :
  matches_event [s] e = true ↔ e = EvTuple [] ∨ has_subject s e = true.
Proof.
  destruct e as [[|s' rest]|r]; unfold matches_event, prefix_match; simpl.
  - split; [by left|done].
  - rewrite !bool_decide_eq_true. rewrite take_0. split.
    + intros [= ->]. by right.
    + intros [?| ->]; done.
  - split; [done|]. by intros [?|?].
Qed.

Lemma matches_event_false_iff (s : string) (e : Event) :
  matches_event [s] e = false ↔
  ¬ (has_subject s e = true) ∧ e ≠ EvTuple [].
Proof.
  rewrite <- not_true_iff_false, matches_event_one_component. tauto.
Qed.

(** X14: the one-component pattern against removal by subject.  On a
    well-formed grid, when the tuple [(subject,)] is not itself stored on the
    tile, [remove_event_from_tile((subject,), tile)] leaves what
    [remove_subject_events_from_tile(subject, tile)] leaves, less the empty
    tuple (which every tuple pattern matches); so when the tile holds no
    empty tuple the two calls return the same grid. *)
Theorem remove_event_from_tile_subject_pattern (m : Maze) (s : string)
    (c : Coord) :
  wf_tiles m → EvTuple [s] ∉ event_set m c →
  ∃ m1 m2,
    remove_event_from_tile m (EvTuple [s]) c = Some m1
    ∧ remove_subject_events_from_tile m s c = Some m2
    ∧ event_set m1 c = event_set m2 c ∖ {[EvTuple []]}
    ∧ (EvTuple [] ∉ event_set m c → m1 = m2).
Proof.
  intros Hwf Habs.
  destruct (remove_event_from_tile_spec m (EvTuple [s]) c Hwf)
    as (m1 & Hrm1 & _ & Hcase1).
  destruct (remove_subject_events_from_tile_spec m s c Hwf)
    as (m2 & Hrm2 & _ & Hcase2).
  exists m1, m2. split_and!; try done.
  - destruct (in_bounds m c.1 c.2) eqn:Hb.
    + destruct Hcase1 as (Hev1 & _), Hcase2 as (Hev2 & _).
      apply set_eq. intros e. rewrite elem_of_difference, elem_of_singleton.
      rewrite Hev1, Hev2, events_after_remove_absent by done.
      assert (has_subject s e = true ↔ ∃ rest, e = EvTuple (s :: rest))
        as Hsub.
      { destruct e as [[|s' rest]|r]; simpl.
        - split; [done|]. by intros (? & ?).
        - rewrite bool_decide_eq_true. split.
          + intros ->. by eexists.
          + by intros (? & [= -> _]).
        - split; [done|]. by intros (? & ?). }
      rewrite <- Hsub, (matches_event_false_iff s e). tauto.
    + subst m1 m2. destruct c as [x y].
      unfold event_set. cbn [fst snd] in Hb.
      rewrite tile_at_out_of_bounds by done. set_solver.
  - intros Hempty. destruct c as [x y]. cbn [fst snd] in *.
    destruct (in_bounds m x y) eqn:Hb; [|by subst m1 m2].
    rewrite remove_event_from_tile_unfold in Hrm1 by done.
    rewrite remove_subject_events_from_tile_unfold in Hrm2 by done.
    unfold event_set in Habs, Hempty.
    rewrite tile_at_in_bounds in Habs, Hempty by done.
    destruct (get_tile m x y) as [t|]; [|done].
    cbn [mbind option_bind from_option] in *.
    assert (events_after_remove (EvTuple [s]) (tile_events t)
            = tile_events t
              ∖ filter (λ event, has_subject s event) (tile_events t))
      as Heq.
    { apply set_eq. intros e.
      rewrite events_after_remove_absent by done.
      rewrite elem_of_difference, elem_of_filter.
      rewrite (matches_event_false_iff s e), Is_true_true. split.
      - intros (He & Hn & _). split; [done|]. tauto.
      - intros (He & Hn). split_and!; [done|tauto|].
        intros ->. by apply Hempty. }
    rewrite Heq in Hrm1. congruence.
Qed.

(** Witness of X14: the subject "Bob" on the tile of the removal
    scenario. *)
Lemma remove_event_from_tile_subject_pattern_witness :
  wf_tiles three_events_world
  ∧ (EvTuple ["Bob"] ∉ event_set three_events_world (0, 0))
  ∧ ∃ m1 m2,
      remove_event_from_tile three_events_world (EvTuple ["Bob"]) (0, 0)
      = Some m1
      ∧ remove_subject_events_from_tile three_events_world "Bob" (0, 0)
        = Some m2
      ∧ event_set m1 (0, 0) = event_set m2 (0, 0) ∖ {[EvTuple []]}
      ∧ (EvTuple [] ∉ event_set three_events_world (0, 0) → m1 = m2).
Proof.
  assert (wf_tiles three_events_world) as Hwf
    by (split; [reflexivity|repeat constructor]).
  assert (EvTuple ["Bob"] ∉ event_set three_events_world (0, 0)) as Habs
    by (apply (bool_decide_eq_false_1
                 (EvTuple ["Bob"] ∈ event_set three_events_world (0, 0)));
        vm_compute; reflexivity).
  split; [exact Hwf|]. split; [exact Habs|].
  exact (remove_event_from_tile_subject_pattern three_events_world "Bob"
           (0, 0) Hwf Habs).
Defined.

(** A stored empty tuple is removed by the pattern and kept by the removal
    by subject. *)
Lemma empty_tuple_and_patterns :
  (m ← one_tile_world [EvTuple []; alice_eating];
   m1 ← remove_event_from_tile m (EvTuple ["Bob"]) (0, 0);
   m2 ← remove_subject_events_from_tile m "Bob" (0, 0);
   Some (elements (event_set m1 (0, 0)), elements (event_set m2 (0, 0))))
  = Some ([alice_eating], [alice_eating; EvTuple []]).
Proof. by_evaluation. Qed.

(** The tiles of the grid after [add_event]. *)
Lemma add_event_tiles (m : Maze) (c : Coord) (e : Event) :
  wf_tiles m →
  ∃ m', add_event m c e = Some m' ∧ wf_tiles m'
    ∧ width m' = width m ∧ height m' = height m ∧ layout m' = layout m
    ∧ ∀ c', tile_at m' c'
            = (λ t, if decide (c' = c) then add_to_tile t e else t)
              <$> tile_at m c'.
Proof.
  intros Hwf.
  destruct (add_event_spec m c e Hwf) as (m' & Hadd & Hwf' & Hcase).
  exists m'. split; [done|]. split; [done|].
  destruct (in_bounds m c.1 c.2) eqn:Hb.
  - destruct Hcase as (_ & (Hw & Hh & Hl & Hfr) & _).
    split_and!; try done.
    intros c'. destruct (decide (c' = c)) as [->|Hne].
    + destruct c as [x y]. cbn [fst snd] in Hb. unfold add_event in Hadd.
      rewrite Hb in Hadd.
      destruct (get_tile m x y) as [t|] eqn:Ht; [|done].
      cbn [mbind option_bind] in Hadd.
      destruct (set_tile_spec m x y (add_to_tile t e) Hwf Hb)
        as (m2 & Hset & _ & Hat & _).
      rewrite Hset in Hadd. injection Hadd as <-.
      rewrite Hat. rewrite (tile_at_in_bounds m) by done. by rewrite Ht.
    + rewrite Hfr by done. by destruct (tile_at m c').
  - subst m'. split_and!; try done.
    intros c'. destruct (decide (c' = c)) as [->|Hne].
    + destruct c as [x y]. by rewrite tile_at_out_of_bounds.
    + by destruct (tile_at m c').
Qed.

(** X15: additions commute.  On a well-formed grid, two [add_event] calls, on
    the same tile or on different tiles, in bounds or not, give the same grid
    in either order. *)
Theorem add_event_commutes (m : Maze) (c1 c2 : Coord) (e1 e2 : Event) :
  wf_tiles m →
  (m1 ← add_event m c1 e1; add_event m1 c2 e2)
  = (m1 ← add_event m c2 e2; add_event m1 c1 e1)
  ∧ is_Some (m1 ← add_event m c1 e1; add_event m1 c2 e2).
Proof.
  intros Hwf.
  destruct (add_event_tiles m c1 e1 Hwf)
    as (m1 & Hadd1 & Hwf1 & Hw1 & Hh1 & Hl1 & Ht1).
  destruct (add_event_tiles m1 c2 e2 Hwf1)
    as (m12 & Hadd12 & Hwf12 & Hw12 & Hh12 & Hl12 & Ht12).
  destruct (add_event_tiles m c2 e2 Hwf)
    as (m2 & Hadd2 & Hwf2 & Hw2 & Hh2 & Hl2 & Ht2).
  destruct (add_event_tiles m2 c1 e1 Hwf2)
    as (m21 & Hadd21 & Hwf21 & Hw21 & Hh21 & Hl21 & Ht21).
  rewrite Hadd1, Hadd2. cbn [mbind option_bind]. rewrite Hadd12, Hadd21.
  split; [|by eexists]. f_equal.
  apply grid_ext; try done; try congruence.
  intros c. rewrite Ht12, Ht1, Ht21, Ht2.
  destruct (tile_at m c) as [t|]; [|done]. cbn [fmap option_fmap option_map].
  f_equal.
  destruct (decide (c = c1)), (decide (c = c2)); try done.
  unfold add_to_tile, set_events. cbn [tile_events tile_x tile_y tile_type
    tile_description tile_objects].
  f_equal. set_solver.
Qed.

(** Witness of X15: two events, at (1, 1) and at (4, 2), on the scenario
    grid. *)
Lemma add_event_commutes_witness :
  wf_tiles scenario_maze
  ∧ (m1 ← add_event scenario_maze (1, 1) alice_eating;
     add_event m1 (4, 2) bob_eating)
    = (m1 ← add_event scenario_maze (4, 2) bob_eating;
       add_event m1 (1, 1) alice_eating)
  ∧ is_Some (m1 ← add_event scenario_maze (1, 1) alice_eating;
             add_event m1 (4, 2) bob_eating).
Proof.
  assert (wf_tiles scenario_maze) as Hwf
    by (split; [reflexivity|repeat constructor]).
  split; [exact Hwf|].
  exact (add_event_commutes scenario_maze (1, 1) (4, 2) alice_eating
           bob_eating Hwf).
Defined.

(** ** Expanding twice *)

Lemma maze_eq (m m' : Maze) :
  width m' = width m → height m' = height m →
  wf_tiles m → wf_tiles m' → wf_layout m → wf_layout m' →
  (∀ x y, 0 ≤ x < width m → 0 ≤ y < height m →
          get_tile m' x y = get_tile m x y
          ∧ grid_get (layout m') x y = grid_get (layout m) x y) →
  m' = m.
Proof.
  intros Hw Hh Hwf Hwf' Hlay Hlay' Hcells.
  unfold wf_tiles, wf_layout in *. rewrite Hw, Hh in Hwf', Hlay'.
  destruct m as [w h lay ts], m' as [w' h' lay' ts']. simpl in *. subst.
  f_equal.
  - apply (grid_eq h w); [done|done|]. intros x y Hx Hy.
    by apply Hcells.
  - apply (grid_eq h w); [done|done|]. intros x y Hx Hy.
    by apply (Hcells x y).
Qed.

(** X16: expansions compose.  On a well-formed grid, growing to
    [w1 x h1] and then to [w2 x h2] gives the same grid as growing to
    [w2 x h2] at once, and both return. *)
Theorem _expand_maze_twice (m : Maze) (w1 h1 w2 h2 : Z) :
  wf_tiles m → wf_layout m →
  width m ≤ w1 ≤ w2 → height m ≤ h1 ≤ h2 →
  (m1 ← _expand_maze m w1 h1; _expand_maze m1 w2 h2) = _expand_maze m w2 h2
  ∧ is_Some (_expand_maze m w2 h2).
Proof.
  intros Hwf Hlay Hw Hh.
  destruct (_expand_maze_spec m w1 h1 Hwf (wf_layout_covers m Hlay))
    as (m1 & Hrun1 & Hw1 & Hh1 & Hwf1 & Hlay1 & Hcells1).
  destruct (_expand_maze_spec m1 w2 h2 Hwf1 (wf_layout_covers m1 Hlay1))
    as (m12 & Hrun12 & Hw12 & Hh12 & Hwf12 & Hlay12 & Hcells12).
  destruct (_expand_maze_spec m w2 h2 Hwf (wf_layout_covers m Hlay))
    as (m2 & Hrun2 & Hw2 & Hh2 & Hwf2 & Hlay2 & Hcells2).
  rewrite Hrun1. cbn [mbind option_bind]. rewrite Hrun12, Hrun2.
  split; [|by eexists]. f_equal.
  apply maze_eq; try done; try congruence.
  intros x y Hx Hy. rewrite Hw2 in Hx. rewrite Hh2 in Hy.
  destruct (Hcells12 x y Hx Hy) as [Ht12 Hl12].
  destruct (Hcells2 x y Hx Hy) as [Ht2 Hl2].
  rewrite Ht12, Hl12, Ht2, Hl2, Hw1, Hh1.
  destruct (decide (y < h1 ∧ x < w1)) as [[Hy1 Hx1]|Hout].
  - destruct (Hcells1 x y) as [Ht1 Hl1]; [lia|lia|].
    rewrite Ht1, Hl1.
    rewrite (proj2 (Z.ltb_lt y h1)), (proj2 (Z.ltb_lt x w1)) by done.
    cbn [andb]. rewrite (decide_True (P := y < Z.min h1 h2 ∧ _)) by lia.
    split; [done|].
    repeat case_decide; try done; lia.
  - assert ((y <? h1) && (x <? w1) = false) as ->.
    { apply andb_false_iff. rewrite !Z.ltb_ge. lia. }
    assert ((y <? height m) && (x <? width m) = false) as ->.
    { apply andb_false_iff. rewrite !Z.ltb_ge. lia. }
    split; [done|]. repeat case_decide; try done; lia.
Qed.

(** Witness of X16: the 3 x 3 grid grown to 4 x 4 and then to 5 x 6. *)
Lemma _expand_maze_twice_witness :
  wf_tiles small_world ∧ wf_layout small_world
  ∧ width small_world ≤ 4 ≤ 5 ∧ height small_world ≤ 4 ≤ 6
  ∧ (m1 ← _expand_maze small_world 4 4; _expand_maze m1 5 6)
    = _expand_maze small_world 5 6
  ∧ is_Some (_expand_maze small_world 5 6).
Proof.
  assert (wf_tiles small_world) as Hwf
    by (split; [reflexivity|repeat constructor]).
  assert (wf_layout small_world) as Hlay
    by (split; [reflexivity|repeat constructor]).
  assert (width small_world ≤ 4 ≤ 5) as Hw by (simpl; lia).
  assert (height small_world ≤ 4 ≤ 6) as Hh by (simpl; lia).
  split; [exact Hwf|]. split; [exact Hlay|].
  split; [exact Hw|]. split; [exact Hh|].
  exact (_expand_maze_twice small_world 4 4 5 6 Hwf Hlay Hw Hh).
Defined.

(** * Perception *)

Lemma elem_of_stored_events (maze : Maze) (tile : Coord) (event : Event) :
  wf_tiles maze →
  event ∈ default [] (get_events_at maze tile) ↔ event ∈ event_set maze tile.
Proof.
  intros Hwf. destruct (in_bounds maze tile.1 tile.2) eqn:Hb.
  - destruct (get_events_at_in_bounds maze tile Hwf Hb) as (evs & -> & _ & Hmem).
    apply Hmem.
  - rewrite get_events_at_out_of_bounds by done.
    unfold event_set. destruct tile as [x y].
    rewrite tile_at_out_of_bounds by done. simpl. set_solver.
Qed.

Lemma visible_tiles_in_sight (maze : Maze) (c tile : Coord) (r : Z)
    (vis : list Coord) :
  wf_tiles maze →
  get_tiles_in_vision_range maze (Some c) r = Some vis → tile ∈ vis →
  in_bounds maze tile.1 tile.2 = true ∧ get_distance c tile ≤ r
  ∧ has_line_of_sight maze c tile = Some true.
Proof.
  intros Hwf Hvis Htile. destruct (in_bounds maze c.1 c.2) eqn:Hb.
  - destruct (vision_range_members maze c r Hwf Hb) as (vis' & Hvis' & _ & Hmem).
    rewrite Hvis in Hvis'. injection Hvis' as <-. by apply Hmem.
  - destruct c as [x y]. cbn [fst snd] in Hb.
    unfold get_tiles_in_vision_range in Hvis. rewrite Hb in Hvis.
    injection Hvis as <-. by apply elem_of_nil in Htile.
Qed.

Lemma elem_of_standardized (curr tile : Coord) (event : Event)
    (p : Z * FormattedEvent) :
  p ∈ standardized curr tile event ↔
  ∃ comps, event = EvTuple comps ∧ (2 ≤ length comps)%nat
    ∧ p = (get_distance curr tile,
           (component comps 0, component comps 1,
            component comps 2, component comps 3)).
Proof.
  unfold standardized. destruct event as [comps|s].
  2: { split; [by intros ?%elem_of_nil|]. by intros (? & ? & _). }
  case_decide as Hlen.
  - rewrite list_elem_of_singleton. split.
    + intros ->. by exists comps.
    + by intros (comps' & [= <-] & _ & ->).
  - split; [by intros ?%elem_of_nil|].
    intros (comps' & [= <-] & Hlen' & _). lia.
Qed.

(** The entries offered to the scoring function: one for every tuple of at
    least two components stored on one of the tiles, keyed with the distance
    of that tile. *)
Lemma elem_of_stored_candidates (maze : Maze) (curr : Coord)
    (vis : list Coord) (p : Z * FormattedEvent) :
  wf_tiles maze →
  p ∈ stored_candidates maze curr vis ↔
  ∃ tile comps, tile ∈ vis ∧ EvTuple comps ∈ event_set maze tile
    ∧ (2 ≤ length comps)%nat
    ∧ p = (get_distance curr tile,
           (component comps 0, component comps 1,
            component comps 2, component comps 3)).
Proof.
  intros Hwf. unfold stored_candidates. rewrite list_elem_of_bind. split.
  - intros (tile & (event & Hp & Hev)%list_elem_of_bind & Htile).
    apply elem_of_standardized in Hp as (comps & -> & Hlen & Hp).
    apply elem_of_stored_events in Hev; [|done].
    by exists tile, comps.
  - intros (tile & comps & Htile & Hev & Hlen & Hp).
    exists tile. split; [|done]. apply list_elem_of_bind.
    exists (EvTuple comps). split; [|by apply elem_of_stored_events].
    apply elem_of_standardized. by exists comps.
Qed.

Section perceive_props.
Context {Num Score World : Type}.
Variable num_sub : Num → Score → option Num.
Variable calculate_event_poignancy :
  FormattedEvent → World → option Score * World.

Local Abbreviation scored := (scored_entries calculate_event_poignancy).
Local Abbreviation attend :=
  (λ st entry, attend_event num_sub calculate_event_poignancy entry st).

Lemma scored_entries_app (l1 l2 : list (Z * FormattedEvent)) (w : World) :
  scored (l1 ++ l2) w
  = ((scored l1 w).1 ++ (scored l2 (scored l1 w).2).1,
     (scored l2 (scored l1 w).2).2).
Proof.
  revert w. induction l1 as [|p l1 IH]; intros w.
  - cbn [app scored_entries fst snd]. by destruct (scored l2 w).
  - cbn [app scored_entries]. cbv zeta. rewrite IH. cbn [fst snd].
    by destruct (calculate_event_poignancy p.2 w).1.
Qed.

Lemma scored_entries_sublist (l : list (Z * FormattedEvent)) (w : World) :
  (scored l w).1 `sublist_of` l.
Proof.
  revert w. induction l as [|p l IH]; intros w; cbn [scored_entries fst].
  - constructor.
  - cbv zeta. cbn [fst].
    destruct (calculate_event_poignancy p.2 w).1.
    + by apply sublist_skip.
    + by apply sublist_cons.
Qed.

Lemma scored_entries_subseteq (l : list (Z * FormattedEvent)) (w : World)
    (p : Z * FormattedEvent) :
  p ∈ (scored l w).1 → p ∈ l.
Proof.
  revert w. induction l as [|q l IH]; intros w; cbn [scored_entries fst].
  - done.
  - cbv zeta. cbn [fst].
    destruct (calculate_event_poignancy q.2 w).1.
    + intros [->|Hp]%elem_of_cons; [by left|]. right. by eapply IH.
    + intros Hp. right. by eapply IH.
Qed.

Lemma scored_entries_scored (l : list (Z * FormattedEvent)) (w : World)
    (p : Z * FormattedEvent) :
  p ∈ (scored l w).1 → ∃ w0, is_Some (calculate_event_poignancy p.2 w0).1.
Proof.
  revert w. induction l as [|q l IH]; intros w; cbn [scored_entries fst].
  - by intros ?%elem_of_nil.
  - cbv zeta. cbn [fst].
    destruct (calculate_event_poignancy q.2 w).1 as [v|] eqn:Hv.
    + intros [->|Hp]%elem_of_cons; [|by eapply IH].
      exists w. by rewrite Hv.
    + apply IH.
Qed.

Lemma scored_entries_keeps (l : list (Z * FormattedEvent)) (w : World)
    (p : Z * FormattedEvent) :
  p ∈ l → (∀ w0, is_Some (calculate_event_poignancy p.2 w0).1) →
  p ∈ (scored l w).1.
Proof.
  intros Hp Hs. revert w.
  induction l as [|q l IH]; intros w; [by apply elem_of_nil in Hp|].
  cbn [scored_entries fst]. cbv zeta. cbn [fst].
  apply elem_of_cons in Hp as [<-|Hp].
  - destruct (Hs w) as [v ->]. by left.
  - destruct (calculate_event_poignancy q.2 w).1; [right|]; by apply IH.
Qed.

Lemma gather_event_eq (curr tile : Coord) (event : Event)
    (lst : list (Z * FormattedEvent)) (w : World) :
  gather_event calculate_event_poignancy curr tile event (lst, w)
  = (lst ++ (scored (standardized curr tile event) w).1,
     (scored (standardized curr tile event) w).2).
Proof.
  unfold gather_event, standardized.
  destruct event as [comps|s]; [|cbn; by rewrite app_nil_r].
  case_decide; [|cbn; by rewrite app_nil_r].
  cbn [scored_entries fst snd]. cbv zeta.
  destruct (calculate_event_poignancy _ w) as [[v|] w']; cbn [fst snd]; [done|].
  by rewrite app_nil_r.
Qed.

Lemma gather_events_of_tile (curr tile : Coord) (events : list Event) :
  ∀ (lst : list (Z * FormattedEvent)) (w : World),
    for_each events
      (λ event st,
         Some (gather_event calculate_event_poignancy curr tile event st))
      (lst, w)
    = Some (lst ++ (scored (events ≫= standardized curr tile) w).1,
            (scored (events ≫= standardized curr tile) w).2).
Proof.
  induction events as [|event events IH]; intros lst w; cbn [for_each].
  - cbn. by rewrite app_nil_r.
  - cbn [mbind option_bind]. rewrite gather_event_eq, IH.
    rewrite bind_cons, scored_entries_app. cbn [fst snd].
    by rewrite app_assoc.
Qed.

(** The gathering pass keeps, of the entries offered, those that the scoring
    function scores without raising, in the order offered. *)
Lemma gather_events_eq (maze : Maze) (curr : Coord) (vis : list Coord)
    (w : World) :
  wf_tiles maze →
  gather_events calculate_event_poignancy maze curr vis w
  = Some (scored (stored_candidates maze curr vis) w).
Proof.
  intros Hwf. unfold gather_events.
  assert (∀ lst w0,
    for_each vis
      (λ tile st,
        events ← get_events_at maze tile;
        for_each events
          (λ event st,
             Some (gather_event calculate_event_poignancy curr tile event st))
          st)
      (lst, w0)
    = Some (lst ++ (scored (stored_candidates maze curr vis) w0).1,
            (scored (stored_candidates maze curr vis) w0).2)) as Hloop.
  { induction vis as [|tile vis IH]; intros lst w0; cbn [for_each].
    - cbn. by rewrite app_nil_r.
    - destruct (get_events_at_total maze tile Hwf) as [evs Hevs].
      rewrite Hevs. cbn [mbind option_bind].
      rewrite gather_events_of_tile. cbn [mbind option_bind]. rewrite IH.
      unfold stored_candidates. rewrite bind_cons, Hevs.
      cbn [default from_option]. unfold id.
      rewrite scored_entries_app. cbn [fst snd].
      by rewrite app_assoc. }
  rewrite Hloop. cbn [app]. by destruct (scored _ w).
Qed.

(** The second loop: every entry appends its event, and the importance
    fields follow the outcomes of the scoring calls, one call an entry. *)
Lemma attend_events_fold (entries : list (Z * FormattedEvent)) :
  ∀ (acc : list FormattedEvent) (scratch : Scratch Num) (w : World),
    let r := foldl attend (acc, scratch, w) entries in
    r.1.1 = acc ++ (snd <$> entries)
    ∧ (∃ outcomes,
          (outcomes, r.2)
          = scoring_outcomes calculate_event_poignancy (snd <$> entries) w
          ∧ Forall2 (λ p outcome,
                       ∃ w0, (calculate_event_poignancy p.2 w0).1 = outcome)
              entries outcomes
          ∧ (importance_trigger_curr r.1.2, importance_ele_n r.1.2)
            = foldl (importance_after num_sub)
                (importance_trigger_curr scratch, importance_ele_n scratch)
                outcomes)
    ∧ curr_tile r.1.2 = curr_tile scratch
    ∧ vision_r r.1.2 = vision_r scratch
    ∧ att_bandwidth r.1.2 = att_bandwidth scratch.
Proof.
  induction entries as [|entry entries IH]; intros acc scratch w; cbv zeta.
  - cbn [foldl fmap list_fmap fst snd]. rewrite app_nil_r.
    split_and!; try done. exists []. by split_and!.
  - destruct (calculate_event_poignancy entry.2 w) as [outcome w'] eqn:Hcall.
    assert (∃ scratch1,
      attend_event num_sub calculate_event_poignancy entry (acc, scratch, w)
      = (acc ++ [entry.2], scratch1, w')
      ∧ (importance_trigger_curr scratch1, importance_ele_n scratch1)
        = importance_after num_sub
            (importance_trigger_curr scratch, importance_ele_n scratch)
            outcome
      ∧ curr_tile scratch1 = curr_tile scratch
      ∧ vision_r scratch1 = vision_r scratch
      ∧ att_bandwidth scratch1 = att_bandwidth scratch)
      as (scratch1 & Hstep & Hfields & Hc & Hv & Ha).
    { unfold attend_event, importance_after. rewrite Hcall. cbn [fst snd].
      destruct outcome as [v|]; [|by exists scratch].
      destruct (num_sub _ v) as [t|]; [|by exists scratch].
      by exists (mkScratch (curr_tile scratch) (vision_r scratch)
                   (att_bandwidth scratch) t (importance_ele_n scratch + 1)). }
    cbn [foldl]. rewrite Hstep.
    specialize (IH (acc ++ [entry.2]) scratch1 w'). cbv zeta in IH.
    destruct IH
      as (Hevs & (outcomes & Hcalls & Hout & Hfold) & Hc' & Hv' & Ha').
    split_and!; try congruence.
    + rewrite Hevs, <- app_assoc. done.
    + exists (outcome :: outcomes). split_and!.
      * rewrite fmap_cons. cbn [scoring_outcomes]. cbv zeta.
        rewrite Hcall. cbn [fst snd]. rewrite <- Hcalls. done.
      * constructor; [|done]. exists w. by rewrite Hcall.
      * cbn [foldl]. by rewrite <- Hfields.
Qed.



(** [perceive] from a set position on a well-formed grid, pass by pass. *)
Lemma perceive_run (scratch : Scratch Num) (maze : Maze) (w : World)
    (c : Coord) :
  wf_tiles maze → curr_tile scratch = Some c →
  ∃ vis,
    get_tiles_in_vision_range maze (Some c) (vision_r scratch) = Some vis
    ∧ gather_events calculate_event_poignancy maze c vis w
      = Some (scored (stored_candidates maze c vis) w)
    ∧ perceive num_sub calculate_event_poignancy scratch maze w
      = Some (foldl attend
                ([], scratch, (scored (stored_candidates maze c vis) w).2)
                (py_slice_to
                   (sort_by_key fst
                      (scored (stored_candidates maze c vis) w).1)
                   (att_bandwidth scratch))).
Proof.
  intros Hwf Hc.
  destruct (get_tiles_in_vision_range_total maze (Some c) (vision_r scratch) Hwf)
    as [vis Hvis].
  exists vis. split; [done|]. split; [by apply gather_events_eq|].
  unfold perceive. rewrite Hc, Hvis. cbn [mbind option_bind].
  rewrite gather_events_eq by done. cbn [mbind option_bind].
  destruct (scored _ w) as [cands w1]. cbn [fst snd].
  by apply for_each_total.
Qed.

(** The events returned are those of the first sorted candidates. *)
Lemma perceive_result (scratch : Scratch Num) (maze : Maze) (w : World)
    (c : Coord) :
  wf_tiles maze → curr_tile scratch = Some c →
  ∃ vis cands w1 evs scratch' w',
    get_tiles_in_vision_range maze (Some c) (vision_r scratch) = Some vis
    ∧ scored (stored_candidates maze c vis) w = (cands, w1)
    ∧ gather_events calculate_event_poignancy maze c vis w = Some (cands, w1)
    ∧ perceive num_sub calculate_event_poignancy scratch maze w
      = Some (evs, scratch', w')
    ∧ evs = snd <$> py_slice_to (sort_by_key fst cands)
                      (att_bandwidth scratch).
Proof.
  intros Hwf Hc.
  destruct (perceive_run scratch maze w c Hwf Hc)
    as (vis & Hvis & Hcands & Hrun).
  destruct (scored _ w) as [cands w1] eqn:Hscored. cbn [fst snd] in Hrun.
  destruct (foldl _ _ _) as [[evs scratch'] w'] eqn:Hfold.
  exists vis, cands, w1, evs, scratch', w'. split_and!; try done.
  pose proof (attend_events_fold
                (py_slice_to (sort_by_key fst cands) (att_bandwidth scratch))
                [] scratch w1) as Hatt.
  cbv zeta in Hatt. rewrite Hfold in Hatt. by destruct Hatt as (Hevs & _).
Qed.

(** C3: for an agent with a set position on a well-formed grid and an
    attention bandwidth [k >= 0], [perceive] returns at most [k] events.  The
    candidates are the standardized events stored on the visible tiles that
    the scoring function scored without raising, in the order of the tiles
    and of the events on a tile, each paired with the Manhattan distance
    from the agent of the very tile that holds it.  They are sorted ascending
    by that distance, stably (candidates of equal distance keep the order in
    which they were gathered), and the events returned are those of the
    first [k] sorted candidates, in that order.  With at least [k]
    candidates at pairwise distinct distances exactly [k] events are
    returned: those of the [k] candidates of smallest distance, in strictly
    ascending distance. *)
Theorem perceive_attention_bandwidth (scratch : Scratch Num) (maze : Maze)
    (world : World) (c : Coord) :
  wf_tiles maze → curr_tile scratch = Some c → 0 ≤ att_bandwidth scratch →
  ∃ vis cands world1 evs scratch' world',
    get_tiles_in_vision_range maze (Some c) (vision_r scratch) = Some vis
    ∧ gather_events calculate_event_poignancy maze c vis world
      = Some (cands, world1)
    ∧ (cands, world1)
      = scored_entries calculate_event_poignancy
          (stored_candidates maze c vis) world
    ∧ cands `sublist_of` stored_candidates maze c vis
    ∧ (∀ p, p ∈ cands →
            ∃ tile comps,
              tile ∈ vis ∧ EvTuple comps ∈ event_set maze tile
              ∧ (2 ≤ length comps)%nat
              ∧ p = (get_distance c tile,
                     (component comps 0, component comps 1,
                      component comps 2, component comps 3)))
    ∧ perceive num_sub calculate_event_poignancy scratch maze world
      = Some (evs, scratch', world')
    ∧ Z.of_nat (length evs) ≤ att_bandwidth scratch
    ∧ sort_by_key fst cands ≡ₚ cands
    ∧ StronglySorted (λ a b, a.1 ≤ b.1) (sort_by_key fst cands)
    ∧ (∀ d, filter (λ p, p.1 = d) (sort_by_key fst cands)
            = filter (λ p, p.1 = d) cands)
    ∧ evs = snd <$> take (Z.to_nat (att_bandwidth scratch))
                      (sort_by_key fst cands)
    ∧ (att_bandwidth scratch ≤ Z.of_nat (length cands) →
       NoDup (fst <$> cands) →
       Z.of_nat (length evs) = att_bandwidth scratch
       ∧ StronglySorted (λ a b, a.1 < b.1)
           (take (Z.to_nat (att_bandwidth scratch)) (sort_by_key fst cands))
       ∧ ∀ p q,
           p ∈ take (Z.to_nat (att_bandwidth scratch)) (sort_by_key fst cands) →
           q ∈ cands →
           q ∉ take (Z.to_nat (att_bandwidth scratch)) (sort_by_key fst cands) →
           p.1 < q.1).
Proof.
  intros Hwf Hc Hk.
  destruct (perceive_result scratch maze world c Hwf Hc)
    as (vis & cands & w1 & evs & scratch' & w' & Hvis & Hscored & Hgather
        & Hrun & Hevs).
  rewrite py_slice_to_nonneg in Hevs by done.
  set (k := att_bandwidth scratch) in *.
  set (sorted := sort_by_key fst cands) in *.
  assert (length sorted = length cands) as Hlen.
  { unfold sorted. by rewrite sort_by_key_perm. }
  assert (cands = (scored (stored_candidates maze c vis) world).1) as Hcands
    by (by rewrite Hscored).
  exists vis, cands, w1, evs, scratch', w'. split_and!; try done.
  - rewrite Hcands. apply scored_entries_sublist.
  - intros p Hp. rewrite Hcands in Hp. apply scored_entries_subseteq in Hp.
    by apply elem_of_stored_candidates in Hp.
  - rewrite Hevs, length_fmap, length_take. lia.
  - apply sort_by_key_perm.
  - apply (sort_by_key_sorted fst).
  - intros d. apply (sort_by_key_stable fst).
  - intros Hn Hnd.
    destruct (sort_by_key_take_smallest fst cands (Z.to_nat k) Hnd)
      as [Hsorted Hsmallest].
    split_and!; try done.
    rewrite Hevs, length_fmap, length_take. lia.
Qed.


(** X17: [perceive] returns only what is stored in sight.  For an agent with
    a set position on a well-formed grid, every event returned is the
    standardized form (four components: missing ones are "", those past the
    fourth are dropped) of a tuple of at least two components that is stored
    on an in-bounds tile within the vision radius and in line of sight of the
    agent, and that the scoring function scored without raising. *)
Theorem perceive_returns_stored_events (scratch : Scratch Num) (maze : Maze)
    (world : World) (c : Coord) :
  wf_tiles maze → curr_tile scratch = Some c →
  ∃ evs scratch' world',
    perceive num_sub calculate_event_poignancy scratch maze world
    = Some (evs, scratch', world')
    ∧ ∀ ev, ev ∈ evs →
        ∃ tile comps,
          in_bounds maze tile.1 tile.2 = true
          ∧ get_distance c tile ≤ vision_r scratch
          ∧ has_line_of_sight maze c tile = Some true
          ∧ EvTuple comps ∈ event_set maze tile
          ∧ (2 ≤ length comps)%nat
          ∧ ev = (component comps 0, component comps 1,
                  component comps 2, component comps 3)
          ∧ ∃ w, is_Some (calculate_event_poignancy ev w).1.
Proof.
  intros Hwf Hc.
  destruct (perceive_result scratch maze world c Hwf Hc)
    as (vis & cands & w1 & evs & scratch' & w' & Hvis & Hscored & _
        & Hrun & Hevs).
  exists evs, scratch', w'. split; [done|].
  intros ev Hev. rewrite Hevs in Hev.
  apply list_elem_of_fmap in Hev as (p & -> & Hp).
  destruct (py_slice_to_take (sort_by_key fst cands) (att_bandwidth scratch))
    as [n Hn].
  rewrite Hn in Hp. apply (subseteq_take n) in Hp.
  rewrite sort_by_key_perm in Hp.
  assert (cands = (scored (stored_candidates maze c vis) world).1) as Hcands
    by (by rewrite Hscored).
  rewrite Hcands in Hp.
  pose proof (scored_entries_scored _ _ _ Hp) as Hs.
  apply scored_entries_subseteq, elem_of_stored_candidates in Hp
    as (tile & comps & Htile & Hstored & Hlen & Hp); [|done].
  destruct (visible_tiles_in_sight maze c tile _ vis Hwf Hvis Htile)
    as (Hb & Hd & Hlos).
  exists tile, comps. split_and!; try done. by rewrite Hp.
Qed.

(** X18: with bandwidth to spare nothing in sight is missed.  For an agent
    with a set position on a well-formed grid, when fewer events are returned
    than the attention bandwidth allows (so the slice cut nothing off), the
    event of every candidate gathered is among the events returned; so the
    standardized form of every tuple of at least two components stored on a
    tile of the vision range, and scored without raising (whatever the state
    the scoring function is called in), is among the events returned. *)
Theorem perceive_misses_nothing (scratch : Scratch Num) (maze : Maze)
    (world : World) (c : Coord) :
  wf_tiles maze → curr_tile scratch = Some c →
  ∃ vis cands world1 evs scratch' world',
    get_tiles_in_vision_range maze (Some c) (vision_r scratch) = Some vis
    ∧ gather_events calculate_event_poignancy maze c vis world
      = Some (cands, world1)
    ∧ perceive num_sub calculate_event_poignancy scratch maze world
      = Some (evs, scratch', world')
    ∧ (Z.of_nat (length evs) < att_bandwidth scratch →
       (∀ p, p ∈ cands → p.2 ∈ evs)
       ∧ ∀ tile comps,
           tile ∈ vis → EvTuple comps ∈ event_set maze tile →
           (2 ≤ length comps)%nat →
           (∀ w, is_Some (calculate_event_poignancy
                            (component comps 0, component comps 1,
                             component comps 2, component comps 3) w).1) →
           (component comps 0, component comps 1,
            component comps 2, component comps 3) ∈ evs).
Proof.
  intros Hwf Hc.
  destruct (perceive_result scratch maze world c Hwf Hc)
    as (vis & cands & w1 & evs & scratch' & w' & Hvis & Hscored & Hgather
        & Hrun & Hevs).
  exists vis, cands, w1, evs, scratch', w'. split_and!; try done.
  intros Hk.
  assert (py_slice_to (sort_by_key fst cands) (att_bandwidth scratch)
          = sort_by_key fst cands) as Hall.
  { rewrite py_slice_to_nonneg by lia.
    rewrite Hevs, length_fmap, py_slice_to_nonneg, length_take in Hk by lia.
    apply take_ge. lia. }
  rewrite Hall in Hevs.
  assert (∀ p, p ∈ cands → p.2 ∈ evs) as Hin.
  { intros p Hp. rewrite Hevs. apply list_elem_of_fmap.
    exists p. split; [done|]. by rewrite sort_by_key_perm. }
  split; [done|].
  intros tile comps Htile Hstored Hlen Hs.
  apply (Hin (get_distance c tile,
              (component comps 0, component comps 1,
               component comps 2, component comps 3))).
  assert (cands = (scored (stored_candidates maze c vis) world).1) as ->
    by (by rewrite Hscored).
  apply scored_entries_keeps; [|done].
  apply elem_of_stored_candidates; [done|]. by exists tile, comps.
Qed.

(** X19: a negative attention bandwidth.  For an agent with a set position
    on a well-formed grid and a bandwidth [k < 0], the slice [[:k]] drops the
    last [-k] sorted candidates: with [n] candidates [perceive] returns
    [max(0, n + k)] events, those of the nearest candidates. *)
Theorem perceive_negative_bandwidth (scratch : Scratch Num) (maze : Maze)
    (world : World) (c : Coord) :
  wf_tiles maze → curr_tile scratch = Some c → att_bandwidth scratch < 0 →
  ∃ vis cands world1 evs scratch' world',
    get_tiles_in_vision_range maze (Some c) (vision_r scratch) = Some vis
    ∧ gather_events calculate_event_poignancy maze c vis world
      = Some (cands, world1)
    ∧ perceive num_sub calculate_event_poignancy scratch maze world
      = Some (evs, scratch', world')
    ∧ Z.of_nat (length evs)
      = Z.max 0 (Z.of_nat (length cands) + att_bandwidth scratch)
    ∧ evs = snd <$> take (length evs) (sort_by_key fst cands).
Proof.
  intros Hwf Hc Hk.
  destruct (perceive_result scratch maze world c Hwf Hc)
    as (vis & cands & w1 & evs & scratch' & w' & Hvis & Hscored & Hgather
        & Hrun & Hevs).
  exists vis, cands, w1, evs, scratch', w'. split_and!; try done.
  - assert (length (sort_by_key fst cands) = length cands) as Hlen
      by (by rewrite sort_by_key_perm).
    unfold py_slice_to in Hevs. rewrite decide_False in Hevs by lia.
    rewrite Hevs, length_fmap, length_take. lia.
  - assert (length (sort_by_key fst cands) = length cands) as Hlen
      by (by rewrite sort_by_key_perm).
    unfold py_slice_to in Hevs. rewrite decide_False in Hevs by lia.
    rewrite Hlen in Hevs. rewrite Hevs at 1. do 2 f_equal.
    rewrite Hevs, length_fmap, length_take. lia.
Qed.
End perceive_props.

(** ** The perception scenarios, evaluated *)

(** The agent of the scenario perceives the event at (1, 1) and not the one
    behind the wall. *)
Lemma scenario_perceive :
  (λ r, r.1.1) <$> perceive int_sub unit_score scenario_scratch scenario_world ()
  = Some [("Alice", "eating", "apple", "")].
Proof. by_evaluation. Qed.

Lemma scenario_importance :
  (λ r, (importance_trigger_curr r.1.2, importance_ele_n r.1.2))
  <$> perceive int_sub unit_score scenario_scratch scenario_world ()
  = Some (9, 1).
Proof. by_evaluation. Qed.

Lemma distracted_perceive :
  (λ r, r.1.1)
  <$> perceive int_sub unit_score distracted_scratch scenario_world ()
  = Some [].
Proof. by_evaluation. Qed.

Lemma corridor_world_built :
  (m ← Maze_init (Some 5) (Some 1) None;
   m ← add_event m (0, 0) bob_eating;
   m ← add_event m (2, 0) bob_walking;
   add_event m (3, 0) alice_eating) = Some corridor_world.
Proof. by_evaluation. Qed.

(** The agent at the end (4, 0) of the corridor sees all five tiles.  Its
    three candidates are gathered in the order of the tiles, the farthest
    first, at the distances 4, 2 and 1; with bandwidth 2 the two nearest are
    returned, the nearest first, and with every score 1 the trigger goes
    from 10 to 8 and the counter from 0 to 2. *)
Lemma corridor_perceive :
  get_tiles_in_vision_range corridor_world (Some (4, 0)) 4
  = Some [(0, 0); (1, 0); (2, 0); (3, 0); (4, 0)]
  ∧ fst <$> gather_events unit_score corridor_world (4, 0)
              [(0, 0); (1, 0); (2, 0); (3, 0); (4, 0)] ()
    = Some [(4, ("Bob", "eating", "apple", ""));
            (2, ("Bob", "walking", "", ""));
            (1, ("Alice", "eating", "apple", ""))]
  ∧ (λ r, (r.1.1, importance_trigger_curr r.1.2, importance_ele_n r.1.2))
    <$> perceive int_sub unit_score corridor_scratch corridor_world ()
    = Some ([("Alice", "eating", "apple", ""); ("Bob", "walking", "", "")],
            8, 2).
Proof. split_and!; by_evaluation. Qed.

(** Witness of C3: the agent at the end of the corridor, with three
    candidates at the distances 4, 2 and 1, gathered in that order, and
    bandwidth 2. *)
Lemma perceive_attention_bandwidth_witness :
  wf_tiles corridor_world
  ∧ curr_tile corridor_scratch = Some (4, 0)
  ∧ 0 ≤ att_bandwidth corridor_scratch
  ∧ ∃ vis cands world1 evs scratch' world',
      get_tiles_in_vision_range corridor_world (Some (4, 0))
        (vision_r corridor_scratch) = Some vis
      ∧ gather_events unit_score corridor_world (4, 0) vis ()
        = Some (cands, world1)
      ∧ (cands, world1)
        = scored_entries unit_score
            (stored_candidates corridor_world (4, 0) vis) ()
      ∧ cands `sublist_of` stored_candidates corridor_world (4, 0) vis
      ∧ (∀ p, p ∈ cands →
              ∃ tile comps,
                tile ∈ vis ∧ EvTuple comps ∈ event_set corridor_world tile
                ∧ (2 ≤ length comps)%nat
                ∧ p = (get_distance (4, 0) tile,
                       (component comps 0, component comps 1,
                        component comps 2, component comps 3)))
      ∧ perceive int_sub unit_score corridor_scratch corridor_world ()
        = Some (evs, scratch', world')
      ∧ Z.of_nat (length evs) ≤ att_bandwidth corridor_scratch
      ∧ sort_by_key fst cands ≡ₚ cands
      ∧ StronglySorted (λ a b, a.1 ≤ b.1) (sort_by_key fst cands)
      ∧ (∀ d, filter (λ p, p.1 = d) (sort_by_key fst cands)
              = filter (λ p, p.1 = d) cands)
      ∧ evs = snd <$> take (Z.to_nat (att_bandwidth corridor_scratch))
                        (sort_by_key fst cands)
      ∧ (att_bandwidth corridor_scratch ≤ Z.of_nat (length cands) →
         NoDup (fst <$> cands) →
         Z.of_nat (length evs) = att_bandwidth corridor_scratch
         ∧ StronglySorted (λ a b, a.1 < b.1)
             (take (Z.to_nat (att_bandwidth corridor_scratch))
                (sort_by_key fst cands))
         ∧ ∀ p q,
             p ∈ take (Z.to_nat (att_bandwidth corridor_scratch))
                   (sort_by_key fst cands) →
             q ∈ cands →
             q ∉ take (Z.to_nat (att_bandwidth corridor_scratch))
                   (sort_by_key fst cands) →
             p.1 < q.1).
Proof.
  assert (wf_tiles corridor_world) as Hwf
    by (split; [reflexivity|repeat constructor]).
  assert (0 ≤ att_bandwidth corridor_scratch) as Hk by (simpl; lia).
  split; [exact Hwf|]. split; [reflexivity|]. split; [exact Hk|].
  exact (perceive_attention_bandwidth int_sub unit_score corridor_scratch
           corridor_world () (4, 0) Hwf eq_refl Hk).
Defined.



(** Witness of X17: the agent of the scenario. *)
Lemma perceive_returns_stored_events_witness :
  wf_tiles scenario_world ∧ curr_tile scenario_scratch = Some (0, 2)
  ∧ ∃ evs scratch' world',
      perceive int_sub unit_score scenario_scratch scenario_world ()
      = Some (evs, scratch', world')
      ∧ ∀ ev, ev ∈ evs →
          ∃ tile comps,
            in_bounds scenario_world tile.1 tile.2 = true
            ∧ get_distance (0, 2) tile ≤ vision_r scenario_scratch
            ∧ has_line_of_sight scenario_world (0, 2) tile = Some true
            ∧ EvTuple comps ∈ event_set scenario_world tile
            ∧ (2 ≤ length comps)%nat
            ∧ ev = (component comps 0, component comps 1,
                    component comps 2, component comps 3)
            ∧ ∃ w, is_Some (unit_score ev w).1.
Proof.
  assert (wf_tiles scenario_world) as Hwf
    by (split; [reflexivity|repeat constructor]).
  split; [exact Hwf|]. split; [reflexivity|].
  exact (perceive_returns_stored_events int_sub unit_score scenario_scratch
           scenario_world () (0, 2) Hwf eq_refl).
Defined.

(** Witness of X18: the agent of the scenario. *)
Lemma perceive_misses_nothing_witness :
  wf_tiles scenario_world ∧ curr_tile scenario_scratch = Some (0, 2)
  ∧ ∃ vis cands world1 evs scratch' world',
      get_tiles_in_vision_range scenario_world (Some (0, 2))
        (vision_r scenario_scratch) = Some vis
      ∧ gather_events unit_score scenario_world (0, 2) vis ()
        = Some (cands, world1)
      ∧ perceive int_sub unit_score scenario_scratch scenario_world ()
        = Some (evs, scratch', world')
      ∧ (Z.of_nat (length evs) < att_bandwidth scenario_scratch →
         (∀ p, p ∈ cands → p.2 ∈ evs)
         ∧ ∀ tile comps,
             tile ∈ vis → EvTuple comps ∈ event_set scenario_world tile →
             (2 ≤ length comps)%nat →
             (∀ w, is_Some (unit_score
                              (component comps 0, component comps 1,
                               component comps 2, component comps 3) w).1) →
             (component comps 0, component comps 1,
              component comps 2, component comps 3) ∈ evs).
Proof.
  assert (wf_tiles scenario_world) as Hwf
    by (split; [reflexivity|repeat constructor]).
  split; [exact Hwf|]. split; [reflexivity|].
  exact (perceive_misses_nothing int_sub unit_score scenario_scratch
           scenario_world () (0, 2) Hwf eq_refl).
Defined.

(** Witness of X19: the agent with bandwidth -1; its one candidate is
    dropped. *)
Lemma perceive_negative_bandwidth_witness :
  wf_tiles scenario_world ∧ curr_tile distracted_scratch = Some (0, 2)
  ∧ att_bandwidth distracted_scratch < 0
  ∧ ∃ vis cands world1 evs scratch' world',
      get_tiles_in_vision_range scenario_world (Some (0, 2))
        (vision_r distracted_scratch) = Some vis
      ∧ gather_events unit_score scenario_world (0, 2) vis ()
        = Some (cands, world1)
      ∧ perceive int_sub unit_score distracted_scratch scenario_world ()
        = Some (evs, scratch', world')
      ∧ Z.of_nat (length evs)
        = Z.max 0 (Z.of_nat (length cands) + att_bandwidth distracted_scratch)
      ∧ evs = snd <$> take (length evs) (sort_by_key fst cands).
Proof.
  assert (wf_tiles scenario_world) as Hwf
    by (split; [reflexivity|repeat constructor]).
  assert (att_bandwidth distracted_scratch < 0) as Hk by (simpl; lia).
  split; [exact Hwf|]. split; [reflexivity|]. split; [exact Hk|].
  exact (perceive_negative_bandwidth int_sub unit_score distracted_scratch
           scenario_world () (0, 2) Hwf eq_refl Hk).
Defined.

(** Witness of X20: an event added at (4, 1), outside the 3 x 3 grid. *)
Lemma add_event_from_tile_nonneg_witness :
  wf_tiles small_world ∧ wf_layout small_world ∧ 0 ≤ 4 ∧ 0 ≤ 1
  ∧ ∃ m', add_event_from_tile small_world alice_eating (4, 1) = Some m'
      ∧ wf_tiles m' ∧ in_bounds m' 4 1 = true
      ∧ event_set m' (4, 1) = {[alice_eating]} ∪ event_set small_world (4, 1)
      ∧ ∀ c, c ≠ (4, 1) → event_set m' c = event_set small_world c.
Proof.
  assert (wf_tiles small_world) as Hwf
    by (split; [reflexivity|repeat constructor]).
  assert (wf_layout small_world) as Hlay
    by (split; [reflexivity|repeat constructor]).
  assert (0 ≤ 4) as Hx by lia. assert (0 ≤ 1) as Hy by lia.
  split; [exact Hwf|]. split; [exact Hlay|].
  split; [exact Hx|]. split; [exact Hy|].
  exact (add_event_from_tile_nonneg small_world alice_eating 4 1
           Hwf Hlay Hx Hy).
Defined.

(** Witness of X21: width -1, height 5, and a layout with one short row. *)
Lemma Maze_init_negative_dimension_witness :
  ((-1 < 0 ∧ 5 ≠ 0) ∨ (5 < 0 ∧ -1 ≠ 0))
  ∧ ∃ m, Maze_init (Some (-1)) (Some 5) (Some [[0]]) = Some m
      ∧ width m = -1 ∧ height m = 5
      ∧ ∀ x y, in_bounds m x y = false.
Proof.
  assert ((-1 < 0 ∧ 5 ≠ 0) ∨ (5 < 0 ∧ -1 ≠ 0)) as Hneg by (left; lia).
  split; [exact Hneg|].
  exact (Maze_init_negative_dimension (-1) 5 (Some [[0]]) Hneg).
Defined.

(** * The date string *)

Lemma day_suffix_of_month_day (d : Z) :
  1 ≤ d ≤ 31 →
  day_suffix d
  = if decide (d = 1 ∨ d = 21 ∨ d = 31) then "st"
    else if decide (d = 2 ∨ d = 22) then "nd"
    else if decide (d = 3 ∨ d = 23) then "rd"
    else "th".
Proof.
  intros Hd.
  assert (∃ n : nat, d = Z.of_nat n ∧ (1 ≤ n ≤ 31)%nat) as (n & -> & Hn).
  { exists (Z.to_nat d). lia. }
  do 32 (destruct n as [|n]; [first [lia|reflexivity]|]). lia.
Qed.

Section date_string_props.
Variable DateTime : Type.
Variable day hour : DateTime → Z.
Variable strftime : DateTime → string → option string.

(** X22: the day of the month gets its English ordinal suffix.  For a
    [datetime] whose day is between 1 and 31, [get_str_curr_date_str] asks
    [strftime] for the format ["%A, %B <day><suffix>, %Y"] where the suffix
    is "st" for 1, 21 and 31, "nd" for 2 and 22, "rd" for 3 and 23, and "th"
    for every other day (11, 12 and 13 among them); when [strftime] returns,
    the result is its answer followed by the time-of-day word in brackets,
    and when it raises, the result is that of [strftime] on the plain format
    ["%B %d, %Y"].  Without a current time the result is "Unknown date". *)
Theorem get_str_curr_date_str_suffix (t : DateTime) :
  1 ≤ day t ≤ 31 →
  ∃ suffix,
    get_str_curr_date_str DateTime day hour strftime (Some t)
    = match strftime t ("%A, %B " +:+ pretty (day t) +:+ suffix +:+ ", %Y")
      with
      | Some date_str =>
          Some (date_str +:+ " (" +:+ time_of_day (hour t) +:+ ")")
      | None => strftime t "%B %d, %Y"
      end
    ∧ (day t = 1 ∨ day t = 21 ∨ day t = 31 → suffix = "st")
    ∧ (day t = 2 ∨ day t = 22 → suffix = "nd")
    ∧ (day t = 3 ∨ day t = 23 → suffix = "rd")
    ∧ (day t ∉ [1; 21; 31; 2; 22; 3; 23] → suffix = "th")
    ∧ get_str_curr_date_str DateTime day hour strftime None
      = Some "Unknown date".
Proof.
  intros Hd. exists (day_suffix (day t)). split; [done|].
  rewrite (day_suffix_of_month_day _ Hd).
  split_and!; try done.
  - intros H. by rewrite decide_True.
  - intros H. rewrite decide_False by lia. by rewrite decide_True.
  - intros H. rewrite !decide_False by lia. by rewrite decide_True.
  - intros H. rewrite !decide_False; [done| | |].
    all: intros Hx; apply H; set_solver.
Qed.
End date_string_props.

(** Witness of X22: the 21st, at 9 o'clock, with a [strftime] that echoes
    its format. *)
Lemma get_str_curr_date_str_suffix_witness :
  1 ≤ fst (21, 9) ≤ 31
  ∧ ∃ suffix,
      get_str_curr_date_str (Z * Z) fst snd (λ _ fmt, Some fmt) (Some (21, 9))
      = match (λ (_ : Z * Z) fmt, Some fmt) (21, 9)
                ("%A, %B " +:+ pretty (fst (21, 9)) +:+ suffix +:+ ", %Y")
        with
        | Some date_str =>
            Some (date_str +:+ " (" +:+ time_of_day (snd (21, 9)) +:+ ")")
        | None => (λ (_ : Z * Z) fmt, Some fmt) (21, 9) "%B %d, %Y"
        end
      ∧ (fst (21, 9) = 1 ∨ fst (21, 9) = 21 ∨ fst (21, 9) = 31 →
         suffix = "st")
      ∧ (fst (21, 9) = 2 ∨ fst (21, 9) = 22 → suffix = "nd")
      ∧ (fst (21, 9) = 3 ∨ fst (21, 9) = 23 → suffix = "rd")
      ∧ (fst (21, 9) ∉ [1; 21; 31; 2; 22; 3; 23] → suffix = "th")
      ∧ get_str_curr_date_str (Z * Z) fst snd (λ _ fmt, Some fmt) None
        = Some "Unknown date".
Proof.
  assert (1 ≤ fst (21, 9) ≤ 31) as Hd by (simpl; lia).
  split; [exact Hd|].
  exact (get_str_curr_date_str_suffix (Z * Z) fst snd (λ _ fmt, Some fmt)
           (21, 9) Hd).
Defined.

Lemma date_string_of_the_21st :
  get_str_curr_date_str (Z * Z) fst snd (λ _ fmt, Some fmt) (Some (21, 9))
  = Some "%A, %B 21st, %Y (morning)"
  ∧ day_suffix 11 = "th" ∧ day_suffix 12 = "th" ∧ day_suffix 13 = "th".
Proof. split_and!; by_evaluation. Qed.
